(** * DataFormsJS web-component utilities: a shallow embedding

    The development follows [src/js/web-components/utils.js] and
    [src/js/web-components/animation-service.js].

    Conventions of the embedding.
    - A JavaScript string is a [string], a sequence of code units below
      256; every character the code looks for is ASCII.
    - A JavaScript value is a [val].  A number is given by the digits and
      the exponent the language prints it with.  Objects live in a heap
      and are referred to by location, so that [window.window === window]
      can be expressed.  An object has its own properties, in the order
      [for ... in] visits them, a prototype, what a call of it does when
      it is a function, and what its conversion to a primitive value
      gives.  A property read walks the prototype chain.  Reading a
      property, converting an object and calling a function change
      nothing of the state the code reads.
    - An element is known through its attributes (a finite map from the
      names as the element stores them), its class list and its
      [parentNode] link.  The DOM decides which names [setAttribute]
      accepts and whether an element lower-cases names; both are left
      open.
    - Module-level and browser state is threaded explicitly.
    - Code that may throw returns a [result]; code that may loop takes
      fuel and returns [OutOfFuel] or nothing when it runs out; that
      enough fuel always gives a result is proved. *)

From Stdlib Require Import ZArith Ascii String List Lia Bool.
From stdpp Require Import base option list gmap strings pretty.

Local Open Scope Z_scope.

(** Appending strings computes by [simpl] here. *)
#[local] Arguments String.append !_ _ / : simpl nomatch.

(** ** JavaScript strings *)

Module JsString.

(** [find_char c s] is the position of the first occurrence of [c]. *)
Fixpoint find_char (c : ascii) (s : string) : option nat :=
  match s with
  | EmptyString => None
  | String a s' =>
      if Ascii.eqb a c then Some O
      else match find_char c s' with
           | Some n => Some (S n)
           | None => None
           end
  end.

(** [String.prototype.indexOf] called with a one-character needle:
    the position of the first occurrence, or [-1]. *)
Definition indexOf (s : string) (c : ascii) : Z :=
  match find_char c s with
  | Some n => Z.of_nat n
  | None => -1
  end.

Fixpoint take (n : nat) (s : string) : string :=
  match n, s with
  | S n', String a s' => String a (take n' s')
  | _, _ => EmptyString
  end.

Fixpoint drop (n : nat) (s : string) : string :=
  match n, s with
  | S n', String _ s' => drop n' s'
  | _, _ => s
  end.

(** Arguments of [substring] are clamped to [0 .. length]. *)
Definition clamp (s : string) (i : Z) : nat :=
  Z.to_nat (Z.min (Z.max i 0) (Z.of_nat (String.length s))).

(** [String.prototype.substring(start, end)]: both indices are clamped and
    swapped when [start > end]. *)
Definition substring (s : string) (start end_ : Z) : string :=
  let a := clamp s start in
  let b := clamp s end_ in
  let lo := Nat.min a b in
  let hi := Nat.max a b in
  take (hi - lo) (drop lo s).

(** [String.prototype.substring(start)]. *)
Definition substring_from (s : string) (start : Z) : string :=
  drop (clamp s start) s.

(** [String.prototype.replace(/c/g, rep)] for a one-character literal
    pattern [c] and a replacement without [$] patterns. *)
Fixpoint replaceAll (c : ascii) (rep : string) (s : string) : string :=
  match s with
  | EmptyString => EmptyString
  | String a s' =>
      (if Ascii.eqb a c then rep else String a EmptyString)
        +:+ replaceAll c rep s'
  end.

(** [String.prototype.split(c)] for a one-character separator: never
    the empty list. *)
Fixpoint split (c : ascii) (s : string) : list string :=
  match s with
  | EmptyString => [EmptyString]
  | String a s' =>
      if Ascii.eqb a c then EmptyString :: split c s'
      else match split c s' with
           | [] => [String a EmptyString]
           | w :: ws => String a w :: ws
           end
  end.

(** White space and line terminators among the code units below 256. *)
Definition is_white_space (a : ascii) : bool :=
  match a with
  | "009" | "010" | "011" | "012" | "013" | " " | "160" => true
  | _ => false
  end%char.

Fixpoint trim_start (s : string) : string :=
  match s with
  | EmptyString => EmptyString
  | String a s' => if is_white_space a then trim_start s' else s
  end.

Fixpoint rev_append (s acc : string) : string :=
  match s with
  | EmptyString => acc
  | String a s' => rev_append s' (String a acc)
  end.

Definition rev (s : string) : string := rev_append s EmptyString.

(** [String.prototype.trim]. *)
Definition trim (s : string) : string :=
  rev (trim_start (rev (trim_start s))).

Fixpoint mem (c : ascii) (s : string) : bool :=
  match s with
  | EmptyString => false
  | String a s' => Ascii.eqb a c || mem c s'
  end.

(** ASCII lower case, as the DOM applies it to names: [A] to [Z] only. *)
Definition ascii_lower_char (c : ascii) : ascii :=
  let n := nat_of_ascii c in
  if ((65 <=? n) && (n <=? 90))%nat then ascii_of_nat (n + 32) else c.

Fixpoint ascii_lowercase (s : string) : string :=
  match s with
  | EmptyString => EmptyString
  | String c s' => String (ascii_lower_char c) (ascii_lowercase s')
  end.

(** ASCII white space, as the DOM splits tokens on it: tab, line feed,
    form feed, carriage return and space. *)
Definition is_ascii_whitespace (a : ascii) : bool :=
  match a with
  | "009" | "010" | "012" | "013" | " " => true
  | _ => false
  end%char.

Fixpoint has_ascii_whitespace (s : string) : bool :=
  match s with
  | EmptyString => false
  | String a s' => is_ascii_whitespace a || has_ascii_whitespace s'
  end.

End JsString.

(** ** JavaScript values *)

(** Heap locations of objects. *)
Definition loc := positive.

(** A number, as the language prints it: [Decimal negative s n] is the
    number of value [s × 10^(n - k)], negated when [negative], where [k]
    is the number of decimal digits of [s]; for a number of the language
    [s] is the shortest digit string that denotes it. *)
Inductive number : Type :=
  | NaN
  | Infinity (negative : bool)
  | Zero (negative : bool)
  | Decimal (negative : bool) (s : positive) (n : Z).

Global Instance number_eq_dec : EqDecision number.
Proof. solve_decision. Defined.

Inductive val : Type :=
  | VUndefined
  | VNull
  | VBool (b : bool)
  | VNum (x : number)
  | VBigInt (n : Z)
  | VStr (s : string)
  | VSymbol (description : string)
  | VObj (l : loc).

Global Instance val_eq_dec : EqDecision val.
Proof. solve_decision. Defined.

(** What may be thrown: the two errors of the language and the DOM
    exception the code can meet, and [Thrown] for whatever code of the
    page throws. *)
Inductive error : Type :=
  | TypeError
  | SyntaxError
  | InvalidCharacterError
  | Thrown.

Global Instance error_eq_dec : EqDecision error.
Proof. solve_decision. Defined.

(** How an evaluation that the page supplies ends. *)
Inductive completion : Type :=
  | Returns (v : val)
  | Throws (e : error).

(** What a call of a function object does: the built-in
    [Object.prototype.hasOwnProperty], or a function known by what it
    returns for its first argument. *)
Inductive behaviour : Type :=
  | HasOwnProperty
  | Function_ (call : val -> completion).

Record property := {
  p_value : val;
  p_enumerable : bool
}.

(** An object: its own properties with what reading each one gives, in
    the order the object keeps them; its prototype; its behaviour when it
    is callable; and what its conversion to a primitive value gives, with
    the hint [string] (a call of [toString] first) and with no hint (a
    call of [valueOf] first, unless the object decides otherwise). *)
Record object := {
  own : list (string * property);
  proto : option loc;
  callable : option behaviour;
  primitive_string : completion;
  primitive_default : completion
}.

Abbreviation heap := (gmap loc object).

(** The outcome of running code that may throw or run out of fuel. *)
Inductive result (A : Type) : Type :=
  | Ok (a : A)
  | Throw (e : error)
  | OutOfFuel.

Arguments Ok {A} a.
Arguments Throw {A} e.
Arguments OutOfFuel {A}.

Global Instance result_bind : MBind result := fun A B k r =>
  match r with
  | Ok a => k a
  | Throw e => Throw e
  | OutOfFuel => OutOfFuel
  end.

(** [for (const x of xs) { st = body(st, x) }] *)
Fixpoint for_each {A S} (body : S -> A -> result S) (xs : list A) (st : S)
    : result S :=
  match xs with
  | [] => Ok st
  | x :: xs' => st' ← body st x; for_each body xs' st'
  end.

(** The [typeof] operator. *)
Definition typeof (h : heap) (v : val) : string :=
  match v with
  | VUndefined => "undefined"
  | VNull => "object"
  | VBool _ => "boolean"
  | VNum _ => "number"
  | VBigInt _ => "bigint"
  | VStr _ => "string"
  | VSymbol _ => "symbol"
  | VObj l =>
      match h !! l ≫= callable with
      | Some _ => "function"
      | None => "object"
      end
  end.

Fixpoint zeros (n : nat) : string :=
  match n with
  | O => EmptyString
  | S n' => String "0" (zeros n')
  end.

Definition sign_text (negative : bool) : string :=
  if negative then "-" else EmptyString.

(** The text of a number, [Number::toString] with radix 10. *)
Definition number_text (x : number) : string :=
  match x with
  | NaN => "NaN"
  | Infinity negative => sign_text negative +:+ "Infinity"
  | Zero _ => "0"
  | Decimal negative s n =>
      let digits := pretty (Npos s) in
      let k := Z.of_nat (String.length digits) in
      sign_text negative +:+
      (if (k <=? n) && (n <=? 21) then digits +:+ zeros (Z.to_nat (n - k))
       else if (0 <? n) && (n <=? 21) then
         JsString.take (Z.to_nat n) digits +:+ "."
           +:+ JsString.drop (Z.to_nat n) digits
       else if (-6 <? n) && (n <=? 0) then
         "0." +:+ zeros (Z.to_nat (- n)) +:+ digits
       else
         let e := n - 1 in
         let exponent :=
           (if e <? 0 then "-" else "+") +:+ pretty (Z.abs e) in
         if k =? 1 then digits +:+ "e" +:+ exponent
         else JsString.take 1 digits +:+ "."
                +:+ JsString.drop 1 digits +:+ "e" +:+ exponent)
  end.

(** [ToPrimitive]: a primitive value is left as it is; an object gives
    what its conversion gives, and a conversion that ends with an object
    is a [TypeError]. *)
Definition ToPrimitive (h : heap) (with_hint_string : bool) (v : val)
    : result val :=
  match v with
  | VObj l =>
      match h !! l with
      | Some o =>
          match (if with_hint_string then primitive_string o
                 else primitive_default o) with
          | Returns (VObj _) => Throw TypeError
          | Returns p => Ok p
          | Throws e => Throw e
          end
      | None => Throw TypeError
      end
  | _ => Ok v
  end.

(** [ToString] on a primitive value; a Symbol cannot be converted. *)
Definition primitive_text (v : val) : result string :=
  match v with
  | VUndefined => Ok "undefined"
  | VNull => Ok "null"
  | VBool true => Ok "true"
  | VBool false => Ok "false"
  | VNum x => Ok (number_text x)
  | VBigInt n => Ok (pretty n)
  | VStr s => Ok s
  | VSymbol _ => Throw TypeError
  | VObj _ => Throw TypeError
  end.

(** [ToString], the conversion built-in functions apply to an argument. *)
Definition ToString (h : heap) (v : val) : result string :=
  p ← ToPrimitive h true v; primitive_text p.

(** The call [String(v)]: as [ToString], but a Symbol is described. *)
Definition String_ (h : heap) (v : val) : result string :=
  match v with
  | VSymbol description => Ok ("Symbol(" +:+ description +:+ ")")
  | _ => ToString h v
  end.

(** The text [v] contributes to [s + v], [s] a string: the conversion
    is done without hint. *)
Definition concat_text (h : heap) (v : val) : result string :=
  p ← ToPrimitive h false v; primitive_text p.

(** Truthiness of a value. *)
Definition truthy (v : val) : bool :=
  match v with
  | VUndefined | VNull => false
  | VBool b => b
  | VNum NaN | VNum (Zero _) => false
  | VNum _ => true
  | VBigInt n => negb (n =? 0)
  | VStr s => negb (String.eqb s EmptyString)
  | VSymbol _ => true
  | VObj _ => true
  end.

(** The own property [k] of an object. *)
Fixpoint own_property (k : string) (ps : list (string * property))
    : option property :=
  match ps with
  | [] => None
  | (k', p) :: ps' => if String.eqb k k' then Some p else own_property k ps'
  end.

(** One unit of fuel per object of the prototype chain. *)
Fixpoint get_from (fuel : nat) (h : heap) (l : loc) (k : string) : val :=
  match fuel with
  | O => VUndefined
  | S fuel' =>
      match h !! l with
      | Some o =>
          match own_property k (own o) with
          | Some p => p_value p
          | None =>
              match proto o with
              | Some l' => get_from fuel' h l' k
              | None => VUndefined
              end
          end
      | None => VUndefined
      end
  end.

(** Property read [o[k]] on the object at [l]: the property of the first
    object of the prototype chain that has one named [k], [undefined]
    when there is none.  A chain has no more objects than the heap. *)
Definition get_prop (h : heap) (l : loc) (k : string) : val :=
  get_from (S (size h)) h l k.

(** ** Objects of the language *)

(** A property as an object literal makes it, and one [for ... in] does
    not visit. *)
Definition data_property (v : val) : property :=
  {| p_value := v; p_enumerable := true |}.

Definition hidden_property (v : val) : property :=
  {| p_value := v; p_enumerable := false |}.

(** The object an object literal gives, [prototype] being the place of
    [Object.prototype]: any conversion of it ends in the [toString] it
    inherits. *)
Definition object_literal (props : list (string * val)) (prototype : loc)
    : object :=
  {| own := (fun kv => (kv.1, data_property kv.2)) <$> props;
     proto := Some prototype;
     callable := None;
     primitive_string := Returns (VStr "[object Object]");
     primitive_default := Returns (VStr "[object Object]") |}.

(** The object [Object.create(null)] gives once [props] are assigned to
    it: it has no method to convert it. *)
Definition bare_object (props : list (string * val)) : object :=
  {| own := (fun kv => (kv.1, data_property kv.2)) <$> props;
     proto := None;
     callable := None;
     primitive_string := Throws TypeError;
     primitive_default := Throws TypeError |}.

(** A built-in function, which prints as [source]. *)
Definition native_function (b : behaviour) (source : string) : object :=
  {| own := [];
     proto := None;
     callable := Some b;
     primitive_string := Returns (VStr source);
     primitive_default := Returns (VStr source) |}.

(** A heap with [Object.prototype] at 1 and its methods
    [hasOwnProperty] and [toString] at 2 and 3. *)
Definition realm : heap :=
  {[ 1%positive :=
       {| own := [("hasOwnProperty", hidden_property (VObj 2%positive));
                  ("toString", hidden_property (VObj 3%positive))];
          proto := None;
          callable := None;
          primitive_string := Returns (VStr "[object Object]");
          primitive_default := Returns (VStr "[object Object]") |};
     2%positive :=
       native_function HasOwnProperty
         "function hasOwnProperty() { [native code] }";
     3%positive :=
       native_function (Function_ (fun _ => Returns (VStr "[object Object]")))
         "function toString() { [native code] }" ]}.

(** ** HTML escaping and templating *)

(** The chain of [replace] calls of [escapeHtml], lines 95-99. *)
Definition escape_pipeline (s : string) : string :=
  JsString.replaceAll ">" "&gt;"
    (JsString.replaceAll "<" "&lt;"
      (JsString.replaceAll "'" "&#039;"
        (JsString.replaceAll "034" "&quot;"
          (JsString.replaceAll "&" "&amp;" s)))).

(** [escapeHtml(text)], utils.js lines 90-100. *)
Definition escapeHtml (h : heap) (text : val) : result val :=
  match text with
  | VUndefined | VNull | VNum _ => Ok text
  | _ => s ← String_ h text; Ok (VStr (escape_pipeline s))
  end.

(** The character-wise mapping the documentation of [escapeHtml] lists. *)
Definition escape_entity (c : ascii) : string :=
  match c with
  | "&"%char => "&amp;"
  | "034"%char => "&quot;"
  | "'"%char => "&#039;"
  | "<"%char => "&lt;"
  | ">"%char => "&gt;"
  | _ => String c EmptyString
  end.

Fixpoint escape_chars (s : string) : string :=
  match s with
  | EmptyString => EmptyString
  | String c s' => escape_entity c +:+ escape_chars s'
  end.

(** [Array.prototype.join('')] prints [undefined] and [null] elements as
    the empty string and converts the others with [ToString]. *)
Definition join_item (h : heap) (v : val) : result string :=
  match v with
  | VUndefined | VNull => Ok EmptyString
  | _ => ToString h v
  end.

Fixpoint join_empty (h : heap) (xs : list val) : result string :=
  match xs with
  | [] => Ok EmptyString
  | v :: xs' =>
      s ← join_item h v; rest ← join_empty h xs'; Ok (s +:+ rest)
  end.

(** Array read [xs[i]]: [undefined] out of range. *)
Definition array_get (xs : list val) (i : nat) : val :=
  default VUndefined (xs !! i).

(** The body of the [for] loop of [render], run for [count] more rounds
    from index [n]. *)
Fixpoint render_loop (h : heap) (strings values : list val) (n count : nat)
    (html : list val) : result (list val) :=
  match count with
  | O => Ok html
  | S count' =>
      escaped ← escapeHtml h (array_get values n);
      let html := html ++ [escaped] in
      let html := html ++ [array_get strings (S n)] in
      render_loop h strings values (S n) count' html
  end.

(** [render(strings, ...values)], utils.js lines 110-117.  The literal
    parts of a tagged template are strings. *)
Definition render (h : heap) (strings : list string) (values : list val)
    : result string :=
  let strings := VStr <$> strings in
  let html := [array_get strings 0] in
  html ← render_loop h strings values 0 (length values) html;
  join_empty h html.

(** The text an interpolated value is to contribute: nothing for
    [undefined] and [null], its digits for a number, and for any other
    value the text of [String(value)] with the five characters mapped to
    their entities. *)
Definition escaped_text (h : heap) (v : val) : result string :=
  match v with
  | VUndefined | VNull => Ok EmptyString
  | VNum x => Ok (number_text x)
  | _ => s ← String_ h v; Ok (escape_chars s)
  end.

(** The literal parts, unmodified, with the texts of the values between
    them, as a recursion on the two lists. *)
Fixpoint interleave (h : heap) (strings : list string) (values : list val)
    : result string :=
  match values with
  | [] => Ok (default EmptyString (head strings))
  | v :: values' =>
      s ← escaped_text h v;
      rest ← interleave h (tail strings) values';
      Ok (default EmptyString (head strings) +:+ s +:+ rest)
  end.





(** ** Attribute template binding *)

(** [typeof value === 'object' && value !== null] *)
Definition is_object (h : heap) (value : val) : bool :=
  String.eqb (typeof h value) "object" && negb (bool_decide (value = VNull)).

(** One round of the loop of [getBindValue]. *)
Definition bind_step (h : heap) (value : val) (k : string) : val :=
  if is_object h value then
    match value with
    | VObj l => get_prop h l k
    | _ => VUndefined
    end
  else VNull.

(** The object [getBindValue] starts from, line 208. *)
Definition bind_root (window : loc) (data : val) (key : string) : val :=
  let keys := JsString.split "." key in
  if bool_decide (1 < length keys)%nat
     && bool_decide (head keys = Some "window")
  then VObj window else data.

(** [getBindValue(data, key)], utils.js lines 206-213. *)
Definition getBindValue (h : heap) (window : loc) (data : val)
    (key : string) : val :=
  let keys := JsString.split "." key in
  let value := bind_root window data key in
  let value := foldl (bind_step h) value keys in
  if bool_decide (value = VUndefined) then VNull else value.

(** A dot-path lookup through objects: [None] when a step goes through
    a value that is no object (a primitive value or a function). *)
Fixpoint path_lookup (h : heap) (v : val) (keys : list string) : option val :=
  match keys with
  | [] => Some v
  | k :: keys' =>
      match v with
      | VObj l =>
          if is_object h v then path_lookup h (get_prop h l k) keys'
          else None
      | _ => None
      end
  end.

(** The attributes of an element, by the names the element stores. *)
Abbreviation element := (gmap string string).

Definition maxLoop : Z := 100.

(** [posStart === -1 || posEnd === -1 || posEnd < posStart] *)
Definition no_bracket_pair (value : string) : bool :=
  let posStart := JsString.indexOf value "[" in
  let posEnd := JsString.indexOf value "]" in
  (posStart =? -1) || (posEnd =? -1) || (posEnd <? posStart).

(** The statements of the loop body after the [break] test. *)
Definition substitute_first (h : heap) (window : loc) (data : val)
    (value : string) : result string :=
  let posStart := JsString.indexOf value "[" in
  let posEnd := JsString.indexOf value "]" in
  let key := JsString.substring value (posStart + 1) posEnd in
  let boundValue := getBindValue h window data key in
  let boundValue :=
    if bool_decide (boundValue = VUndefined) then VStr EmptyString
    else boundValue in
  text ← concat_text h boundValue;
  Ok ((JsString.substring value 0 posStart +:+ text)
        +:+ JsString.substring_from value (posEnd + 1)).

(** A template whose first [[] comes before its first []]: [pre] holds
    no bracket and [key] no closing bracket. *)
Definition segment (pre key post : string) : string :=
  pre +:+ String "[" (key +:+ String "]" post).

Definition first_segment (pre key : string) : Prop :=
  JsString.mem "[" pre = false ∧ JsString.mem "]" pre = false
  ∧ JsString.mem "]" key = false.

(** The [while (loopCount < maxLoop)] loop of [bindAttrTmpl], lines
    242-257.  One unit of fuel pays for one evaluation of the loop test;
    the result is the final [value] and [loopCount]. *)
Fixpoint parse_loop (fuel : nat) (h : heap) (window : loc) (data : val)
    (value : string) (loopCount : Z) : result (string * Z) :=
  match fuel with
  | O => OutOfFuel
  | S fuel' =>
      if loopCount <? maxLoop then
        if no_bracket_pair value then Ok (value, loopCount)
        else
          value ← substitute_first h window data value;
          parse_loop fuel' h window data value (loopCount + 1)
      else Ok (value, loopCount)
  end.

(** [n] rounds of the loop body. *)
Fixpoint rounds (h : heap) (window : loc) (data : val) (n : nat)
    (value : string) : result string :=
  match n with
  | O => Ok value
  | S n' =>
      value ← substitute_first h window data value;
      rounds h window data n' value
  end.

(** [attribute + '-' + attr], the name under which the template of
    [attr] is kept. *)
Definition saved_name (attribute attr : string) : string :=
  attribute +:+ "-" +:+ attr.

(** The names the DOM standard has [setAttribute] accept: not empty and
    without ASCII white space, the null character, [/], [=] and [>].
    Older versions of the standard ask for an XML name. *)
Fixpoint no_char_of (bad : ascii -> bool) (s : string) : bool :=
  match s with
  | EmptyString => true
  | String c s' => negb (bad c) && no_char_of bad s'
  end.

Definition valid_attribute_local_name (name : string) : bool :=
  negb (String.eqb name EmptyString)
  && no_char_of (fun c => JsString.is_ascii_whitespace c
                          || JsString.mem c (String "000" "/=>")) name.

Section attributes.

(** What the DOM decides: the names [setAttribute] accepts, and whether
    the element lower-cases the names it is given (an HTML element in an
    HTML document does, any other element does not). *)
Variable valid_name : string -> bool.
Variable html : bool.

(** The name under which the element stores the attribute [name]. *)
Definition attribute_key (name : string) : string :=
  if html then JsString.ascii_lowercase name else name.

Definition getAttribute (el : element) (name : string) : option string :=
  el !! attribute_key name.

(** [setAttribute] checks the name as given, then stores under the name
    the element uses. *)
Definition setAttribute (el : element) (name value : string)
    : result element :=
  if valid_name name then Ok (<[attribute_key name := value]> el)
  else Throw InvalidCharacterError.

(** The body of [for (const attr of attributes)], lines 229-261. *)
Definition bind_attr (fuel : nat) (h : heap) (window : loc) (data : val)
    (attribute : string) (el : element) (attr : string) : result element :=
  let saved := saved_name attribute attr in
  st ←
    match getAttribute el saved with
    | Some value => Ok (Some value, el)
    | None =>
        match getAttribute el attr with
        | Some value =>
            el ← setAttribute el saved value; Ok (Some value, el)
        | None => Ok (None, el)
        end
    end;
  match st with
  | (Some value, el) =>
      parsed ← parse_loop fuel h window data value 0;
      setAttribute el attr parsed.1
  | (None, el) => Ok el
  end.

(** The template [bind_attr] parses: the saved one, else the current
    value of the attribute. *)
Definition template_of (el : element) (attribute attr : string)
    : option string :=
  match getAttribute el (saved_name attribute attr) with
  | Some t => Some t
  | None => getAttribute el attr
  end.

(** An attribute on which [bind_attr] has nothing left to do: its
    template is saved and its value is what the template parses to, or it
    has neither. *)
Definition settled (h : heap) (window : loc) (data : val) (fuel : nat)
    (attribute : string) (el : element) (a : string) : Prop :=
  (getAttribute el (saved_name attribute a) = None ∧ getAttribute el a = None)
  ∨ ∃ t v n, getAttribute el (saved_name attribute a) = Some t
             ∧ parse_loop fuel h window data t 0 = Ok (v, n)
             ∧ getAttribute el a = Some v
             ∧ valid_name a = true.

(** The comma-separated target attributes named by [attribute]. *)
Definition bind_targets (el : element) (attribute : string)
    : option (list string) :=
  match getAttribute el attribute with
  | Some names => Some (JsString.trim <$> JsString.split "," names)
  | None => None
  end.

(** [bindAttrTmpl(element, attribute, data)], utils.js lines 226-262.
    Calling [split] on the [null] of a missing attribute throws.  An
    outcome [Throw e] tells that the call threw: the attributes written
    for earlier targets stay on the element, and are not reported. *)
Definition bindAttrTmpl (fuel : nat) (h : heap) (window : loc)
    (el : element) (attribute : string) (data : val) : result element :=
  match bind_targets el attribute with
  | Some attributes =>
      for_each (bind_attr fuel h window data attribute) attributes el
  | None => Throw TypeError
  end.

End attributes.

(** ** Custom element polyfill *)

(** An entry of [window._webComponentPolyfills].  The [setup] callback is
    known by whether it throws on a given element. *)
Record polyfill := {
  pf_element : string;
  pf_extendsElement : string;
  pf_setup_throws : nat -> bool
}.

(** What a call does to the page, in order. *)
Inductive dom_op : Type :=
  | DefineElement (name : string) (cls : nat)
  | InsertProbe
  | RemoveProbe
  | Setup (name : string) (target : nat)
  | ShowErrorAlert (name : string) (target : nat).

Global Instance dom_op_eq_dec : EqDecision dom_op.
Proof. solve_decision. Defined.

(** The module variable [polyfillIsNeeded] ([None] is [null]) and the
    part of the browser [polyfillCustomElements] touches: the custom
    element registry (a name maps to a class), the supply of fresh
    classes, whether the browser creates [<div is="name">] as an instance
    of the registered class, [window._webComponentPolyfills] when it is
    an array, and the operations done so far. *)
Record page := {
  polyfillIsNeeded : option bool;
  customElements : gmap string nat;
  next_class : nat;
  upgrades_builtins : bool;
  webComponentPolyfills : option (list polyfill);
  trace : list dom_op
}.

Definition probe_name : string := "web-component-polyfill-check".

(** Lines 370-384: the body of [if (polyfillIsNeeded === null)]. *)
Definition probe (p : page) : page :=
  let WebComponentCheck := next_class p in
  let '(registry, defined) :=
    match customElements p !! probe_name with
    | None =>
        (<[probe_name := WebComponentCheck]> (customElements p),
         [DefineElement probe_name WebComponentCheck])
    | Some _ => (customElements p, [])
    end in
  let div_class :=
    if upgrades_builtins p then registry !! probe_name else None in
  {| polyfillIsNeeded :=
       Some (negb (bool_decide (div_class = Some WebComponentCheck)));
     customElements := registry;
     next_class := S WebComponentCheck;
     upgrades_builtins := upgrades_builtins p;
     webComponentPolyfills := webComponentPolyfills p;
     trace := trace p ++ defined ++ [InsertProbe; RemoveProbe] |}.

(** The selector [`${extendsElement}[is="${element}"]`]. *)
Definition polyfill_selector (pf : polyfill) : string :=
  pf_extendsElement pf +:+ "[is=" +:+ String "034" (pf_element pf)
    +:+ String "034" "]".

(** [try { polyfill.setup(element) } catch (e) { showErrorAlert(e) ... }] *)
Definition run_setup (pf : polyfill) (target : nat) : list dom_op :=
  if pf_setup_throws pf target
  then [Setup (pf_element pf) target; ShowErrorAlert (pf_element pf) target]
  else [Setup (pf_element pf) target].

(** Lines 388-401; [rootElement] is known by its [querySelectorAll]. *)
Definition apply_polyfills (rootElement : string -> list nat) (p : page)
    : page :=
  match polyfillIsNeeded p, webComponentPolyfills p with
  | Some true, Some polyfills =>
      let ops :=
        polyfills ≫= (fun pf =>
          rootElement (polyfill_selector pf) ≫= run_setup pf) in
      {| polyfillIsNeeded := polyfillIsNeeded p;
         customElements := customElements p;
         next_class := next_class p;
         upgrades_builtins := upgrades_builtins p;
         webComponentPolyfills := webComponentPolyfills p;
         trace := trace p ++ ops |}
  | _, _ => p
  end.

(** [polyfillCustomElements(rootElement)], utils.js lines 365-402. *)
Definition polyfillCustomElements (rootElement : string -> list nat)
    (p : page) : page :=
  let p :=
    match polyfillIsNeeded p with
    | None => probe p
    | Some _ => p
    end in
  apply_polyfills rootElement p.

(** How many times the probe [div] has been inserted. *)
Definition probe_runs (p : page) : nat :=
  length (filter (fun op => op = InsertProbe) (trace p)).

(** A sequence of calls, one per root element. *)
Definition polyfill_calls (roots : list (string -> list nat)) (p : page)
    : page :=
  foldl (fun p root => polyfillCustomElements root p) p roots.

(** ** Readiness polling *)

(** The promise of [componentsAreSetup] and the timer it owns. *)
Record poller := {
  awaiting : bool;
  interval : option Z;
  loopCount : Z;
  resolved : bool
}.

Definition maxLoops : Z := 1000.

(** [window.clearInterval(interval); resolve();] *)
Definition clear_and_resolve (st : poller) : poller :=
  {| awaiting := awaiting st; interval := None;
     loopCount := loopCount st; resolved := true |}.

(** The interval callback, lines 485-495; [notSetup] is the length of
    [document.querySelectorAll('[not-setup]')] when it runs. *)
Definition on_interval (notSetup : nat) (st : poller) : poller :=
  let st :=
    if bool_decide (notSetup = 0%nat) then clear_and_resolve st
    else if loopCount st >? maxLoops then clear_and_resolve st
    else st in
  {| awaiting := awaiting st; interval := interval st;
     loopCount := loopCount st + 1; resolved := resolved st |}.

(** Lines 483-495, the statements after the [await]. *)
Definition start_polling (st : poller) : poller :=
  {| awaiting := false; interval := Some 10;
     loopCount := 0; resolved := resolved st |}.

(** [componentsAreSetup()], lines 467-497, up to the first suspension;
    [undefinedComponents] is the length of
    [document.querySelectorAll(':not(:defined)')]. *)
Definition componentsAreSetup (undefinedComponents : nat) : poller :=
  let st := {| awaiting := false; interval := None;
               loopCount := 0; resolved := false |} in
  if bool_decide (0 < undefinedComponents)%nat then
    {| awaiting := true; interval := None;
       loopCount := 0; resolved := false |}
  else start_polling st.

(** What the event loop hands to the promise: [Promise.all] of the
    [whenDefined] promises is fulfilled, or the 10 ms timer fires. *)
Inductive poll_event : Type :=
  | DefinitionsSettled
  | TimerFires (notSetup : nat).

Definition deliver (st : poller) (ev : poll_event) : poller :=
  match ev with
  | DefinitionsSettled => if awaiting st then start_polling st else st
  | TimerFires notSetup =>
      match interval st with
      | Some _ => on_interval notSetup st
      | None => st
      end
  end.

Definition deliver_all (st : poller) (evs : list poll_event) : poller :=
  foldl deliver st evs.

(** The timer is set, nothing is resolved yet. *)
Definition polling (st : poller) : Prop :=
  awaiting st = false ∧ interval st = Some 10 ∧ resolved st = false.

(** The promise is resolved and the timer cleared. *)
Definition finished (st : poller) : Prop :=
  awaiting st = false ∧ interval st = None ∧ resolved st = true.

(** ** Attachment to the document *)

(** The [while] loop of [isAttachedToDom]; [parentNode] maps a node to
    its parent, a node without entry has [parentNode === null]. *)
Fixpoint attached_loop (fuel : nat) (parentNode : gmap nat nat)
    (document : nat) (node : option nat) : option bool :=
  match fuel with
  | O => None
  | S fuel' =>
      match node with
      | None => Some false
      | Some n =>
          let node := parentNode !! n in
          if bool_decide (node = Some document) then Some true
          else attached_loop fuel' parentNode document node
      end
  end.

(** [isAttachedToDom(element)], utils.js lines 507-516. *)
Definition isAttachedToDom (fuel : nat) (parentNode : gmap nat nat)
    (document : nat) (element : nat) : option bool :=
  attached_loop fuel parentNode document (parentNode !! element).

(** The node reached from [x] by [k] [parentNode] links. *)
Fixpoint ancestor (parentNode : gmap nat nat) (k : nat) (x : nat)
    : option nat :=
  match k with
  | O => Some x
  | S k' => parentNode !! x ≫= ancestor parentNode k'
  end.

(** ** The animation service *)

(** An element: its attributes other than [class], and the tokens of its
    class list. *)
Record dom_node := {
  attrs : gmap string string;
  classList : list string
}.

(** [classList.add(token)]: the empty token is a [SyntaxError], a token
    with ASCII white space an [InvalidCharacterError]; a class list holds
    a token once. *)
Definition classList_add (token : string) (cl : list string)
    : result (list string) :=
  if String.eqb token EmptyString then Throw SyntaxError
  else if JsString.has_ascii_whitespace token then Throw InvalidCharacterError
  else Ok (if bool_decide (token ∈ cl) then cl else cl ++ [token]).

(** [el.getAttribute('data-animate')] used as a class name: the [null]
    of a missing attribute becomes the token [null]. *)
Definition animate_class (n : dom_node) : string :=
  match attrs n !! "data-animate" with
  | Some name => name
  | None => "null"
  end.

Record entry := {
  isIntersecting : bool;
  target : nat
}.

Global Instance entry_eq_dec : EqDecision entry.
Proof. solve_decision. Defined.

(** The elements and the observation targets of [animationObserver]. *)
Record observing := {
  nodes : gmap nat dom_node;
  targets : gset nat
}.

(** The element [x]; one the map does not list has no attribute and no
    class. *)
Definition node_of (st : observing) (x : nat) : dom_node :=
  default {| attrs := ∅; classList := [] |} (nodes st !! x).

(** The element [x] carries the class [c] and has the attributes [a]. *)
Definition has_class (st : observing) (x : nat) (a : gmap string string)
    (c : string) : Prop :=
  ∃ n, nodes st !! x = Some n ∧ attrs n = a ∧ c ∈ classList n.

(** The body of [for (const entry of entries)], lines 67-71. *)
Definition on_entry (st : observing) (e : entry) : result observing :=
  if isIntersecting e then
    let n := node_of st (target e) in
    let className := animate_class n in
    cl ← classList_add className (classList n);
    Ok {| nodes := <[target e := {| attrs := attrs n; classList := cl |}]>
                     (nodes st);
          targets := targets st ∖ {[target e]} |}
  else Ok st.

(** The observer callback, lines 65-73: the state it leaves and how it
    ended.  An exception ends the loop; what the earlier rounds did
    stays. *)
Fixpoint observer_callback (entries : list entry) (st : observing)
    : observing * result unit :=
  match entries with
  | [] => (st, Ok tt)
  | e :: entries' =>
      match on_entry st e with
      | Ok st' => observer_callback entries' st'
      | Throw err => (st, Throw err)
      | OutOfFuel => (st, OutOfFuel)
      end
  end.

(** [onLoad], lines 56-78: the elements with [data-animate] that do not
    carry their class yet are observed by a new observer. *)
Definition needs_animation (n : dom_node) : bool :=
  bool_decide (is_Some (attrs n !! "data-animate"))
  && negb (bool_decide (animate_class n ∈ classList n)).

Definition onLoad (page_nodes : gmap nat dom_node) : option observing :=
  let elements :=
    dom (filter (fun kv => needs_animation kv.2 = true) page_nodes) in
  if bool_decide (elements = ∅) then None
  else Some {| nodes := page_nodes; targets := elements |}.

(** The browser hands the callback entries of elements that are
    observation targets when the batch is delivered; an element may come
    several times in a batch. *)
Definition deliver_batch (st : observing) (entries : list entry)
    : option observing :=
  if bool_decide (Forall (fun e => target e ∈ targets st) entries)
  then Some (observer_callback entries st).1
  else None.

Fixpoint deliveries (st : observing) (batches : list (list entry))
    : option observing :=
  match batches with
  | [] => Some st
  | b :: batches' => deliver_batch st b ≫= fun st' => deliveries st' batches'
  end.

(** A token [classList.add] accepts. *)
Definition valid_token (token : string) : bool :=
  negb (String.eqb token EmptyString)
  && negb (JsString.has_ascii_whitespace token).

(** The element once [classList.add] has put in the class its
    [data-animate] names. *)
Definition add_animate_class (n : dom_node) : dom_node :=
  {| attrs := attrs n;
     classList := if bool_decide (animate_class n ∈ classList n)
                  then classList n
                  else classList n ++ [animate_class n] |}.

(** A batch holds an intersecting entry for [x]. *)
Definition intersects (x : nat) (entries : list entry) : Prop :=
  Exists (fun e => isIntersecting e = true ∧ target e = x) entries.

Global Instance intersects_dec x entries : Decision (intersects x entries).
Proof. unfold intersects. apply _. Defined.

(** ** What escaped text looks like *)

(** The five characters [escapeHtml] replaces. *)
Definition is_special (c : ascii) : bool :=
  match c with
  | "&"%char | "034"%char | "'"%char | "<"%char | ">"%char => true
  | _ => false
  end.

Fixpoint has_special (s : string) : bool :=
  match s with
  | EmptyString => false
  | String c s' => is_special c || has_special s'
  end.

Fixpoint starts_with (p s : string) : bool :=
  match p, s with
  | EmptyString, _ => true
  | String a p', String b s' => Ascii.eqb a b && starts_with p' s'
  | String _ _, EmptyString => false
  end.

(** Every [&] is followed by the rest of one of the five entities. *)
Fixpoint ampersands_start_entities (s : string) : bool :=
  match s with
  | EmptyString => true
  | String c s' =>
      (if Ascii.eqb c "&" then
         starts_with "amp;" s' || starts_with "quot;" s'
         || starts_with "#039;" s' || starts_with "lt;" s'
         || starts_with "gt;" s'
       else true)
      && ampersands_start_entities s'
  end.

(** The character an entity stands for, with the number of characters
    that follow its [&]. *)
Definition entity_at (s : string) : option (ascii * nat) :=
  if starts_with "amp;" s then Some ("&"%char, 4%nat)
  else if starts_with "quot;" s then Some ("034"%char, 5%nat)
  else if starts_with "#039;" s then Some ("'"%char, 5%nat)
  else if starts_with "lt;" s then Some ("<"%char, 3%nat)
  else if starts_with "gt;" s then Some (">"%char, 3%nat)
  else None.

(** Reading escaped text back: entities become their characters; [skip]
    characters of an entity are still to be passed over. *)
Fixpoint unescape_from (skip : nat) (s : string) : string :=
  match s with
  | EmptyString => EmptyString
  | String c s' =>
      match skip with
      | S k => unescape_from k s'
      | O =>
          if Ascii.eqb c "&" then
            match entity_at s' with
            | Some (ch, len) => String ch (unescape_from len s')
            | None => String c (unescape_from 0 s')
            end
          else String c (unescape_from 0 s')
      end
  end.

(** The four characters of markup among the five. *)
Definition is_markup (c : ascii) : bool :=
  match c with
  | "034"%char | "'"%char | "<"%char | ">"%char => true
  | _ => false
  end.

(** ** Registering polyfills *)

(** The [polyfill.setup(element)] calls among the operations, in order. *)
Definition setup_calls (ops : list dom_op) : list (string * nat) :=
  ops ≫= (fun op =>
    match op with
    | Setup name target => [(name, target)]
    | _ => []
    end).

(** The [showErrorAlert] calls made for a setup that threw. *)
Definition setup_alerts (ops : list dom_op) : list (string * nat) :=
  ops ≫= (fun op =>
    match op with
    | ShowErrorAlert name target => [(name, target)]
    | _ => []
    end).

(** Every class in the registry was created before the next fresh one. *)
Definition registry_fresh (p : page) : Prop :=
  ∀ name cls, customElements p !! name = Some cls → (cls < next_class p)%nat.

(** The value of [window._webComponentPolyfills]: a falsy value, an
    array, or a truthy value without [push]. *)
Inductive polyfills_slot : Type :=
  | SlotFalsy
  | SlotArray (polyfills : list polyfill)
  | SlotOther.

(** The window as [defineExtendsPolyfill] sees it: the slot and the
    [DOMContentLoaded] listeners of the document, by function name. *)
Record loading := {
  ld_slot : polyfills_slot;
  ld_listeners : list string
}.

(** [addEventListener]: a listener that is already there is not added. *)
Definition addEventListener (listener : string) (listeners : list string)
    : list string :=
  if bool_decide (listener ∈ listeners) then listeners
  else listeners ++ [listener].

(** [defineExtendsPolyfill(element, extendsElement, setup)], utils.js
    lines 412-416. *)
Definition defineExtendsPolyfill (pf : polyfill) (w : loading)
    : result loading :=
  let slot :=
    match ld_slot w with
    | SlotFalsy => SlotArray []
    | slot => slot
    end in
  match slot with
  | SlotArray polyfills =>
      Ok {| ld_slot := SlotArray (polyfills ++ [pf]);
            ld_listeners := addEventListener "runPolyfill" (ld_listeners w) |}
  | _ => Throw TypeError
  end.

(** [Array.isArray(window._webComponentPolyfills)] and the array. *)
Definition slot_array (slot : polyfills_slot) : option (list polyfill) :=
  match slot with
  | SlotArray polyfills => Some polyfills
  | _ => None
  end.

(** The page with [window._webComponentPolyfills] as the window has it. *)
Definition page_of_window (w : loading) (p : page) : page :=
  {| polyfillIsNeeded := polyfillIsNeeded p;
     customElements := customElements p;
     next_class := next_class p;
     upgrades_builtins := upgrades_builtins p;
     webComponentPolyfills := slot_array (ld_slot w);
     trace := trace p |}.

(** [runPolyfill], lines 426-428, for the root element [document]. *)
Definition runPolyfill (document : string -> list nat) (p : page) : page :=
  polyfillCustomElements document p.

(** The [DOMContentLoaded] event: each listener runs once, in order; a
    listener other than [runPolyfill] is not of this module. *)
Definition fire_DOMContentLoaded (w : loading)
    (document : string -> list nat) (p : page) : page :=
  foldl (fun p listener =>
           if bool_decide (listener = "runPolyfill")
           then runPolyfill document p else p)
        (page_of_window w p) (ld_listeners w).

(** ** Showing errors *)

Module JsText.

(** [String.prototype.toLowerCase] on code units below 256. *)
Definition lower_char (c : ascii) : ascii :=
  let n := nat_of_ascii c in
  if ((65 <=? n) && (n <=? 90))%nat
     || ((192 <=? n) && (n <=? 222) && negb (n =? 215))%nat
  then ascii_of_nat (n + 32) else c.

Fixpoint toLowerCase (s : string) : string :=
  match s with
  | EmptyString => EmptyString
  | String c s' => String (lower_char c) (toLowerCase s')
  end.

(** The position of the first occurrence of [needle]. *)
Fixpoint find_string (needle s : string) : option nat :=
  if starts_with needle s then Some O
  else match s with
       | EmptyString => None
       | String _ s' => S <$> find_string needle s'
       end.

(** [String.prototype.indexOf] with a string needle. *)
Definition indexOf_string (s needle : string) : Z :=
  match find_string needle s with
  | Some n => Z.of_nat n
  | None => -1
  end.

End JsText.

Definition errorStyleId : string := "dataformsjs-style-errors".

(** The style sheet of lines 25-72. *)
Definition errorCss : string := "
    .dataformsjs-error,
    .dataformsjs-fatal-error {
        color:#fff;
        background-color:red;
        box-shadow:0 1px 5px 0 rgba(0,0,0,.5);
        background-image:linear-gradient(#e00,#c00);
        // Next line is included but commented out because it should not show on mobile
        // however on desktop with DevTools the commented out version makes it easy for a
        // developer to toggle on errors that use line breaks and white space formatting.
        /* white-space:pre; */
        text-align: left;
    }

    .dataformsjs-error{
        padding:10px;
        font-size:1em;
        margin:5px;
        display:inline-block;
    }

    .dataformsjs-fatal-error {
        z-index:1000000;
        padding:20px;
        font-size:1.5em;
        margin:20px;
        position:fixed;
        top:10px;
    }

    @media only screen and (min-width:1000px){
        .dataformsjs-fatal-error {
            max-width:1000px;
            left:calc(50% - 520px);
        }
    }

    .dataformsjs-fatal-error span {
        padding:5px 10px;
        float:right;
        border:1px solid darkred;
        cursor:pointer;
        margin-left:10px;
        box-shadow:0 0 2px 1px rgba(0,0,0,0.3);
        background-image:linear-gradient(#c00,#a00);
        border-radius:5px;
    }
".

(** A node made by [showErrorAlert]: its class, the text given to
    [textContent], and whether a close button was put in front of the
    text. *)
Record error_node := {
  en_tag : string;
  en_className : string;
  en_text : string;
  en_closeButton : bool
}.

(** The document these functions change: the IDs of its elements (an
    element whose [id] is empty has no ID), the style elements appended to
    [head] ([id] and text), the children of [body] ([None] while the
    document has no body) and what went to [console.error]. *)
Record error_page := {
  ep_ids : gset string;
  ep_head : list (string * string);
  ep_body : option (list error_node);
  ep_console : list val
}.

(** [document.getElementById(id) === null]: no element has the empty
    ID. *)
Definition no_element_with_id (id : string) (d : error_page) : bool :=
  String.eqb id EmptyString || negb (bool_decide (id ∈ ep_ids d)).

(** [loadCss(id, css)], utils.js lines 325-333. *)
Definition loadCss (id css : string) (d : error_page) : error_page :=
  if no_element_with_id id d then
    {| ep_ids := if String.eqb id EmptyString then ep_ids d
                 else {[ id ]} ∪ ep_ids d;
       ep_head := ep_head d ++ [(id, css)];
       ep_body := ep_body d;
       ep_console := ep_console d |}
  else d.

(** Assigning a value to [textContent]: [null] and [undefined] give the
    empty text, any other value is converted with [ToString]. *)
Definition as_textContent (h : heap) (v : val) : result string :=
  match v with
  | VUndefined | VNull => Ok EmptyString
  | _ => ToString h v
  end.

(** [if (typeof message !== 'string') console.error(message)] *)
Definition log_unless_string (message : val) (d : error_page) : error_page :=
  match message with
  | VStr _ => d
  | _ => {| ep_ids := ep_ids d; ep_head := ep_head d; ep_body := ep_body d;
            ep_console := ep_console d ++ [message] |}
  end.

(** Lines 300-303: the text of the alert. *)
Definition alert_text (message : val) : val :=
  match message with
  | VStr errorText =>
      if JsText.indexOf_string (JsText.toLowerCase errorText) "error" =? -1
      then VStr ("Error: " +:+ errorText)
      else message
  | _ => message
  end.

(** [showErrorAlert(message)], utils.js lines 298-317: the page it
    leaves and how it ended.  Assigning [textContent] throws on a value
    that has no text, [document.body.appendChild] when there is no
    body. *)
Definition showErrorAlert (h : heap) (message : val) (d : error_page)
    : error_page * result unit :=
  let d := loadCss errorStyleId errorCss d in
  match as_textContent h (alert_text message) with
  | Ok text =>
      let div := {| en_tag := "div"; en_className := "dataformsjs-fatal-error";
                    en_text := text; en_closeButton := true |} in
      match ep_body d with
      | Some children =>
          let d := {| ep_ids := ep_ids d; ep_head := ep_head d;
                      ep_body := Some (children ++ [div]);
                      ep_console := ep_console d |} in
          (log_unless_string message d, Ok tt)
      | None => (d, Throw TypeError)
      end
  | Throw e => (d, Throw e)
  | OutOfFuel => (d, OutOfFuel)
  end.

(** Whether the text holds [needle] in some casing. *)
Definition mentions (needle text : string) : Prop :=
  ∃ pre mid post,
    text = pre +:+ mid +:+ post ∧ JsText.toLowerCase mid = needle.

(** ** Whether the polyfill script is in use *)

(** Reading a property that is neither [length] nor an index from a value
    that is neither [null] nor [undefined]: a primitive has none. *)
Definition get_named (h : heap) (v : val) (k : string) : val :=
  match v with
  | VObj l => get_prop h l k
  | _ => VUndefined
  end.

(** [a && b]: [b] is evaluated when [a] is truthy. *)
Definition and_then (a : val) (b : val -> val) : val :=
  if truthy a then b a else a.

(** [usingWebComponentsPolyfill()], utils.js lines 349-351. *)
Definition usingWebComponentsPolyfill (h : heap) (window : loc) : val :=
  and_then (get_prop h window "app") (fun app =>
    and_then (get_named h app "settings") (fun settings =>
      VBool (bool_decide
               (get_named h settings "usingWebComponentsPolyfill"
                = VBool true)))).

(** ** Building a URL *)

Module JsUrl.

(** The class [\w] of a regular expression. *)
Definition is_word_char (c : ascii) : bool :=
  let n := nat_of_ascii c in
  (((48 <=? n) && (n <=? 57)) || ((65 <=? n) && (n <=? 90))
   || ((97 <=? n) && (n <=? 122)) || (n =? 95))%nat.

Fixpoint all_chars (P : ascii -> bool) (s : string) : bool :=
  match s with
  | EmptyString => true
  | String c s' => P c && all_chars P s'
  end.

(** The characters [encodeURIComponent] leaves as they are. *)
Definition is_unreserved (c : ascii) : bool :=
  let n := nat_of_ascii c in
  (((48 <=? n) && (n <=? 57)) || ((65 <=? n) && (n <=? 90))
   || ((97 <=? n) && (n <=? 122)))%nat
  || JsString.mem c "-_.!~*'()".

Definition hex_digit (n : nat) : ascii :=
  if (n <? 10)%nat then ascii_of_nat (48 + n) else ascii_of_nat (55 + n).

Definition percent_byte (n : nat) : string :=
  String "%" (String (hex_digit (n / 16)) (String (hex_digit (n mod 16))
    EmptyString)).

(** A code unit below 128 is one byte of UTF-8, one from 128 to 255 is
    two. *)
Definition encode_char (c : ascii) : string :=
  let n := nat_of_ascii c in
  if is_unreserved c then String c EmptyString
  else if (n <? 128)%nat then percent_byte n
  else percent_byte (192 + n / 64) +:+ percent_byte (128 + n mod 64).

(** [encodeURIComponent] on code units below 256. *)
Fixpoint encodeURIComponent (s : string) : string :=
  match s with
  | EmptyString => EmptyString
  | String c s' => encode_char c +:+ encodeURIComponent s'
  end.

(** Replacing every occurrence of the text [pat], left to right, by
    [rep]; [skip] characters of an occurrence are still to be passed. *)
Fixpoint replace_text_from (skip : nat) (pat rep s : string) : string :=
  match s with
  | EmptyString => EmptyString
  | String c s' =>
      match skip with
      | S k => replace_text_from k pat rep s'
      | O =>
          if starts_with pat s
          then rep +:+ replace_text_from (String.length pat - 1) pat rep s'
          else String c (replace_text_from 0 pat rep s')
      end
  end.

End JsUrl.

(** The function given to the first [replace] of [buildUrl], lines
    134-139: the global of that name when it is a string, else the
    match. *)
Definition window_string (h : heap) (window : loc) (name : string) : string :=
  match get_prop h window name with
  | VStr v => v
  | _ => "{" +:+ name +:+ "}"
  end.

(** [newUrl.replace(/\{(\w+)\}/g, ...)]: [pending] holds the word
    characters read since an opening brace. *)
Fixpoint replace_braces (h : heap) (window : loc) (pending : option string)
    (s : string) : string :=
  match s with
  | EmptyString =>
      match pending with
      | None => EmptyString
      | Some name => "{" +:+ name
      end
  | String c s' =>
      match pending with
      | None =>
          if Ascii.eqb c "{" then replace_braces h window (Some EmptyString) s'
          else String c (replace_braces h window None s')
      | Some name =>
          if JsUrl.is_word_char c then
            replace_braces h window (Some (name +:+ String c EmptyString)) s'
          else if Ascii.eqb c "}" && negb (String.eqb name EmptyString) then
            window_string h window name +:+ replace_braces h window None s'
          else
            "{" +:+ name +:+
              (if Ascii.eqb c "{"
               then replace_braces h window (Some EmptyString) s'
               else String c (replace_braces h window None s'))
      end
  end.

(** The names [for (const prop in o)] visits: the enumerable own
    properties of each object of the prototype chain, a name that an
    object nearer to [o] has as own property being left out. *)
Fixpoint for_in_from (fuel : nat) (h : heap) (l : loc) (visited : list string)
    : list string :=
  match fuel with
  | O => []
  | S fuel' =>
      match h !! l with
      | Some o =>
          let names :=
            (own o) ≫= (fun kp =>
              if p_enumerable kp.2 && negb (bool_decide (kp.1 ∈ visited))
              then [kp.1] else []) in
          names ++
          match proto o with
          | Some l' => for_in_from fuel' h l' (visited ++ (own o).*1)
          | None => []
          end
      | None => []
      end
  end.

Definition for_in (h : heap) (l : loc) : list string :=
  for_in_from (S (size h)) h l [].

(** The test [params.hasOwnProperty(prop)], line 144: the property
    [hasOwnProperty] is read from [params] and called. *)
Definition hasOwnProperty_test (h : heap) (params : loc) (prop : string)
    : result bool :=
  match get_prop h params "hasOwnProperty" with
  | VObj f =>
      match h !! f ≫= callable with
      | Some HasOwnProperty =>
          Ok (bool_decide (is_Some (h !! params ≫= fun o =>
                                      own_property prop (own o))))
      | Some (Function_ call) =>
          match call (VStr prop) with
          | Returns v => Ok (truthy v)
          | Throws e => Throw e
          end
      | None => Throw TypeError
      end
  | _ => Throw TypeError
  end.

Section build_url.

(** [new RegExp(source, 'g')]: nothing when the source is no regular
    expression, else what [subject.replace(regexp, replacement)] gives
    for a replacement and a subject. *)
Variable regexp_replace : string -> option (string -> string -> string).

(** The body of [for (const prop in params)], lines 144-148. *)
Definition replace_param (h : heap) (params : loc) (newUrl : string)
    (prop : string) : result string :=
  own ← hasOwnProperty_test h params prop;
  if own : bool then
    if JsText.indexOf_string newUrl (":" +:+ prop) >? -1 then
      match regexp_replace (":" +:+ prop) with
      | Some replace =>
          text ← ToString h (get_prop h params prop);
          Ok (replace (JsUrl.encodeURIComponent text) newUrl)
      | None => Throw SyntaxError
      end
    else Ok newUrl
  else Ok newUrl.

(** [buildUrl(url, params)], utils.js lines 130-152. *)
Definition buildUrl (h : heap) (window : loc) (url params : val)
    : result string :=
  newUrl ← String_ h url;
  let newUrl := replace_braces h window None newUrl in
  if is_object h params then
    match params with
    | VObj l => for_each (replace_param h l) (for_in h l) newUrl
    | _ => Ok newUrl
    end
  else Ok newUrl.

(** On a source made of [:] and word characters the engine replaces the
    text, a replacement without [$] being taken as it is. *)
Definition replaces_text : Prop :=
  ∀ prop rep s,
    JsUrl.all_chars JsUrl.is_word_char prop = true →
    JsString.mem "$" rep = false →
    ∃ replace,
      regexp_replace (":" +:+ prop) = Some replace
      ∧ replace rep s = JsUrl.replace_text_from 0 (":" +:+ prop) rep s.

End build_url.

(** * Properties *)

(** ** Facts about strings *)

Section string_facts.
Import JsString.

Lemma str_app_nil_r (s : string) : s +:+ EmptyString = s.
Proof. induction s as [|a s IH]; simpl; [done | by rewrite IH]. Qed.

Lemma str_app_assoc (s t u : string) : (s +:+ t) +:+ u = s +:+ t +:+ u.
Proof. induction s as [|a s IH]; simpl; [done | by rewrite IH]. Qed.

Lemma str_length_app (s t : string) :
  String.length (s +:+ t) = (String.length s + String.length t)%nat.
Proof. induction s as [|a s IH]; simpl; [done | by rewrite IH]. Qed.

Lemma replaceAll_app c rep (s t : string) :
  replaceAll c rep (s +:+ t) = replaceAll c rep s +:+ replaceAll c rep t.
Proof.
  induction s as [|a s IH]; simpl; [done |].
  by rewrite IH, str_app_assoc.
Qed.

Lemma str_take_app_length (s t : string) : take (String.length s) (s +:+ t) = s.
Proof. induction s as [|a s IH]; simpl; [by destruct t | by rewrite IH]. Qed.

Lemma str_drop_app_length (s t : string) : drop (String.length s) (s +:+ t) = t.
Proof. induction s as [|a s IH]; simpl; [by destruct t | done]. Qed.

Lemma str_take_0 (s : string) : take 0 s = EmptyString.
Proof. by destruct s. Qed.

Lemma str_drop_0 (s : string) : drop 0 s = s.
Proof. by destruct s. Qed.

Lemma find_char_None c (s : string) : find_char c s = None ↔ mem c s = false.
Proof.
  induction s as [|a s IH]; simpl; [done |].
  destruct (Ascii.eqb a c); simpl; [done |].
  destruct (find_char c s); split; intros H; try done.
  - by apply IH in H.
  - by apply IH.
Qed.

(** [find_char] skips a prefix without [c] and stops at the first [c]. *)
Lemma find_char_app_first c (pre post : string) :
  mem c pre = false →
  find_char c (pre +:+ String c post) = Some (String.length pre).
Proof.
  induction pre as [|a pre IH]; simpl.
  - by rewrite Ascii.eqb_refl.
  - intros [Ha Hpre]%orb_false_elim. by rewrite Ha, IH.
Qed.

Lemma find_char_app_skip c (pre post : string) :
  mem c pre = false →
  find_char c (pre +:+ post) =
    (fun n => (String.length pre + n)%nat) <$> find_char c post.
Proof.
  induction pre as [|a pre IH]; simpl.
  - intros _. by destruct (find_char c post).
  - intros [Ha Hpre]%orb_false_elim. rewrite Ha, IH by done.
    by destruct (find_char c post).
Qed.

(** The position [find_char] returns splits the string at the first
    occurrence. *)
Lemma find_char_Some c (s : string) n :
  find_char c s = Some n →
  ∃ pre post, s = pre +:+ String c post ∧ String.length pre = n
              ∧ mem c pre = false.
Proof.
  revert n. induction s as [|a s IH]; simpl; intros n; [done |].
  destruct (Ascii.eqb a c) eqn:Hac.
  - intros [= <-]. apply Ascii.eqb_eq in Hac as ->.
    by exists EmptyString, s.
  - destruct (find_char c s) as [m|] eqn:Hm; [|done].
    intros [= <-]. destruct (IH m eq_refl) as (pre & post & -> & <- & Hpre).
    exists (String a pre), post. simpl. by rewrite Hac, Hpre.
Qed.

Lemma clamp_length (s t : string) :
  clamp (s +:+ t) (Z.of_nat (String.length s)) = String.length s.
Proof. unfold clamp. rewrite str_length_app. lia. Qed.

Lemma clamp_0 (s : string) : clamp s 0 = 0%nat.
Proof. unfold clamp. lia. Qed.

End string_facts.

(** ** HTML escaping *)

Section escaping.
Import JsString.

Lemma escape_pipeline_app (s t : string) :
  escape_pipeline (s +:+ t) = escape_pipeline s +:+ escape_pipeline t.
Proof. unfold escape_pipeline. by rewrite !replaceAll_app. Qed.

Lemma escape_pipeline_char (c : ascii) :
  escape_pipeline (String c EmptyString) = escape_entity c.
Proof. by destruct c as [[] [] [] [] [] [] [] []]. Qed.

Lemma escape_pipeline_chars (s : string) : escape_pipeline s = escape_chars s.
Proof.
  induction s as [|c s IH]; [done |].
  change (String c s) with (String c EmptyString +:+ s).
  rewrite escape_pipeline_app, escape_pipeline_char, IH. done.
Qed.

(** C6.  On a string, [escapeHtml] is the character-wise mapping of [&],
    the double quote, the single quote, [<] and [>] to their entities,
    every other character unchanged: the five global replacements, [&]
    first, never touch the [&] of an entity a later replacement puts in. *)
Theorem escapeHtml_characterwise (h : heap) (s : string) :
  escapeHtml h (VStr s) = Ok (VStr (escape_chars s)).
Proof.
  unfold escapeHtml. simpl.
  do 2 f_equal. apply escape_pipeline_chars.
Qed.

(** Replacing [&] last instead would escape the entities again. *)
Lemma ampersand_last_escapes_twice :
  replaceAll "&" "&amp;" (replaceAll "<" "&lt;" "<") = "&amp;lt;"
  ∧ escapeHtml ∅ (VStr "<") = Ok (VStr "&lt;").
Proof. done. Qed.

End escaping.

(** ** Templating *)

Section templating.
Variable h : heap.

Lemma join_empty_app (xs ys : list val) :
  join_empty h (xs ++ ys)
  = (a ← join_empty h xs; b ← join_empty h ys; Ok (a +:+ b)).
Proof.
  induction xs as [|x xs IH]; simpl.
  - by destruct (join_empty h ys).
  - destruct (join_item h x) as [s| |]; simpl; [|done..].
    rewrite IH. destruct (join_empty h xs) as [a| |]; simpl; [|done..].
    destruct (join_empty h ys) as [b| |]; simpl; [|done..].
    by rewrite str_app_assoc.
Qed.

Lemma join_empty_singleton (v : val) :
  join_empty h [v] = join_item h v.
Proof.
  simpl. destruct (join_item h v); simpl; [|done..].
  by rewrite str_app_nil_r.
Qed.

Lemma join_item_literal (strings : list string) (n : nat) :
  join_item h (array_get (VStr <$> strings) n)
  = Ok (default EmptyString (head (drop n strings))).
Proof.
  unfold array_get. rewrite list_lookup_fmap, head_lookup, lookup_drop.
  rewrite Nat.add_0_r. by destruct (strings !! n).
Qed.

Lemma tail_drop {A} (l : list A) (n : nat) : tail (drop n l) = drop (S n) l.
Proof.
  revert l. induction n as [|n IH]; intros [|x l]; simpl; done.
Qed.

(** What [escapeHtml] returns, once joined, is the text the value is to
    contribute. *)
Lemma escapeHtml_text (v : val) :
  (escaped ← escapeHtml h v; join_item h escaped) = escaped_text h v.
Proof.
  destruct v as [| |b|x|n|s|d|l]; simpl; try done.
  - destruct b; simpl; by rewrite escape_pipeline_chars.
  - by rewrite escape_pipeline_chars.
  - by rewrite escape_pipeline_chars.
  - by rewrite escape_pipeline_chars.
  - destruct (ToString h (VObj l)); simpl; [|done..].
    by rewrite escape_pipeline_chars.
Qed.

Lemma escapeHtml_joins (v escaped : val) :
  escapeHtml h v = Ok escaped → ∃ s, join_item h escaped = Ok s.
Proof.
  unfold escapeHtml. intros H.
  destruct v as [| |b|x|n|s|d|l]; simpl in H;
    try (injection H as <-; by eexists);
    destruct (ToString _ _); simpl in H; try done;
    injection H as <-; by eexists.
Qed.

Lemma render_loop_interleave (strings : list string) (values : list val) :
  ∀ (vs : list val) (n : nat) (html : list val) (pre : string),
    drop n values = vs →
    join_empty h html = Ok pre →
    (html' ← render_loop h (VStr <$> strings) values n (length vs)
               (html ++ [array_get (VStr <$> strings) n]);
     join_empty h html')
    = (rest ← interleave h (drop n strings) vs; Ok (pre +:+ rest)).
Proof.
  induction vs as [|v vs IH]; intros n html pre Hdrop Hpre; simpl.
  - by rewrite join_empty_app, Hpre, join_empty_singleton, join_item_literal.
  - assert (values !! n = Some v) as Hn.
    { rewrite <- (Nat.add_0_r n), <- lookup_drop, Hdrop. done. }
    assert (drop (S n) values = vs) as Hrest.
    { rewrite <- tail_drop, Hdrop. done. }
    replace (array_get values n) with v
      by (unfold array_get; by rewrite Hn).
    pose proof (escapeHtml_text v) as Htext.
    destruct (escapeHtml h v) as [escaped| |] eqn:Hesc; simpl in *.
    + destruct (escapeHtml_joins v escaped Hesc) as [s Hs].
      rewrite Hs in Htext. rewrite <- Htext. simpl.
      rewrite (IH (S n) _ (pre +:+ default EmptyString (head (drop n strings))
                             +:+ s) Hrest).
      * rewrite tail_drop.
        destruct (interleave h (drop (S n) strings) vs); simpl; [|done..].
        by rewrite !str_app_assoc.
      * rewrite !join_empty_app, Hpre, !join_empty_singleton,
          join_item_literal, Hs.
        simpl. by rewrite !str_app_assoc.
    + by rewrite <- Htext.
    + by rewrite <- Htext.
Qed.

Lemma render_interleave (strings : list string) (values : list val) :
  render h strings values = interleave h strings values.
Proof.
  unfold render.
  pose proof (render_loop_interleave strings values values 0 [] EmptyString
                eq_refl eq_refl) as H.
  simpl in H. rewrite H, drop_0.
  by destruct (interleave h strings values).
Qed.

End templating.

Section purity.





End purity.


(** ** Finding and cutting the bracketed segment *)

Section segments.
Import JsString.

Lemma mem_app c (s t : string) : mem c (s +:+ t) = mem c s || mem c t.
Proof.
  induction s as [|a s IH]; simpl; [done |].
  by rewrite IH, orb_assoc.
Qed.

Lemma indexOf_missing (s : string) c : indexOf s c = -1 ↔ mem c s = false.
Proof.
  unfold indexOf. rewrite <- find_char_None.
  destruct (find_char c s); split; intros H; try done. lia.
Qed.

Lemma indexOf_first c (pre post : string) :
  mem c pre = false →
  indexOf (pre +:+ String c post) c = Z.of_nat (String.length pre).
Proof. intros H. unfold indexOf. by rewrite find_char_app_first. Qed.

Lemma substring_prefix (a b : string) i :
  i = Z.of_nat (String.length a) → substring (a +:+ b) 0 i = a.
Proof.
  intros ->. unfold substring. rewrite clamp_0, clamp_length.
  rewrite Nat.min_0_l, Nat.max_0_l, Nat.sub_0_r, str_drop_0.
  apply str_take_app_length.
Qed.

Lemma substring_from_suffix (a b : string) i :
  i = Z.of_nat (String.length a) → substring_from (a +:+ b) i = b.
Proof.
  intros ->. unfold substring_from. rewrite clamp_length.
  apply str_drop_app_length.
Qed.

Lemma substring_middle (a b c : string) i j :
  i = Z.of_nat (String.length a) →
  j = Z.of_nat (String.length a + String.length b) →
  substring (a +:+ b +:+ c) i j = b.
Proof.
  intros -> ->. unfold substring. rewrite clamp_length.
  rewrite <- str_length_app, <- str_app_assoc, clamp_length, str_app_assoc.
  rewrite str_length_app, Nat.min_l, Nat.max_r by lia.
  replace (String.length a + String.length b - String.length a)%nat
    with (String.length b) by lia.
  rewrite str_drop_app_length. apply str_take_app_length.
Qed.

Lemma segment_posStart pre key post :
  first_segment pre key →
  indexOf (segment pre key post) "[" = Z.of_nat (String.length pre).
Proof. intros (H & _ & _). by apply indexOf_first. Qed.

Lemma segment_posEnd pre key post :
  first_segment pre key →
  indexOf (segment pre key post) "]"
  = Z.of_nat (String.length pre) + 1 + Z.of_nat (String.length key).
Proof.
  intros (_ & Hpre & Hkey). unfold segment.
  change (pre +:+ String "[" (key +:+ String "]" post))
    with (pre +:+ String "[" key +:+ String "]" post).
  rewrite <- str_app_assoc, indexOf_first.
  - rewrite str_length_app. simpl. lia.
  - rewrite mem_app. simpl. by rewrite Hpre, Hkey.
Qed.

Lemma segment_has_pair pre key post :
  first_segment pre key → no_bracket_pair (segment pre key post) = false.
Proof.
  intros H. unfold no_bracket_pair.
  rewrite segment_posStart, segment_posEnd by done.
  rewrite !orb_false_iff, !Z.eqb_neq, Z.ltb_ge. lia.
Qed.

(** Conversely, a string that passes the [break] test is such a
    template, cut at the two positions [indexOf] returns. *)
Lemma has_pair_segment (value : string) :
  no_bracket_pair value = false →
  ∃ pre key post, value = segment pre key post ∧ first_segment pre key.
Proof.
  unfold no_bracket_pair. intros H.
  apply orb_false_elim in H as [H Hlt].
  apply orb_false_elim in H as [Hs He].
  unfold indexOf in *.
  destruct (find_char "[" value) as [s|] eqn:Es; [|done].
  destruct (find_char "]" value) as [e|] eqn:Ee; [|done].
  apply Z.ltb_ge in Hlt.
  apply find_char_Some in Es as (pre & rest & -> & <- & Hpre).
  assert (mem "]" pre = false) as Hpre'.
  { destruct (mem "]" pre) eqn:Hm; [|done]. exfalso.
    assert (∃ n, find_char "]" pre = Some n) as [n Hn].
    { destruct (find_char "]" pre) eqn:Hf; [by eexists|].
      apply find_char_None in Hf. congruence. }
    apply find_char_Some in Hn as (p1 & p2 & -> & <- & Hp1).
    rewrite str_app_assoc in Ee. simpl in Ee.
    rewrite find_char_app_first in Ee by done.
    injection Ee as <-. rewrite str_length_app in Hlt. simpl in Hlt. lia. }
  rewrite find_char_app_skip in Ee by done. simpl in Ee.
  destruct (find_char "]" rest) as [k|] eqn:Ek; [|done].
  apply find_char_Some in Ek as (key & post & -> & <- & Hkey).
  by exists pre, key, post.
Qed.

End segments.

(** ** Looking a key up *)

Section lookup.
Import JsString.
Variables (h : heap) (window : loc).

Lemma is_object_spec (v : val) :
  is_object h v = true ↔ ∃ l, v = VObj l ∧ h !! l ≫= callable = None.
Proof.
  unfold is_object. destruct v as [| |b|x|n|s|d|l]; simpl;
    try (split; [done | by intros (? & ? & ?)]).
  destruct (h !! l ≫= callable) eqn:Hc; simpl.
  - split; [done |]. intros (l' & [= <-] & H). congruence.
  - split; [by eexists | done].
Qed.

Lemma bind_step_object l k :
  is_object h (VObj l) = true → bind_step h (VObj l) k = get_prop h l k.
Proof. unfold bind_step. by intros ->. Qed.

Lemma bind_step_other v k : is_object h v = false → bind_step h v k = VNull.
Proof. unfold bind_step. by intros ->. Qed.

Lemma foldl_bind_step_null keys : foldl (bind_step h) VNull keys = VNull.
Proof. induction keys as [|k keys IH]; simpl; [done |]. apply IH. Qed.

Lemma foldl_bind_step_path (v : val) (keys : list string) :
  foldl (bind_step h) v keys = default VNull (path_lookup h v keys).
Proof.
  revert v. induction keys as [|k keys IH]; intros v; simpl; [done |].
  destruct (is_object h v) eqn:Hobj.
  - apply is_object_spec in Hobj as Hl. destruct Hl as (l & -> & _).
    rewrite bind_step_object by done. apply IH.
  - rewrite bind_step_other by done. rewrite foldl_bind_step_null.
    by destruct v.
Qed.

(** [getBindValue] is the dot-path lookup from its root, with [null] in
    place of [undefined] and of a step through a non-object. *)
Lemma getBindValue_path (data : val) (key : string) :
  getBindValue h window data key =
    match path_lookup h (bind_root window data key) (split "." key) with
    | Some VUndefined | None => VNull
    | Some v => v
    end.
Proof.
  unfold getBindValue. rewrite foldl_bind_step_path.
  destruct (path_lookup _ _ _) as [[]|]; done.
Qed.

Lemma getBindValue_defined (data : val) (key : string) :
  getBindValue h window data key ≠ VUndefined.
Proof.
  unfold getBindValue. case_bool_decide as H; [done |]. exact H.
Qed.

(** In a browser [window.window] is [window]: a key [window.rest] is
    then the path [rest] looked up from [window]. *)
Lemma path_lookup_window_self (keys : list string) :
  is_object h (VObj window) = true →
  get_prop h window "window" = VObj window →
  path_lookup h (VObj window) ("window" :: keys)
  = path_lookup h (VObj window) keys.
Proof. intros Hobj H. simpl. by rewrite Hobj, H. Qed.

Lemma split_no_separator c (s : string) :
  mem c s = false → split c s = [s].
Proof.
  induction s as [|a s IH]; simpl; [done |].
  intros [Ha Hs]%orb_false_elim. by rewrite Ha, IH.
Qed.

Lemma split_cons c (s : string) : ∃ w ws, split c s = w :: ws.
Proof.
  induction s as [|a s (w & ws & IH)]; simpl; [by eexists _, _ |].
  destruct (Ascii.eqb a c); [by eexists _, _ |].
  rewrite IH. by eexists _, _.
Qed.

Lemma split_app_separator c (a b : string) :
  mem c a = false → split c (a +:+ String c b) = a :: split c b.
Proof.
  induction a as [|x a IH]; simpl.
  - by rewrite Ascii.eqb_refl.
  - intros [Hx Ha]%orb_false_elim. by rewrite Hx, IH.
Qed.

(** With [window.window === window], a key [window.rest] is looked up
    from [window] along [rest]. *)
Lemma getBindValue_window (data : val) (rest : string) :
  is_object h (VObj window) = true →
  get_prop h window "window" = VObj window →
  getBindValue h window data ("window." +:+ rest) =
    match path_lookup h (VObj window) (split "." rest) with
    | Some VUndefined | None => VNull
    | Some v => v
    end.
Proof.
  intros Hobj Hself. rewrite getBindValue_path. unfold bind_root.
  change ("window." +:+ rest) with ("window" +:+ String "." rest).
  rewrite split_app_separator by done.
  destruct (split_cons "." rest) as (w & ws & Hsplit). rewrite Hsplit.
  rewrite bool_decide_eq_true_2 by (simpl; lia).
  rewrite bool_decide_eq_true_2 by done.
  simpl andb. cbv iota. by rewrite path_lookup_window_self.
Qed.

(** The loop body replaces the first bracketed segment by the text of
    the looked-up value; the test for [undefined] never fires. *)
Lemma substitute_first_segment (data : val) (pre key post : string) :
  first_segment pre key →
  substitute_first h window data (segment pre key post)
  = (text ← concat_text h (getBindValue h window data key);
     Ok (pre +:+ text +:+ post)).
Proof.
  intros H. unfold substitute_first.
  rewrite segment_posStart, segment_posEnd by done.
  assert (substring (segment pre key post)
            (Z.of_nat (String.length pre) + 1)
            (Z.of_nat (String.length pre) + 1 + Z.of_nat (String.length key))
          = key) as ->.
  { unfold segment.
    change (pre +:+ String "[" (key +:+ String "]" post))
      with (pre +:+ "[" +:+ key +:+ String "]" post).
    rewrite <- (str_app_assoc pre).
    apply substring_middle; rewrite str_length_app; simpl; lia. }
  rewrite bool_decide_eq_false_2 by apply getBindValue_defined.
  destruct (concat_text h (getBindValue h window data key)) as [text| |];
    simpl; [|done..].
  unfold segment. rewrite substring_prefix by done.
  rewrite str_app_assoc. do 3 f_equal.
  change (pre +:+ String "[" (key +:+ String "]" post))
    with (pre +:+ "[" +:+ key +:+ "]" +:+ post).
  rewrite <- (str_app_assoc key), <- (str_app_assoc "["),
    <- (str_app_assoc pre).
  apply substring_from_suffix. rewrite !str_length_app. simpl. lia.
Qed.

End lookup.

(** ** The parsing loop *)

Section parsing.
Import JsString.
Variables (h : heap) (window : loc) (data : val).

Local Abbreviation subst := (substitute_first h window data).
Local Abbreviation loop fuel := (parse_loop fuel h window data).
Local Abbreviation round n := (rounds h window data n).

(** A conversion returns or throws. *)
Lemma concat_text_returns (v : val) : concat_text h v ≠ OutOfFuel.
Proof.
  unfold concat_text, ToPrimitive.
  destruct v as [| |[]| | | | |l]; simpl; try done.
  destruct (h !! l) as [o|]; [|done].
  destruct (primitive_default o) as [[| |[]| | | | |]|]; done.
Qed.

Lemma substitute_first_returns (value : string) : subst value ≠ OutOfFuel.
Proof.
  unfold substitute_first.
  destruct (concat_text h _) eqn:H; simpl; try done.
  by apply concat_text_returns in H.
Qed.

Lemma parse_loop_step fuel value value' loopCount :
  loopCount < maxLoop →
  no_bracket_pair value = false →
  subst value = Ok value' →
  loop (S fuel) value loopCount = loop fuel value' (loopCount + 1).
Proof.
  intros Hlt Hpair Hs. simpl.
  rewrite (proj2 (Z.ltb_lt _ _) Hlt), Hpair, Hs. done.
Qed.

Lemma parse_loop_throw fuel value e loopCount :
  loopCount < maxLoop →
  no_bracket_pair value = false →
  subst value = Throw e →
  loop (S fuel) value loopCount = Throw e.
Proof.
  intros Hlt Hpair Hs. simpl.
  rewrite (proj2 (Z.ltb_lt _ _) Hlt), Hpair, Hs. done.
Qed.

Lemma parse_loop_exit fuel value loopCount :
  no_bracket_pair value = true ∨ maxLoop ≤ loopCount →
  loop (S fuel) value loopCount = Ok (value, loopCount).
Proof.
  intros H. simpl. destruct (loopCount <? maxLoop) eqn:Hlt; [|done].
  destruct H as [-> | H]; [done |]. apply Z.ltb_lt in Hlt. lia.
Qed.

(** With more fuel than rounds left the loop ends: it has run [k]
    rounds, each on a string with a bracket pair, and then stopped at the
    first string without one or at the cap, or thrown in the next round
    because the value found has no text. *)
Lemma parse_loop_run fuel : ∀ value loopCount,
  loopCount ≤ maxLoop →
  (Z.to_nat (maxLoop - loopCount) < fuel)%nat →
  ∃ (k : nat) (v : string),
    round k value = Ok v
    ∧ loopCount + Z.of_nat k ≤ maxLoop
    ∧ (∀ j, (j < k)%nat →
         ∃ vj, round j value = Ok vj ∧ no_bracket_pair vj = false)
    ∧ ((loop fuel value loopCount = Ok (v, loopCount + Z.of_nat k)
        ∧ (loopCount + Z.of_nat k < maxLoop → no_bracket_pair v = true))
       ∨ ∃ e, loopCount + Z.of_nat k < maxLoop
              ∧ no_bracket_pair v = false
              ∧ subst v = Throw e
              ∧ loop fuel value loopCount = Throw e).
Proof.
  induction fuel as [|fuel IH]; intros value loopCount Hle Hfuel; [lia |].
  destruct (decide (loopCount < maxLoop)) as [Hlt | Hge].
  - destruct (no_bracket_pair value) eqn:Hpair.
    + exists 0%nat, value. rewrite parse_loop_exit by auto. simpl.
      rewrite Z.add_0_r. repeat split; try done; try lia. by left.
    + destruct (subst value) as [value'|e|] eqn:Hs.
      * rewrite (parse_loop_step _ _ value') by done.
        destruct (IH value' (loopCount + 1))
          as (k & v & Hround & Hk & Hbefore & Hend); [lia | lia |].
        exists (S k), v.
        split; [simpl; by rewrite Hs |]. split; [lia |]. split.
        -- intros [|j] Hj; [by exists value |].
           simpl. rewrite Hs. simpl. apply Hbefore. lia.
        -- replace (loopCount + Z.of_nat (S k))
             with (loopCount + 1 + Z.of_nat k) by lia.
           exact Hend.
      * exists 0%nat, value. rewrite (parse_loop_throw _ _ e) by done.
        rewrite Z.add_0_r.
        split; [done |]. split; [lia |]. split; [intros j Hj; lia |].
        right. by exists e.
      * by apply substitute_first_returns in Hs.
  - exists 0%nat, value. rewrite parse_loop_exit by (right; lia). simpl.
    rewrite Z.add_0_r. repeat split; try done; try lia. left. split; [done | lia].
Qed.

(** The loop never stops for want of fuel once it has more than 100. *)
Lemma parse_loop_fuel fuel value :
  (100 < fuel)%nat → loop fuel value 0 ≠ OutOfFuel.
Proof.
  intros Hfuel.
  destruct (parse_loop_run fuel value 0)
    as (k & v & _ & _ & _ & [[-> _] | (e & _ & _ & _ & ->)]);
    [done | unfold maxLoop; lia | done | done].
Qed.

(** An outcome does not depend on the fuel that was left over. *)
Lemma parse_loop_more_fuel fuel extra : ∀ value loopCount,
  loop fuel value loopCount ≠ OutOfFuel →
  loop (fuel + extra) value loopCount = loop fuel value loopCount.
Proof.
  induction fuel as [|fuel IH]; intros value loopCount; [done |].
  simpl. destruct (loopCount <? maxLoop); [|done].
  destruct (no_bracket_pair value); [done |].
  destruct (subst value); simpl; [apply IH | done | done].
Qed.

End parsing.

(** C2.  For every template the loop ends once its fuel exceeds the cap:
    it makes [n ≤ 100] rounds, every round starts from a string with a
    bracket pair, and it stops at the first string without one (at once,
    returning the template, when a bracket is missing or the first
    closing bracket comes first) or after round 100; the one other way
    out is the exception of a round whose value has no text, a Symbol or
    an object that cannot be converted. *)
Theorem parse_loop_terminates (h : heap) (window : loc) (data : val)
    (value : string) (fuel : nat) :
  (100 < fuel)%nat →
  ∃ (n : nat) (v : string),
    rounds h window data n value = Ok v
    ∧ (n ≤ 100)%nat
    ∧ (∀ j, (j < n)%nat →
         ∃ vj, rounds h window data j value = Ok vj
               ∧ no_bracket_pair vj = false)
    ∧ ((parse_loop fuel h window data value 0 = Ok (v, Z.of_nat n)
        ∧ ((n < 100)%nat → no_bracket_pair v = true))
       ∨ ∃ e, (n < 100)%nat
              ∧ no_bracket_pair v = false
              ∧ substitute_first h window data v = Throw e
              ∧ parse_loop fuel h window data value 0 = Throw e)
    ∧ (JsString.mem "[" value = false ∨ JsString.mem "]" value = false
       ∨ JsString.indexOf value "]" < JsString.indexOf value "[" →
       n = 0%nat ∧ parse_loop fuel h window data value 0 = Ok (value, 0)).
Proof.
  intros Hfuel.
  destruct (parse_loop_run h window data fuel value 0)
    as (n & v & Hround & Hn & Hbefore & Hend); [done | unfold maxLoop; lia |].
  unfold maxLoop in *. exists n, v. rewrite Z.add_0_l in Hend.
  split; [done |]. split; [lia |]. split; [done |]. split.
  { destruct Hend as [[Hrun Hlast] | (e & Hlt & Hpair & Hs & Hrun)].
    - left. split; [done |]. intros; apply Hlast; lia.
    - right. exists e. repeat split; try done. lia. }
  intros Hbad.
  assert (no_bracket_pair value = true) as Hnone.
  { unfold no_bracket_pair.
    destruct Hbad as [Hm | [Hm | Hlt]].
    - apply indexOf_missing in Hm. rewrite Hm. done.
    - apply indexOf_missing in Hm. rewrite Hm. by rewrite orb_true_r.
    - apply Z.ltb_lt in Hlt. rewrite Hlt. by rewrite !orb_true_r. }
  split.
  - destruct n as [|n]; [done |]. exfalso.
    destruct (Hbefore 0%nat ltac:(lia)) as (v0 & [= <-] & Hv0). congruence.
  - destruct fuel as [|fuel]; [lia |]. apply parse_loop_exit. by left.
Qed.

(** A template made of a bracketed key bound to itself is still being
    rewritten when the cap stops the loop. *)
Lemma parse_loop_reaches_cap :
  parse_loop 101
    (<[ 10%positive := object_literal [("a", VStr "[a]")] 1%positive ]> realm)
    20%positive (VObj 10%positive) "[a]" 0 = Ok ("[a]", 100).
Proof. vm_compute. done. Qed.

Lemma parse_loop_terminates_witness :
  parse_loop 101 ∅ 1%positive VNull "a]b[" 0 = Ok ("a]b[", 0).
Proof.
  destruct (parse_loop_terminates ∅ 1%positive VNull "a]b[" 101)
    as (n & v & _ & _ & _ & _ & Hbad); [lia |].
  apply Hbad. right. right. vm_compute. done.
Defined.

(** ** Binding one attribute *)

Section names.
Import JsString.
Variable html : bool.

Local Abbreviation key := (attribute_key html).

Lemma ascii_lowercase_app (s t : string) :
  ascii_lowercase (s +:+ t) = ascii_lowercase s +:+ ascii_lowercase t.
Proof. induction s as [|c s IH]; simpl; [done |]. by rewrite IH. Qed.

Lemma ascii_lowercase_length (s : string) :
  String.length (ascii_lowercase s) = String.length s.
Proof. induction s as [|c s IH]; simpl; [done |]. by rewrite IH. Qed.

Lemma key_length (name : string) :
  String.length (key name) = String.length name.
Proof.
  unfold attribute_key. destruct html; [apply ascii_lowercase_length | done].
Qed.

Lemma key_saved (attribute attr : string) :
  key (saved_name attribute attr) = key attribute +:+ "-" +:+ key attr.
Proof.
  unfold attribute_key, saved_name. destruct html; [|done].
  by rewrite !ascii_lowercase_app.
Qed.

Lemma key_saved_ne_attr (attribute attr : string) :
  key (saved_name attribute attr) ≠ key attr.
Proof.
  intros H. apply (f_equal String.length) in H. revert H.
  rewrite key_saved, !str_length_app, !key_length. simpl. lia.
Qed.

Lemma key_saved_ne_attribute (attribute attr : string) :
  key (saved_name attribute attr) ≠ key attribute.
Proof.
  intros H. apply (f_equal String.length) in H. revert H.
  rewrite key_saved, !str_length_app, !key_length. simpl. lia.
Qed.

Lemma key_saved_inj (attribute a b : string) :
  key (saved_name attribute a) = key (saved_name attribute b) →
  key a = key b.
Proof.
  rewrite !key_saved. intros H.
  apply (inj (String.app (key attribute))) in H.
  by apply (inj (String.app "-")) in H.
Qed.

Lemma key_saved_eq (attribute a b : string) :
  key a = key b →
  key (saved_name attribute a) = key (saved_name attribute b).
Proof. rewrite !key_saved. by intros ->. Qed.

End names.

Section binding.
Import JsString.
Variable valid_name : string -> bool.
Variable html : bool.
Variables (h : heap) (window : loc) (data : val).
Variables (fuel : nat) (attribute : string).

Local Abbreviation key := (attribute_key html).
Local Abbreviation saved := (saved_name attribute).
Local Abbreviation body :=
  (bind_attr valid_name html fuel h window data attribute).
Local Abbreviation template el a := (template_of html el attribute a).

(** [bind_attr] on an attribute that has a template. *)
Lemma bind_attr_template (el : element) attr t v n :
  template el attr = Some t →
  parse_loop fuel h window data t 0 = Ok (v, n) →
  valid_name attr = true →
  (el !! key (saved attr) = None → valid_name (saved attr) = true) →
  body el attr = Ok (<[key attr := v]> (<[key (saved attr) := t]> el)).
Proof.
  unfold template_of, bind_attr, getAttribute, setAttribute.
  destruct (el !! key (saved attr)) as [t'|] eqn:Hsaved.
  - intros [= ->] Hp Ha _. simpl. rewrite Hp. simpl. rewrite Ha.
    by rewrite (insert_id el _ t).
  - intros -> Hp Ha Hs. rewrite Hs by done. simpl. rewrite Hp. simpl.
    by rewrite Ha.
Qed.

(** [bind_attr] on an attribute without one. *)
Lemma bind_attr_no_template (el : element) attr :
  template el attr = None → body el attr = Ok el.
Proof.
  unfold template_of, bind_attr, getAttribute.
  destruct (el !! key (saved attr)); [done |]. by intros ->.
Qed.

Lemma bind_attr_inv (el el' : element) (a : string) :
  body el a = Ok el' →
  (template el a = None ∧ el' = el)
  ∨ ∃ t v n, template el a = Some t
             ∧ parse_loop fuel h window data t 0 = Ok (v, n)
             ∧ valid_name a = true
             ∧ el' = <[key a := v]> (<[key (saved a) := t]> el).
Proof.
  unfold template_of, bind_attr, getAttribute, setAttribute.
  destruct (el !! key (saved a)) as [t|] eqn:Hsaved; simpl.
  - destruct (parse_loop fuel h window data t 0) as [[v n]| |] eqn:Hp;
      simpl; [|done..].
    destruct (valid_name a) eqn:Ha; [|done].
    intros [= <-]. right. exists t, v, n.
    by rewrite (insert_id el _ t).
  - destruct (el !! key a) as [t|] eqn:Hattr; simpl.
    + destruct (valid_name (saved a)); simpl; [|done].
      destruct (parse_loop fuel h window data t 0) as [[v n]| |] eqn:Hp;
        simpl; [|done..].
      destruct (valid_name a) eqn:Ha; [|done].
      intros [= <-]. right. by exists t, v, n.
    + intros [= <-]. by left.
Qed.

(** [bind_attr] writes [a] and its saved name only. *)
Lemma bind_attr_other (el el' : element) (a k : string) :
  body el a = Ok el' → k ≠ key a → k ≠ key (saved a) → el' !! k = el !! k.
Proof.
  intros [[_ ->] | (t & v & n & _ & _ & _ & ->)]%bind_attr_inv Ha Hs; [done |].
  by rewrite !lookup_insert_ne.
Qed.

(** It removes nothing. *)
Lemma bind_attr_keeps (el el' : element) (a k : string) :
  body el a = Ok el' → is_Some (el !! k) → is_Some (el' !! k).
Proof.
  intros [[_ ->] | (t & v & n & _ & _ & _ & ->)]%bind_attr_inv Hk; [done |].
  rewrite !lookup_insert_is_Some'. auto.
Qed.

(** With more than 100 units of fuel it returns or throws. *)
Lemma bind_attr_fuel (el : element) (a : string) :
  (100 < fuel)%nat → body el a ≠ OutOfFuel.
Proof.
  intros Hfuel. unfold bind_attr, setAttribute.
  assert (∀ t (el0 : element),
            (parse_loop fuel h window data t 0
             ≫= λ parsed, if valid_name a
                          then Ok (<[key a := parsed.1]> el0)
                          else Throw InvalidCharacterError) ≠ OutOfFuel) as Hp.
  { intros t el0.
    pose proof (parse_loop_fuel h window data fuel t Hfuel) as Hne.
    destruct (parse_loop fuel h window data t 0); simpl; [|done..].
    by destruct (valid_name a). }
  destruct (getAttribute html el (saved a)); simpl; [apply Hp |].
  destruct (getAttribute html el a); simpl; [|done].
  destruct (valid_name (saved a)); simpl; [apply Hp | done].
Qed.

Lemma for_each_fuel (attrs : list string) : ∀ el : element,
  (100 < fuel)%nat → for_each body attrs el ≠ OutOfFuel.
Proof.
  induction attrs as [|x xs IH]; intros el Hfuel; simpl; [done |].
  pose proof (bind_attr_fuel el x Hfuel) as Hne.
  destruct (body el x); simpl; [by apply IH | done | done].
Qed.

(** The rounds of the loop, one after the other. *)
Lemma rounds_add (j m : nat) : ∀ value,
  rounds h window data (j + m) value
  = (v ← rounds h window data j value; rounds h window data m v).
Proof.
  induction j as [|j IH]; intros value; simpl; [done |].
  destruct (substitute_first h window data value); simpl; [apply IH | done..].
Qed.

Lemma rounds_one (value : string) :
  rounds h window data 1 value = substitute_first h window data value.
Proof. simpl. by destruct (substitute_first h window data value). Qed.

(** Each round replaces the first segment by the text of the value its
    key is bound to. *)
Lemma rounds_replace (n : nat) (tmpl v : string) :
  rounds h window data n tmpl = Ok v →
  (∀ j, (j < n)%nat →
     ∃ vj, rounds h window data j tmpl = Ok vj ∧ no_bracket_pair vj = false) →
  ∀ j, (j < n)%nat →
    ∃ pre key post text,
      first_segment pre key
      ∧ rounds h window data j tmpl = Ok (segment pre key post)
      ∧ concat_text h (getBindValue h window data key) = Ok text
      ∧ rounds h window data (S j) tmpl = Ok (pre +:+ text +:+ post).
Proof.
  intros Hn Hbefore j Hj.
  destruct (Hbefore j Hj) as (vj & Hvj & Hpair).
  apply has_pair_segment in Hpair as (pre & k & post & -> & Hseg).
  assert (rounds h window data (S j) tmpl
          = substitute_first h window data (segment pre k post)) as Hnext.
  { replace (S j) with (j + 1)%nat by lia.
    rewrite rounds_add, Hvj. simpl.
    by destruct (substitute_first h window data (segment pre k post)). }
  assert (∃ v', rounds h window data (S j) tmpl = Ok v') as [v' Hv'].
  { replace n with (S j + (n - S j))%nat in Hn by lia.
    rewrite rounds_add in Hn.
    destruct (rounds h window data (S j) tmpl); simpl in Hn; try done.
    by eexists. }
  rewrite Hv' in Hnext. symmetry in Hnext.
  rewrite substitute_first_segment in Hnext by done.
  destruct (concat_text h (getBindValue h window data k)) as [text| |]
    eqn:Hc; simpl in Hnext; try done.
  injection Hnext as <-. by exists pre, k, post, text.
Qed.

End binding.

Section steps.

(** The rounds of a loop over a list, taken apart at one element. *)
Lemma for_each_app_inv {A S} (body : S -> A -> result S) (xs : list A) :
  ∀ (y : A) (ys : list A) (st st' : S),
    for_each body (xs ++ y :: ys) st = Ok st' →
    ∃ st0 st1,
      for_each body xs st = Ok st0
      ∧ body st0 y = Ok st1
      ∧ for_each body ys st1 = Ok st'.
Proof.
  induction xs as [|x xs IH]; intros y ys st st' H; simpl in H.
  - destruct (body st y) as [st1| |] eqn:Hy; simpl in H; try done.
    by exists st, st1.
  - destruct (body st x) as [st1| |] eqn:Hx; simpl in H; try done.
    destruct (IH y ys st1 st' H) as (st0 & st2 & H0 & H1 & H2).
    exists st0, st2. simpl. by rewrite Hx.
Qed.

End steps.

(** C1, amended.  When [bindAttrTmpl] returns, it has taken the targets
    the binding attribute lists one after the other.  For a target with a
    template (the saved one, else the value of the attribute) it has run
    [n ≤ 100] rounds of the loop: every round found a string of the form
    [pre[key]post] whose first [[] comes before its first []] and
    replaced the segment, brackets included, by the text of
    [getBindValue(data, key)]; the string reached when no such pair was
    left, or after round 100, is the value of the attribute, and the
    template is kept under [attribute-attr].  [getBindValue] is the
    dot-path lookup through objects from [data], or from [window] for a
    path of several keys that starts with [window] (the rest of the path
    then being looked up in [window], since [window.window] is
    [window]), with [null] for a lookup that fails. *)
Theorem bindAttrTmpl_substitutes (valid_name : string -> bool) (html : bool)
    (h : heap) (window : loc) (data : val) (el el' : element)
    (attribute : string) (fuel : nat) :
  (100 < fuel)%nat →
  bindAttrTmpl valid_name html fuel h window el attribute data = Ok el' →
  (∃ targets,
     bind_targets html el attribute = Some targets
     ∧ ∀ before attr after, targets = before ++ attr :: after →
       ∃ el0 el1,
         for_each (bind_attr valid_name html fuel h window data attribute)
           before el = Ok el0
         ∧ bind_attr valid_name html fuel h window data attribute el0 attr
           = Ok el1
         ∧ for_each (bind_attr valid_name html fuel h window data attribute)
             after el1 = Ok el'
         ∧ (template_of html el0 attribute attr = None → el1 = el0)
         ∧ ∀ tmpl, template_of html el0 attribute attr = Some tmpl →
             ∃ (n : nat) (v : string),
               (n ≤ 100)%nat
               ∧ rounds h window data n tmpl = Ok v
               ∧ (∀ j, (j < n)%nat →
                    ∃ pre key post text,
                      first_segment pre key
                      ∧ rounds h window data j tmpl
                        = Ok (segment pre key post)
                      ∧ concat_text h (getBindValue h window data key)
                        = Ok text
                      ∧ rounds h window data (S j) tmpl
                        = Ok (pre +:+ text +:+ post))
               ∧ ((n < 100)%nat → no_bracket_pair v = true)
               ∧ getAttribute html el1 attr = Some v
               ∧ getAttribute html el1 (attribute +:+ "-" +:+ attr)
                 = Some tmpl)
  ∧ (∀ pre key post, first_segment pre key →
       JsString.indexOf (segment pre key post) "["
       = Z.of_nat (String.length pre)
       ∧ JsString.indexOf (segment pre key post) "]"
         = Z.of_nat (String.length pre) + 1 + Z.of_nat (String.length key))
  ∧ (∀ key,
       getBindValue h window data key
       = match path_lookup h (bind_root window data key)
                 (JsString.split "." key) with
         | Some VUndefined | None => VNull
         | Some v => v
         end)
  ∧ (is_object h (VObj window) = true →
     get_prop h window "window" = VObj window →
     ∀ rest,
       getBindValue h window data ("window." +:+ rest)
       = match path_lookup h (VObj window) (JsString.split "." rest) with
         | Some VUndefined | None => VNull
         | Some v => v
         end).
Proof.
  intros Hfuel Hcall.
  split; [| split; [| split]].
  - unfold bindAttrTmpl in Hcall.
    destruct (bind_targets html el attribute) as [targets|] eqn:Ht; [|done].
    exists targets. split; [done |].
    intros before attr after ->.
    destruct (for_each_app_inv _ before attr after el el' Hcall)
      as (el0 & el1 & H0 & H1 & H2).
    exists el0, el1. repeat split; try done.
    + intros Hnone. rewrite bind_attr_no_template in H1 by done.
      by injection H1 as <-.
    + intros tmpl Htmpl.
      apply bind_attr_inv in H1
        as [[Hnone _] | (t & v & n & Ht' & Hp & Ha & ->)]; [congruence |].
      rewrite Htmpl in Ht'. injection Ht' as <-.
      destruct (parse_loop_run h window data fuel tmpl 0)
        as (k & v' & Hround & Hk & Hbefore & Hend);
        [done | unfold maxLoop; lia |].
      rewrite Z.add_0_l in Hend. unfold maxLoop in *.
      destruct Hend as [[Hrun Hlast] | (e & _ & _ & _ & Hrun)];
        [| congruence].
      rewrite Hrun in Hp. injection Hp as <- <-.
      exists k, v'. split; [lia |]. split; [done |].
      split; [by apply (rounds_replace h window data k tmpl v') |].
      split; [intros; apply Hlast; lia |].
      unfold getAttribute. split.
      * apply lookup_insert_eq.
      * rewrite lookup_insert_ne by (symmetry; apply key_saved_ne_attr).
        apply lookup_insert_eq.
  - intros pre key post Hseg.
    split; [by apply segment_posStart | by apply segment_posEnd].
  - intros key. apply getBindValue_path.
  - intros Hobj Hself rest. by apply getBindValue_window.
Qed.

Lemma bindAttrTmpl_substitutes_witness :
  let h : heap :=
    <[ 10%positive :=
         object_literal [("id", VNum (Decimal false 7 1))] 1%positive ]>
      realm in
  let el : element := {[ "data-bind-attr" := "HREF"; "href" := "#/item/[id]" ]} in
  let el' : element :=
    <["href" := "#/item/7"]> (<["data-bind-attr-href" := "#/item/[id]"]> el) in
  bindAttrTmpl valid_attribute_local_name true 101 h 20%positive el
    "data-bind-attr" (VObj 10%positive) = Ok el'
  ∧ bind_targets true el "data-bind-attr" = Some ["HREF"]
  ∧ getBindValue h 20%positive (VObj 10%positive) "id"
    = VNum (Decimal false 7 1)
  ∧ ∃ n v,
      rounds h 20%positive (VObj 10%positive) n "#/item/[id]" = Ok v
      ∧ getAttribute true el' "HREF" = Some v.
Proof.
  intros h el el'.
  assert (bindAttrTmpl valid_attribute_local_name true 101 h 20%positive el
            "data-bind-attr" (VObj 10%positive) = Ok el') as Hcall
    by (vm_compute; reflexivity).
  destruct (bindAttrTmpl_substitutes valid_attribute_local_name true h
              20%positive (VObj 10%positive) el el' "data-bind-attr" 101)
    as ((targets & Htargets & Hsteps) & _ & Hpath & _); [lia | exact Hcall |].
  split; [exact Hcall |].
  assert (targets = ["HREF"]) as ->.
  { assert (bind_targets true el "data-bind-attr" = Some ["HREF"]) as Ht
      by (vm_compute; reflexivity).
    congruence. }
  split; [exact Htargets |].
  split; [rewrite Hpath; vm_compute; reflexivity |].
  destruct (Hsteps [] "HREF" [] eq_refl)
    as (el0 & el1 & H0 & H1 & H2 & _ & Htmpl).
  injection H0 as <-. simpl in H2. injection H2 as ->.
  destruct (Htmpl "#/item/[id]") as (n & v & _ & Hround & _ & _ & Hv & _);
    [vm_compute; reflexivity |].
  by exists n, v.
Defined.

(** C1 as stated fails where it has the fully substituted string written
    back: a closing bracket in front of the first opening one ends the
    loop at once, and the segment [[id]], whose key the data binds, stays
    in the attribute. *)
Lemma bindAttrTmpl_leaves_segment :
  let h : heap :=
    <[ 10%positive :=
         object_literal [("id", VNum (Decimal false 7 1))] 1%positive ]>
      realm in
  let el : element := {[ "data-bind-attr" := "href"; "href" := "a]b[id]" ]} in
  let el' : element :=
    <["href" := "a]b[id]"]> (<["data-bind-attr-href" := "a]b[id]"]> el) in
  bindAttrTmpl valid_attribute_local_name true 101 h 20%positive el
    "data-bind-attr" (VObj 10%positive) = Ok el'
  ∧ getAttribute true el' "href" = Some (segment "a]b" "id" EmptyString)
  ∧ getBindValue h 20%positive (VObj 10%positive) "id"
    = VNum (Decimal false 7 1).
Proof.
  intros h el el'.
  split; [vm_compute; reflexivity |].
  split; vm_compute; reflexivity.
Qed.

(** So does the cap: of 101 segments the last one stays. *)
Lemma bindAttrTmpl_cap_leaves_segment :
  let h : heap :=
    <[ 10%positive := object_literal [("a", VStr "[a]")] 1%positive ]>
      realm in
  let el : element := {[ "data-bind-attr" := "href"; "href" := "[a]" ]} in
  let el' : element :=
    <["href" := "[a]"]> (<["data-bind-attr-href" := "[a]"]> el) in
  bindAttrTmpl valid_attribute_local_name true 101 h 20%positive el
    "data-bind-attr" (VObj 10%positive) = Ok el'
  ∧ parse_loop 101 h 20%positive (VObj 10%positive) "[a]" 0 = Ok ("[a]", 100)
  ∧ no_bracket_pair "[a]" = false.
Proof.
  intros h el el'.
  split; [vm_compute; reflexivity |].
  split; vm_compute; reflexivity.
Qed.

(** C8, amended.  [getBindValue] never returns [undefined]; it returns
    [null] when the lookup ends in [undefined] (no object of the
    prototype chain has the property) or goes through a value that is no
    object.  So the test for [undefined] in the loop body never fires,
    and a bracketed key whose lookup fails is replaced by the text
    [null], not by the empty string, in the loop body and in the
    attribute [bindAttrTmpl] writes. *)
Theorem getBindValue_never_undefined (valid_name : string -> bool)
    (html : bool) (h : heap) (window : loc) (data : val)
    (pre key post : string) :
  first_segment pre key →
  path_lookup h (bind_root window data key) (JsString.split "." key)
    = Some VUndefined
  ∨ path_lookup h (bind_root window data key) (JsString.split "." key)
    = None →
  (∀ d k, getBindValue h window d k ≠ VUndefined)
  ∧ getBindValue h window data key = VNull
  ∧ (∀ d value,
       substitute_first h window d value
       = (text ← concat_text h
                   (getBindValue h window d
                      (JsString.substring value
                         (JsString.indexOf value "[" + 1)
                         (JsString.indexOf value "]")));
          Ok ((JsString.substring value 0 (JsString.indexOf value "[")
                 +:+ text)
              +:+ JsString.substring_from value
                    (JsString.indexOf value "]" + 1))))
  ∧ substitute_first h window data (segment pre key post)
    = Ok (pre +:+ "null" +:+ post)
  ∧ substitute_first h window data (segment pre key post)
    ≠ Ok (pre +:+ post)
  ∧ ∀ (el : element) (attribute attr : string) (fuel : nat),
      (1 < fuel)%nat →
      bind_targets html el attribute = Some [attr] →
      template_of html el attribute attr = Some (segment pre key post) →
      no_bracket_pair (pre +:+ "null" +:+ post) = true →
      valid_name attr = true →
      valid_name (saved_name attribute attr) = true →
      ∃ el',
        bindAttrTmpl valid_name html fuel h window el attribute data = Ok el'
        ∧ getAttribute html el' attr = Some (pre +:+ "null" +:+ post).
Proof.
  intros Hseg Hpath.
  assert (getBindValue h window data key = VNull) as Hnull.
  { rewrite getBindValue_path. by destruct Hpath as [-> | ->]. }
  assert (substitute_first h window data (segment pre key post)
          = Ok (pre +:+ "null" +:+ post)) as Hsubst.
  { rewrite substitute_first_segment by done. by rewrite Hnull. }
  split; [intros d k; apply getBindValue_defined |].
  split; [done |].
  split.
  { intros d value. unfold substitute_first.
    by rewrite bool_decide_eq_false_2 by apply getBindValue_defined. }
  split; [done |].
  split.
  { rewrite Hsubst. intros [= H]. apply (f_equal String.length) in H.
    rewrite !str_length_app in H. simpl in H. lia. }
  intros el attribute attr fuel Hfuel Htargets Htmpl Hdone Ha Hs.
  assert (parse_loop fuel h window data (segment pre key post) 0
          = Ok (pre +:+ "null" +:+ post, 1)) as Hp.
  { destruct fuel as [|[|fuel]]; try lia.
    rewrite (parse_loop_step _ _ _ _ _ (pre +:+ "null" +:+ post));
      [| done | by apply segment_has_pair | done].
    apply parse_loop_exit. by left. }
  exists (<[attribute_key html attr := pre +:+ "null" +:+ post]>
            (<[attribute_key html (saved_name attribute attr)
               := segment pre key post]> el)).
  split.
  - unfold bindAttrTmpl. rewrite Htargets. simpl.
    by rewrite (bind_attr_template _ _ _ _ _ _ _ _ _ _ _ _ Htmpl Hp).
  - unfold getAttribute. apply lookup_insert_eq.
Qed.

Lemma getBindValue_never_undefined_witness :
  let h : heap :=
    <[ 10%positive :=
         object_literal [("id", VNum (Decimal false 7 1))] 1%positive ]>
      realm in
  getBindValue h 20%positive (VObj 10%positive) "name" = VNull
  ∧ substitute_first h 20%positive (VObj 10%positive) "/[name]/x"
    = Ok "/null/x"
  ∧ ∃ el',
      bindAttrTmpl valid_attribute_local_name true 101 h 20%positive
        {[ "data-bind-attr" := "href"; "href" := "/[name]/x" ]}
        "data-bind-attr" (VObj 10%positive) = Ok el'
      ∧ getAttribute true el' "href" = Some "/null/x".
Proof.
  intros h.
  destruct (getBindValue_never_undefined valid_attribute_local_name true h
              20%positive (VObj 10%positive) "/" "name" "/x")
    as (_ & Hnull & _ & Hsubst & _ & Hbind);
    [done | left; vm_compute; reflexivity |].
  split; [exact Hnull |]. split; [exact Hsubst |].
  apply Hbind; [lia | vm_compute; reflexivity .. ].
Defined.

(** C8 as stated fails for a key that the data object does not have but
    inherits: an object literal inherits [toString], and the segment is
    replaced by the text of that function (in which the next round finds
    the brackets of [[native code]]). *)
Lemma getBindValue_inherited_key :
  let data := object_literal [("id", VNum (Decimal false 7 1))] 1%positive in
  let h : heap := <[ 10%positive := data ]> realm in
  let el : element := {[ "data-bind-attr" := "href"; "href" := "/[toString]" ]} in
  let el' : element :=
    <["href" := "/function toString() { null }"]>
      (<["data-bind-attr-href" := "/[toString]"]> el) in
  own_property "toString" (own data) = None
  ∧ getBindValue h 20%positive (VObj 10%positive) "toString"
    = VObj 3%positive
  ∧ substitute_first h 20%positive (VObj 10%positive) "/[toString]"
    = Ok "/function toString() { [native code] }"
  ∧ bindAttrTmpl valid_attribute_local_name true 101 h 20%positive el
      "data-bind-attr" (VObj 10%positive) = Ok el'
  ∧ getAttribute true el' "href" = Some "/function toString() { null }".
Proof.
  intros data h el el'.
  split; [done |].
  split; [vm_compute; reflexivity |].
  split; [vm_compute; reflexivity |].
  split; vm_compute; reflexivity.
Qed.

(** ** Binding again *)

Section rebinding.
Variable valid_name : string -> bool.
Variable html : bool.
Variables (h : heap) (window : loc) (data : val).
Variables (fuel : nat) (attribute : string).

Local Abbreviation key := (attribute_key html).
Local Abbreviation saved := (saved_name attribute).
Local Abbreviation body :=
  (bind_attr valid_name html fuel h window data attribute).
Local Abbreviation template el a := (template_of html el attribute a).
Local Abbreviation stable :=
  (settled valid_name html h window data fuel attribute).

(** The template of a target is found under the names the element
    stores. *)
Lemma template_key (el : element) (a b : string) :
  key a = key b → template el a = template el b.
Proof.
  intros Hk. unfold template_of, getAttribute.
  by rewrite Hk, (key_saved_eq html attribute a b Hk).
Qed.

Lemma settled_fixed (el : element) (a : string) :
  stable el a → body el a = Ok el.
Proof.
  unfold settled, getAttribute.
  intros [[Hs Ha] | (t & v & n & Hs & Hp & Ha & Hv)].
  - apply bind_attr_no_template. unfold template_of, getAttribute.
    by rewrite Hs, Ha.
  - erewrite bind_attr_template; [| |exact Hp| done |].
    + by rewrite (insert_id el (key (saved a)) t), (insert_id el (key a) v).
    + unfold template_of, getAttribute. by rewrite Hs.
    + by rewrite Hs.
Qed.

(** A target that differs from a settled one by its case only changes
    nothing. *)
Lemma settled_fixed_key (el el' : element) (a b : string) :
  stable el a → key a = key b → body el b = Ok el' → el' = el.
Proof.
  intros Hset Hk Hb.
  apply bind_attr_inv in Hb
    as [[_ ->] | (t & v & n & Ht & Hp & _ & ->)]; [done |].
  rewrite <- (template_key el a b Hk) in Ht.
  rewrite <- Hk, <- (key_saved_eq html attribute a b Hk).
  unfold settled, template_of, getAttribute in *.
  destruct Hset as [[Hs Ha] | (t0 & v0 & n0 & Hs & Hp0 & Ha & _)].
  - rewrite Hs, Ha in Ht. done.
  - rewrite Hs in Ht. simplify_eq.
    rewrite Hp in Hp0. simplify_eq.
    by rewrite (insert_id el _ _ Hs), (insert_id el _ _ Ha).
Qed.

Lemma bind_attr_settles (el el' : element) (a : string) :
  body el a = Ok el' → stable el' a.
Proof.
  unfold settled, getAttribute.
  intros [[Ht ->] | (t & v & n & Ht & Hp & Hv & ->)]%bind_attr_inv.
  - left. unfold template_of, getAttribute in Ht.
    destruct (el !! key (saved a)); [done |]. done.
  - right. exists t, v, n. split; [|split; [done |split; [|done]]].
    + rewrite lookup_insert_ne by (symmetry; apply key_saved_ne_attr).
      apply lookup_insert_eq.
    + apply lookup_insert_eq.
Qed.

Lemma settled_agree (el el' : element) (a : string) :
  el' !! key a = el !! key a →
  el' !! key (saved a) = el !! key (saved a) →
  stable el a → stable el' a.
Proof. unfold settled, getAttribute. by intros -> ->. Qed.

Lemma settled_preserved (el el' : element) (a b : string) :
  stable el a → body el b = Ok el' →
  key a ≠ key (saved b) → key (saved a) ≠ key b → stable el' a.
Proof.
  intros Hset Hb Hab Hba. destruct (decide (key a = key b)) as [Hk | Hne].
  - by rewrite (settled_fixed_key el el' a b).
  - apply (settled_agree el); [| |done].
    + by apply (bind_attr_other valid_name html h window data fuel attribute
                  el el' b).
    + apply (bind_attr_other valid_name html h window data fuel attribute
               el el' b); [done | done |].
      intros Heq. by apply key_saved_inj in Heq.
Qed.

Lemma for_each_preserves (attrs : list string) : ∀ (el el' : element) a,
  stable el a → for_each body attrs el = Ok el' →
  (∀ b, b ∈ attrs → key a ≠ key (saved b) ∧ key (saved a) ≠ key b) →
  stable el' a.
Proof.
  induction attrs as [|x xs IH]; intros el el' a Hset Hrun Hfree; simpl in Hrun.
  - by injection Hrun as <-.
  - destruct (body el x) as [el1| |] eqn:Hx; try done. simpl in Hrun.
    destruct (Hfree x) as [H1 H2]; [by left |].
    apply (IH el1 el' a); [by apply (settled_preserved el el1 a x) | done |].
    intros b Hb. apply Hfree. by right.
Qed.

Lemma for_each_settles (attrs : list string) : ∀ (el el' : element),
  for_each body attrs el = Ok el' →
  (∀ a b, a ∈ attrs → b ∈ attrs → key (saved a) ≠ key b) →
  ∀ a, a ∈ attrs → stable el' a.
Proof.
  induction attrs as [|x xs IH]; intros el el' Hrun Hfree a Ha.
  - by apply elem_of_nil in Ha.
  - simpl in Hrun.
    destruct (body el x) as [el1| |] eqn:Hx; try done. simpl in Hrun.
    assert (stable el' x) as Hstable_x.
    { apply (for_each_preserves xs el1 el' x);
        [by eapply bind_attr_settles | done |].
      intros b Hb. split.
      - intros Heq. apply (Hfree b x); [by right | by left | done].
      - apply Hfree; [by left | by right]. }
    apply elem_of_cons in Ha as [-> | Ha]; [done |].
    apply (IH el1 el'); [done | | done].
    intros c d Hc Hd. apply Hfree; by right.
Qed.

Lemma for_each_fixed (attrs : list string) (el : element) :
  (∀ a, a ∈ attrs → stable el a) → for_each body attrs el = Ok el.
Proof.
  induction attrs as [|x xs IH]; intros Hall; simpl; [done |].
  rewrite settled_fixed by (apply Hall; by left). simpl.
  apply IH. intros a Ha. apply Hall. by right.
Qed.

Lemma for_each_other (attrs : list string) : ∀ (el el' : element) k,
  for_each body attrs el = Ok el' →
  (∀ a, a ∈ attrs → k ≠ key a ∧ k ≠ key (saved a)) →
  el' !! k = el !! k.
Proof.
  induction attrs as [|x xs IH]; intros el el' k Hrun Hs; simpl in Hrun.
  - by injection Hrun as <-.
  - destruct (body el x) as [el1| |] eqn:Hx; try done. simpl in Hrun.
    rewrite (IH el1 el' k Hrun) by (intros a Ha; apply Hs; by right).
    destruct (Hs x) as [H1 H2]; [by left |].
    by apply (bind_attr_other valid_name html h window data fuel attribute
                el el1 x).
Qed.

Lemma for_each_keeps (attrs : list string) : ∀ (el el' : element) k,
  for_each body attrs el = Ok el' → is_Some (el !! k) → is_Some (el' !! k).
Proof.
  induction attrs as [|x xs IH]; intros el el' k Hrun Hk; simpl in Hrun.
  - by injection Hrun as <-.
  - destruct (body el x) as [el1| |] eqn:Hx; try done. simpl in Hrun.
    apply (IH el1 el' k Hrun).
    by apply (bind_attr_keeps valid_name html h window data fuel attribute
                el el1 x).
Qed.

(** A saved template stays as it is. *)
Lemma bind_attr_keeps_saved (el el' : element) (a b t : string) :
  el !! key (saved a) = Some t → body el b = Ok el' →
  key b ≠ key (saved a) → el' !! key (saved a) = Some t.
Proof.
  intros Hs [[_ ->] | (t' & v & n & Ht & _ & _ & ->)]%bind_attr_inv Hb;
    [done |].
  rewrite lookup_insert_ne by done.
  destruct (decide (key (saved b) = key (saved a))) as [Heq | Hne].
  - rewrite Heq, lookup_insert_eq.
    unfold template_of, getAttribute in Ht. rewrite Heq, Hs in Ht. done.
  - by rewrite lookup_insert_ne.
Qed.

Lemma for_each_keeps_saved (attrs : list string) : ∀ (el el' : element) a t,
  el !! key (saved a) = Some t → for_each body attrs el = Ok el' →
  (∀ b, b ∈ attrs → key b ≠ key (saved a)) →
  el' !! key (saved a) = Some t.
Proof.
  induction attrs as [|x xs IH]; intros el el' a t Hs Hrun Hfree;
    simpl in Hrun.
  - by injection Hrun as <-.
  - destruct (body el x) as [el1| |] eqn:Hx; try done. simpl in Hrun.
    apply (IH el1 el' a t); [| done |].
    + apply (bind_attr_keeps_saved el el1 a x); [done | done |].
      apply Hfree. by left.
    + intros b Hb. apply Hfree. by right.
Qed.

Lemma for_each_saves (attrs : list string) : ∀ (el el' : element) a t,
  for_each body attrs el = Ok el' →
  (∀ a b, a ∈ attrs → b ∈ attrs → key (saved a) ≠ key b) →
  a ∈ attrs → template el a = Some t →
  el' !! key (saved a) = Some t.
Proof.
  induction attrs as [|x xs IH]; intros el el' a t Hrun Hfree Ha Ht.
  - by apply elem_of_nil in Ha.
  - simpl in Hrun.
    destruct (body el x) as [el1| |] eqn:Hx; try done. simpl in Hrun.
    destruct (decide (key a = key x)) as [Hk | Hne].
    + apply (for_each_keeps_saved xs el1 el'); [| done |].
      * rewrite (template_key el a x Hk) in Ht.
        rewrite (key_saved_eq html attribute a x Hk).
        apply bind_attr_inv in Hx
          as [[Hnone _] | (t' & v & n & Ht' & _ & _ & ->)]; [congruence |].
        rewrite Ht in Ht'. injection Ht' as <-.
        rewrite lookup_insert_ne by (symmetry; apply key_saved_ne_attr).
        apply lookup_insert_eq.
      * intros b Hb Heq. apply (Hfree a b); [done | by right | done].
    + apply elem_of_cons in Ha as [-> | Ha]; [done |].
      apply (IH el1 el' a t); [done | | done |].
      * intros c d Hc Hd. apply Hfree; by right.
      * unfold template_of, getAttribute in *.
        rewrite (bind_attr_other valid_name html h window data fuel attribute
                   el el1 x (key (saved a)) Hx),
          (bind_attr_other valid_name html h window data fuel attribute
             el el1 x (key a) Hx); [done | done | | |].
        -- intros Heq. apply (Hfree x a); [by left | by right | done].
        -- apply Hfree; [by right | by left].
        -- intros Heq. by apply key_saved_inj in Heq.
Qed.

End rebinding.

(** C9, amended.  Names being compared as the element stores them (in
    lower case on an HTML element): when the attribute that lists the
    targets is not a target itself and no target is the saved name of a
    target, the first call keeps every template it parses under
    [attribute-attr], and a second call with the same element, attribute
    and data parses those templates again and leaves every attribute as
    the first call left it. *)
Theorem bindAttrTmpl_idempotent (valid_name : string -> bool) (html : bool)
    (h : heap) (window : loc) (data : val)
    (fuel : nat) (attribute : string) (el el1 : element)
    (attrs : list string) :
  bind_targets html el attribute = Some attrs →
  (∀ a, a ∈ attrs → attribute_key html a ≠ attribute_key html attribute) →
  (∀ a b, a ∈ attrs → b ∈ attrs →
     attribute_key html (saved_name attribute a) ≠ attribute_key html b) →
  bindAttrTmpl valid_name html fuel h window el attribute data = Ok el1 →
  bindAttrTmpl valid_name html fuel h window el1 attribute data = Ok el1
  ∧ ∀ a t, a ∈ attrs → template_of html el attribute a = Some t →
      getAttribute html el1 (attribute +:+ "-" +:+ a) = Some t
      ∧ template_of html el1 attribute a = Some t.
Proof.
  intros Htargets Hself Hfree Hcall.
  unfold bindAttrTmpl in Hcall. rewrite Htargets in Hcall.
  assert (bind_targets html el1 attribute = Some attrs) as Htargets1.
  { unfold bind_targets, getAttribute in *.
    rewrite (for_each_other valid_name html h window data fuel attribute
               attrs el el1); [done | done |].
    intros a Ha. split.
    - intros Heq. by apply (Hself a).
    - intros Heq. by apply (key_saved_ne_attribute html attribute a). }
  split.
  - unfold bindAttrTmpl. rewrite Htargets1.
    apply for_each_fixed. by apply (for_each_settles _ _ _ _ _ _ _ attrs el).
  - intros a t Ha Ht.
    assert (el1 !! attribute_key html (saved_name attribute a) = Some t)
      as Hsaved
      by (by apply (for_each_saves valid_name html h window data fuel
                      attribute attrs el)).
    split; [exact Hsaved |].
    unfold template_of, getAttribute. by rewrite Hsaved.
Qed.

Lemma bindAttrTmpl_idempotent_witness :
  let h : heap :=
    <[ 10%positive :=
         object_literal [("id", VNum (Decimal false 7 1))] 1%positive ]>
      realm in
  let el : element :=
    {[ "data-bind-attr" := "href, title";
       "href" := "#/item/[id]"; "title" := "Item [id]" ]} in
  let el1 : element :=
    <["title" := "Item 7"]>
      (<["data-bind-attr-title" := "Item [id]"]>
        (<["href" := "#/item/7"]>
          (<["data-bind-attr-href" := "#/item/[id]"]> el))) in
  bindAttrTmpl valid_attribute_local_name true 101 h 20%positive el
    "data-bind-attr" (VObj 10%positive) = Ok el1
  ∧ bindAttrTmpl valid_attribute_local_name true 101 h 20%positive el1
      "data-bind-attr" (VObj 10%positive) = Ok el1
  ∧ getAttribute true el1 "data-bind-attr-href" = Some "#/item/[id]".
Proof.
  intros h el el1.
  assert (bindAttrTmpl valid_attribute_local_name true 101 h 20%positive el
            "data-bind-attr" (VObj 10%positive) = Ok el1) as Hcall
    by (vm_compute; reflexivity).
  destruct (bindAttrTmpl_idempotent valid_attribute_local_name true h
              20%positive (VObj 10%positive) 101
              "data-bind-attr" el el1 ["href"; "title"])
    as [Hagain Hsaved].
  - vm_compute; reflexivity.
  - intros a. rewrite !elem_of_cons, elem_of_nil. by intros [-> | [-> | ?]].
  - intros a b. rewrite !elem_of_cons, !elem_of_nil.
    by intros [-> | [-> | ?]] [-> | [-> | ?]].
  - exact Hcall.
  - split; [exact Hcall |]. split; [exact Hagain |].
    apply (Hsaved "href" "#/item/[id]"); [by left |].
    vm_compute; reflexivity.
Defined.

(** C9 as stated fails when a saved name is itself a target: the second
    call parses what the first call wrote there. *)
Lemma bindAttrTmpl_rebinding_differs :
  let h : heap :=
    <[ 10%positive :=
         object_literal [("id", VNum (Decimal false 7 1))] 1%positive ]>
      realm in
  let el : element :=
    {[ "data-bind-attr" := "href, data-bind-attr-href";
       "href" := "/[id]";
       "data-bind-attr-data-bind-attr-href" := "/saved" ]} in
  let el1 : element :=
    <["data-bind-attr-href" := "/saved"]> (<["href" := "/7"]> el) in
  let el2 : element := <["href" := "/saved"]> el1 in
  bindAttrTmpl valid_attribute_local_name true 101 h 20%positive el
    "data-bind-attr" (VObj 10%positive) = Ok el1
  ∧ bindAttrTmpl valid_attribute_local_name true 101 h 20%positive el1
      "data-bind-attr" (VObj 10%positive) = Ok el2
  ∧ getAttribute true el1 "href" = Some "/7"
  ∧ getAttribute true el2 "href" = Some "/saved".
Proof.
  intros h el el1 el2.
  split; [vm_compute; reflexivity |].
  split; [vm_compute; reflexivity |].
  split; vm_compute; reflexivity.
Qed.

(** On an HTML element the same happens when the target is the saved
    name in another case. *)
Lemma bindAttrTmpl_rebinding_differs_by_case :
  let h : heap :=
    <[ 10%positive :=
         object_literal [("id", VNum (Decimal false 7 1))] 1%positive ]>
      realm in
  let el : element :=
    {[ "data-bind-attr" := "href, DATA-BIND-ATTR-HREF";
       "href" := "/[id]";
       "data-bind-attr-data-bind-attr-href" := "/saved" ]} in
  let el1 : element :=
    <["data-bind-attr-href" := "/saved"]> (<["href" := "/7"]> el) in
  let el2 : element := <["href" := "/saved"]> el1 in
  bindAttrTmpl valid_attribute_local_name true 101 h 20%positive el
    "data-bind-attr" (VObj 10%positive) = Ok el1
  ∧ bindAttrTmpl valid_attribute_local_name true 101 h 20%positive el1
      "data-bind-attr" (VObj 10%positive) = Ok el2
  ∧ getAttribute true el1 "href" = Some "/7"
  ∧ getAttribute true el2 "href" = Some "/saved".
Proof.
  intros h el el1 el2.
  split; [vm_compute; reflexivity |].
  split; [vm_compute; reflexivity |].
  split; vm_compute; reflexivity.
Qed.

(** When the binding attribute lists itself, binding may rewrite the list
    of targets: here the second call binds [title], which the first call
    did not touch. *)
Lemma bindAttrTmpl_rebinding_new_target :
  let h : heap :=
    <[ 10%positive :=
         object_literal [("id", VNum (Decimal false 7 1));
                         ("more", VStr "title")] 1%positive ]>
      realm in
  let el : element :=
    {[ "data-bind-attr" := "data-bind-attr, [more]"; "title" := "Item [id]" ]} in
  let el1 : element :=
    <["data-bind-attr" := "data-bind-attr, title"]>
      (<["data-bind-attr-data-bind-attr" := "data-bind-attr, [more]"]> el) in
  let el2 : element :=
    <["title" := "Item 7"]> (<["data-bind-attr-title" := "Item [id]"]> el1) in
  bindAttrTmpl valid_attribute_local_name true 101 h 20%positive el
    "data-bind-attr" (VObj 10%positive) = Ok el1
  ∧ bindAttrTmpl valid_attribute_local_name true 101 h 20%positive el1
      "data-bind-attr" (VObj 10%positive) = Ok el2
  ∧ getAttribute true el1 "title" = Some "Item [id]"
  ∧ getAttribute true el2 "title" = Some "Item 7".
Proof.
  intros h el el1 el2.
  split; [vm_compute; reflexivity |].
  split; [vm_compute; reflexivity |].
  split; vm_compute; reflexivity.
Qed.

(** ** Attachment to the document *)

Section attachment.
Variables (parentNode : gmap nat nat) (document : nat).

Lemma ancestor_succ k x :
  ancestor parentNode (S k) x = parentNode !! x ≫= ancestor parentNode k.
Proof. done. Qed.

(** The loop answers whether the document is met one link or more above
    the node it starts from. *)
Lemma attached_loop_spec (fuel : nat) : ∀ (node : option nat) (depth : nat),
  node ≫= ancestor parentNode depth = None →
  (depth < fuel)%nat →
  ∃ b, attached_loop fuel parentNode document node = Some b
       ∧ (b = true ↔
          ∃ k, (1 ≤ k)%nat ∧ node ≫= ancestor parentNode k = Some document).
Proof.
  induction fuel as [|fuel IH]; intros node depth Hend Hfuel; [lia |].
  destruct node as [n|]; simpl.
  - destruct depth as [|depth]; [done |].
    simpl in Hend.
    case_bool_decide as Hdoc.
    + exists true. split; [done |]. split; [|done]. intros _.
      exists 1%nat. split; [done |]. simpl. by rewrite Hdoc.
    + destruct (IH (parentNode !! n) depth Hend ltac:(lia)) as (b & Hb & Hiff).
      exists b. split; [done |]. rewrite Hiff. split.
      * intros (k & Hk & Hup). exists (S k). split; [lia |]. done.
      * intros ([|k] & Hk & Hup); [lia |]. simpl in Hup.
        destruct k as [|k].
        -- simpl in Hup. destruct (parentNode !! n); by simplify_eq/=.
        -- exists (S k). split; [lia | done].
  - exists false. split; [done |]. split; [done |].
    by intros (k & _ & Hk).
Qed.

End attachment.

(** C10.  On a finite parent chain [isAttachedToDom] returns, and it
    returns [true] exactly when the document is reached from the element
    by two [parentNode] links or more; an element whose parent is the
    document (itself without parent) gets [false]. *)
Theorem isAttachedToDom_from_grandparent (parentNode : gmap nat nat)
    (document element : nat) (depth fuel : nat) :
  ancestor parentNode depth element = None →
  (depth ≤ fuel)%nat →
  ∃ b, isAttachedToDom fuel parentNode document element = Some b
       ∧ (b = true ↔
          ∃ k, (2 ≤ k)%nat ∧ ancestor parentNode k element = Some document)
       ∧ (parentNode !! element = Some document →
          parentNode !! document = None → b = false).
Proof.
  intros Hend Hfuel. destruct depth as [|depth]; [done |].
  rewrite ancestor_succ in Hend.
  destruct (attached_loop_spec parentNode document fuel
              (parentNode !! element) depth Hend ltac:(lia))
    as (b & Hb & Hiff).
  assert (b = true ↔
          ∃ k, (2 ≤ k)%nat ∧ ancestor parentNode k element = Some document)
    as Hiff2.
  { rewrite Hiff. split.
    - intros (k & Hk & Hup). exists (S k). split; [lia | done].
    - intros ([|k] & Hk & Hup); [lia |]. exists k. split; [lia | done]. }
  exists b. split; [done |]. split; [done |].
  intros Hparent Hroot. destruct b; [|done]. exfalso.
  destruct (proj1 Hiff2 eq_refl) as ([|[|k]] & Hk & Hup); [lia | lia |].
  rewrite ancestor_succ, Hparent in Hup. simpl in Hup.
  by rewrite Hroot in Hup.
Qed.

(** A page of three nodes: document 0, [html] 1 and [body] 2. *)
Lemma isAttachedToDom_from_grandparent_witness :
  let parentNode : gmap nat nat := {[ 1%nat := 0%nat; 2%nat := 1%nat ]} in
  isAttachedToDom 3 parentNode 0 2 = Some true
  ∧ isAttachedToDom 3 parentNode 0 1 = Some false
  ∧ ∃ b, isAttachedToDom 2 parentNode 0 1 = Some b
         ∧ (b = true ↔
            ∃ k, (2 ≤ k)%nat ∧ ancestor parentNode k 1 = Some 0%nat)
         ∧ (parentNode !! 1%nat = Some 0%nat →
            parentNode !! 0%nat = None → b = false).
Proof.
  intros parentNode. split; [done |]. split; [done |].
  apply (isAttachedToDom_from_grandparent parentNode 0 1 2 2); [done | lia].
Defined.

(** ** The capability probe *)

Section probing.

Lemma probe_runs_app (p : page) (ops : list dom_op) (q : page) :
  trace q = trace p ++ ops →
  probe_runs q
  = (probe_runs p + length (filter (fun op => op = InsertProbe) ops))%nat.
Proof. unfold probe_runs. intros ->. by rewrite filter_app, length_app. Qed.

Lemma run_setup_no_probe (pf : polyfill) (target : nat) :
  filter (fun op => op = InsertProbe) (run_setup pf target) = [].
Proof. unfold run_setup. by destruct (pf_setup_throws pf target). Qed.

Lemma setups_no_probe (rootElement : string -> list nat)
    (polyfills : list polyfill) :
  filter (fun op => op = InsertProbe)
    (polyfills ≫= (fun pf =>
       rootElement (polyfill_selector pf) ≫= run_setup pf)) = [].
Proof.
  induction polyfills as [|pf pfs IH]; [done |].
  rewrite bind_cons, filter_app, IH, app_nil_r.
  induction (rootElement (polyfill_selector pf)) as [|x xs IHx]; [done |].
  by rewrite bind_cons, filter_app, IHx, run_setup_no_probe.
Qed.

(** Applying the polyfills reads the cached answer and inserts no probe. *)
Lemma apply_polyfills_keeps (rootElement : string -> list nat) (p : page) :
  polyfillIsNeeded (apply_polyfills rootElement p) = polyfillIsNeeded p
  ∧ customElements (apply_polyfills rootElement p) = customElements p
  ∧ probe_runs (apply_polyfills rootElement p) = probe_runs p.
Proof.
  unfold apply_polyfills.
  destruct (polyfillIsNeeded p) as [[|]|] eqn:Hneeded; try done.
  destruct (webComponentPolyfills p) as [polyfills|]; [|done].
  simpl. split; [done |]. split; [done |].
  erewrite (probe_runs_app p); [|done].
  rewrite setups_no_probe. simpl. lia.
Qed.

Lemma probe_sets (p : page) :
  (∃ b, polyfillIsNeeded (probe p) = Some b)
  ∧ probe_runs (probe p) = S (probe_runs p).
Proof.
  unfold probe.
  destruct (customElements p !! probe_name); simpl.
  - split; [by eexists |].
    erewrite (probe_runs_app p); [|done]. simpl. lia.
  - split; [by eexists |].
    erewrite (probe_runs_app p); [|done]. simpl. lia.
Qed.

(** A call made once the answer is cached. *)
Lemma polyfillCustomElements_cached rootElement (p : page) (b : bool) :
  polyfillIsNeeded p = Some b →
  polyfillIsNeeded (polyfillCustomElements rootElement p) = Some b
  ∧ customElements (polyfillCustomElements rootElement p) = customElements p
  ∧ probe_runs (polyfillCustomElements rootElement p) = probe_runs p.
Proof.
  intros Hb. unfold polyfillCustomElements. rewrite Hb.
  destruct (apply_polyfills_keeps rootElement p) as (-> & -> & ->). done.
Qed.

Lemma polyfill_calls_cached roots : ∀ (p : page) (b : bool),
  polyfillIsNeeded p = Some b →
  polyfillIsNeeded (polyfill_calls roots p) = Some b
  ∧ customElements (polyfill_calls roots p) = customElements p
  ∧ probe_runs (polyfill_calls roots p) = probe_runs p.
Proof.
  induction roots as [|root roots IH]; intros p b Hb; [done |].
  destruct (polyfillCustomElements_cached root p b Hb) as (H1 & H2 & H3).
  destruct (IH _ b H1) as (H4 & H5 & H6).
  unfold polyfill_calls in *. simpl. by rewrite H4, H5, H6.
Qed.

End probing.

(** C3.  Starting with [polyfillIsNeeded] at [null], the first call runs
    the probe once and sets the variable to a boolean; whatever calls
    follow, with whatever root elements, keep that boolean, define no
    further element and insert no further probe. *)
Theorem polyfill_probe_runs_once (p : page)
    (rootElement : string -> list nat) (roots : list (string -> list nat)) :
  polyfillIsNeeded p = None →
  ∃ b : bool,
    polyfillIsNeeded (polyfillCustomElements rootElement p) = Some b
    ∧ probe_runs (polyfillCustomElements rootElement p) = S (probe_runs p)
    ∧ polyfillIsNeeded
        (polyfill_calls roots (polyfillCustomElements rootElement p)) = Some b
    ∧ customElements
        (polyfill_calls roots (polyfillCustomElements rootElement p))
      = customElements (polyfillCustomElements rootElement p)
    ∧ probe_runs (polyfill_calls roots (polyfillCustomElements rootElement p))
      = S (probe_runs p).
Proof.
  intros Hnull.
  destruct (probe_sets p) as [[b Hb] Hruns].
  assert (polyfillIsNeeded (polyfillCustomElements rootElement p) = Some b
          ∧ probe_runs (polyfillCustomElements rootElement p)
            = S (probe_runs p)) as [Hfirst Hcount].
  { unfold polyfillCustomElements. rewrite Hnull.
    destruct (apply_polyfills_keeps rootElement (probe p)) as (-> & _ & ->).
    done. }
  destruct (polyfill_calls_cached roots _ b Hfirst) as (H1 & H2 & H3).
  exists b. by rewrite H1, H2, H3, Hcount.
Qed.

(** A browser that does not upgrade [<div is="...">], one registered
    polyfill, three calls. *)
Lemma polyfill_probe_runs_once_witness :
  let p := {| polyfillIsNeeded := None; customElements := ∅;
              next_class := 0; upgrades_builtins := false;
              webComponentPolyfills :=
                Some [ {| pf_element := "input-filter";
                          pf_extendsElement := "input";
                          pf_setup_throws := fun _ => false |} ];
              trace := [] |} in
  let root : string -> list nat := fun _ => [4%nat; 5%nat] in
  ∃ b : bool,
    polyfillIsNeeded (polyfillCustomElements root p) = Some b
    ∧ probe_runs (polyfillCustomElements root p) = 1%nat
    ∧ polyfillIsNeeded
        (polyfill_calls [root; root] (polyfillCustomElements root p)) = Some b
    ∧ customElements
        (polyfill_calls [root; root] (polyfillCustomElements root p))
      = customElements (polyfillCustomElements root p)
    ∧ probe_runs (polyfill_calls [root; root] (polyfillCustomElements root p))
      = 1%nat.
Proof.
  intros p root.
  apply (polyfill_probe_runs_once p root [root; root]). done.
Defined.

(** ** Readiness polling *)

Section polling.

Lemma finished_stays (st : poller) (ev : poll_event) :
  finished st → deliver st ev = st.
Proof. intros (Ha & Hi & _). destruct ev; simpl; by rewrite ?Ha, ?Hi. Qed.

Lemma finished_stays_all (evs : list poll_event) (st : poller) :
  finished st → deliver_all st evs = st.
Proof.
  intros Hf. induction evs as [|ev evs IH]; [done |].
  unfold deliver_all in *. simpl. by rewrite finished_stays.
Qed.

(** One firing of the timer while polling. *)
Lemma timer_fires (st : poller) (notSetup : nat) :
  polling st →
  let st' := deliver st (TimerFires notSetup) in
  loopCount st' = loopCount st + 1
  ∧ if bool_decide (notSetup = 0%nat) || (loopCount st >? maxLoops)
    then finished st' else polling st'.
Proof.
  intros (Ha & Hi & Hr). simpl. rewrite Hi. unfold on_interval.
  case_bool_decide; simpl; [done |].
  destruct (loopCount st >? maxLoops); simpl; done.
Qed.

(** While polling with the counter at [c], the promise is resolved after
    the given polls exactly when one of them found no element or the
    counter has been seen above [maxLoops]. *)
Lemma deliver_all_cons (st : poller) (x : nat) (obs : list nat) :
  deliver_all st (TimerFires <$> x :: obs)
  = deliver_all (deliver st (TimerFires x)) (TimerFires <$> obs).
Proof. done. Qed.

Lemma polling_resolves (obs : list nat) : ∀ (st : poller),
  polling st → 0 ≤ loopCount st ≤ maxLoops + 1 →
  (resolved (deliver_all st (TimerFires <$> obs)) = true ↔
     0%nat ∈ obs ∨ maxLoops + 2 - loopCount st ≤ Z.of_nat (length obs))
  ∧ (resolved (deliver_all st (TimerFires <$> obs)) = true →
     finished (deliver_all st (TimerFires <$> obs)))
  ∧ (resolved (deliver_all st (TimerFires <$> obs)) = false →
     polling (deliver_all st (TimerFires <$> obs))).
Proof.
  induction obs as [|x obs IH]; intros st Hpoll Hc.
  - pose proof Hpoll as (Ha & Hi & Hr). unfold deliver_all. simpl. rewrite Hr.
    split; [|done]. split; [done |].
    rewrite elem_of_nil. unfold maxLoops in *. lia.
  - destruct (timer_fires st x Hpoll) as [Hcount Hnext].
    rewrite deliver_all_cons.
    set (st' := deliver st (TimerFires x)) in *.
    destruct (bool_decide (x = 0%nat) || (loopCount st >? maxLoops)) eqn:Hstop.
    + rewrite (finished_stays_all _ st' Hnext).
      pose proof Hnext as (_ & _ & Hres). rewrite Hres.
      split; [|done]. split; [|done]. intros _.
      apply orb_true_iff in Hstop as [Hx | Hover].
      * left. apply bool_decide_eq_true in Hx as ->. by left.
      * right. apply Z.gtb_lt in Hover. simpl length. lia.
    + apply orb_false_iff in Hstop as [Hx Hover].
      apply bool_decide_eq_false in Hx.
      assert (loopCount st ≤ maxLoops) as Hle.
      { destruct (Z.gtb_spec (loopCount st) maxLoops); [done | lia]. }
      destruct (IH st' Hnext ltac:(lia)) as (Hiff & Hfin & Hpol).
      split; [|done]. rewrite Hiff, Hcount, elem_of_cons.
      simpl length. split; intros [H0 | Hlen]; try (right; lia).
      * left. by right.
      * destruct H0 as [H0 | H0]; [by symmetry in H0 | by left].
Qed.

End polling.

(** C4, amended.  Once the components that were undefined are defined
    (at once when there are none) the promise polls every 10 ms; it is
    resolved after the given polls exactly when one of them found no
    [not-setup] element or 1002 polls have run, the last of them with the
    counter above 1000.  Resolving clears the timer, and nothing changes
    afterwards. *)
Theorem componentsAreSetup_polling_resolves (undefinedComponents : nat)
    (obs : list nat) :
  let started :=
    deliver (componentsAreSetup undefinedComponents) DefinitionsSettled in
  let final := deliver_all started (TimerFires <$> obs) in
  interval started = Some 10
  ∧ componentsAreSetup 0 = started
  ∧ (resolved final = true ↔ 0%nat ∈ obs ∨ (1002 ≤ length obs)%nat)
  ∧ (resolved final = true →
     interval final = None ∧ ∀ ev, deliver final ev = final).
Proof.
  intros started final.
  assert (started = componentsAreSetup 0) as Hstart.
  { subst started. unfold componentsAreSetup. by case_bool_decide. }
  assert (polling started) as Hpoll by (by rewrite Hstart).
  destruct (polling_resolves obs started Hpoll) as (Hiff & Hfin & _).
  { rewrite Hstart. simpl. unfold maxLoops. lia. }
  split; [by rewrite Hstart |]. split; [done |].
  split.
  - subst final. rewrite Hiff, Hstart. simpl. unfold maxLoops.
    split; intros [H | H]; auto; right; lia.
  - intros Hres. specialize (Hfin Hres). split; [apply Hfin |].
    intros ev. by apply finished_stays.
Qed.

(** With [not-setup] elements that stay, 1001 polls leave the promise
    pending and the next one resolves it. *)
Lemma componentsAreSetup_timeout :
  resolved (deliver_all (componentsAreSetup 0)
              (TimerFires <$> replicate 1001 1%nat)) = false
  ∧ resolved (deliver_all (componentsAreSetup 0)
                (TimerFires <$> replicate 1002 1%nat)) = true.
Proof. by vm_compute. Qed.

(** C4 as stated fails: with a component that is never defined the timer
    is never set, and no number of polls resolves the promise. *)
Lemma componentsAreSetup_waits_for_definitions :
  ¬ ∃ obs : list nat,
      resolved (deliver_all (componentsAreSetup 1) (TimerFires <$> obs))
      = true.
Proof.
  intros [obs Hres].
  assert (deliver_all (componentsAreSetup 1) (TimerFires <$> obs)
          = componentsAreSetup 1) as Hsame.
  { clear Hres. induction obs as [|x obs IH]; [done |]. exact IH. }
  by rewrite Hsame in Hres.
Qed.

(** ** The animation observer *)

Section animation.

Lemma classList_add_valid (token : string) (cl : list string) :
  valid_token token = true →
  classList_add token cl
  = Ok (if bool_decide (token ∈ cl) then cl else cl ++ [token]).
Proof.
  unfold valid_token, classList_add.
  intros [H1 H2]%andb_true_iff.
  apply negb_true_iff in H1, H2. by rewrite H1, H2.
Qed.

Lemma classList_add_invalid (token : string) (cl : list string) :
  valid_token token = false →
  ∃ e, classList_add token cl = Throw e.
Proof.
  unfold valid_token, classList_add. intros H.
  destruct (String.eqb token EmptyString); [by eexists |].
  destruct (JsString.has_ascii_whitespace token); [by eexists | done].
Qed.

Lemma classList_add_ok (token : string) (cl cl' : list string) :
  classList_add token cl = Ok cl' → valid_token token = true.
Proof.
  unfold valid_token, classList_add.
  destruct (String.eqb token EmptyString); [done |].
  by destruct (JsString.has_ascii_whitespace token).
Qed.

Lemma add_animate_class_again (n : dom_node) :
  add_animate_class (add_animate_class n) = add_animate_class n.
Proof.
  destruct n as [a cl]. unfold add_animate_class, animate_class. simpl.
  set (c := match a !! "data-animate" with Some name => name | None => "null" end).
  destruct (bool_decide (c ∈ cl)) eqn:H; simpl; rewrite ?H; [done |].
  rewrite bool_decide_eq_true_2; [done |].
  apply elem_of_app. right. by left.
Qed.

Lemma node_of_insert (st : observing) (x y : nat) (n : dom_node)
    (ts : gset nat) :
  node_of {| nodes := <[x := n]> (nodes st); targets := ts |} y
  = if bool_decide (y = x) then n else node_of st y.
Proof.
  unfold node_of. simpl. case_bool_decide as H.
  - subst. by rewrite lookup_insert_eq.
  - by rewrite lookup_insert_ne.
Qed.

(** What a round does when the class is a valid token. *)
Lemma on_entry_valid (st : observing) (e : entry) :
  isIntersecting e = true →
  valid_token (animate_class (node_of st (target e))) = true →
  on_entry st e
  = Ok {| nodes := <[target e := add_animate_class (node_of st (target e))]>
                     (nodes st);
          targets := targets st ∖ {[target e]} |}.
Proof.
  intros Hint Hvalid. unfold on_entry. rewrite Hint.
  by rewrite classList_add_valid.
Qed.

Lemma on_entry_ok (st st' : observing) (e : entry) :
  on_entry st e = Ok st' →
  isIntersecting e = true →
  valid_token (animate_class (node_of st (target e))) = true.
Proof.
  unfold on_entry. intros H Hint. rewrite Hint in H.
  destruct (classList_add _ _) as [cl| |] eqn:Hadd; try done.
  by apply classList_add_ok in Hadd.
Qed.

Lemma intersects_cons (x : nat) (e : entry) (entries : list entry) :
  intersects x (e :: entries)
  ↔ (isIntersecting e = true ∧ target e = x) ∨ intersects x entries.
Proof. apply Exists_cons. Qed.

(** A callback whose classes are valid tokens completes; it has given
    every element that came with an intersecting entry its class, once,
    and stopped observing it, and left the other elements alone. *)
Lemma callback_spec (entries : list entry) : ∀ st,
  (∀ e, e ∈ entries → isIntersecting e = true →
     valid_token (animate_class (node_of st (target e))) = true) →
  ∃ st1,
    observer_callback entries st = (st1, Ok tt)
    ∧ (∀ x, x ∈ targets st1 ↔ x ∈ targets st ∧ ¬ intersects x entries)
    ∧ (∀ x, intersects x entries →
         nodes st1 !! x = Some (add_animate_class (node_of st x)))
    ∧ (∀ x, ¬ intersects x entries → nodes st1 !! x = nodes st !! x).
Proof.
  induction entries as [|e entries IH]; intros st Hvalid.
  - exists st. split; [done |]. split.
    + intros x. split; [intros H; split; [done | by intros ?%Exists_nil] |].
      by intros [? _].
    + split; [by intros x ?%Exists_nil | done].
  - simpl. destruct (isIntersecting e) eqn:Hint.
    + rewrite on_entry_valid by (done || (apply Hvalid; [by left | done])).
      set (st0 := {| nodes := _; targets := _ |}).
      assert (∀ y, node_of st0 y
                = if bool_decide (y = target e)
                  then add_animate_class (node_of st (target e))
                  else node_of st y) as Hnode
        by (intros y; apply node_of_insert).
      assert (∀ y, animate_class (node_of st0 y) = animate_class (node_of st y))
        as Hclass.
      { intros y. rewrite Hnode. case_bool_decide as Hy; [by subst | done]. }
      destruct (IH st0) as (st1 & Hrun & Htargets & Hhit & Hmiss).
      { intros e' He' Hint'. rewrite Hclass. apply Hvalid; [by right | done]. }
      exists st1. split; [done |]. split; [| split].
      * intros x. rewrite Htargets, intersects_cons. simpl.
        rewrite elem_of_difference, elem_of_singleton. split.
        -- intros [[H1 H2] H3]. split; [done |].
           intros [[_ H4] | H4]; [by apply H2 | by apply H3].
        -- intros [H1 H2]. split; [split; [done |] |].
           ++ intros ->. apply H2. by left.
           ++ intros H3. apply H2. by right.
      * intros x Hx. destruct (decide (intersects x entries)) as [Hin | Hout].
        -- rewrite (Hhit x Hin), Hnode. case_bool_decide as Hy; [|done].
           subst. by rewrite add_animate_class_again.
        -- apply intersects_cons in Hx as [[_ <-] | Hx]; [|done].
           rewrite (Hmiss _ Hout). simpl. by rewrite lookup_insert_eq.
      * intros x Hx. rewrite intersects_cons in Hx.
        rewrite Hmiss by tauto. simpl.
        apply lookup_insert_ne. intros <-. apply Hx. by left.
    + unfold on_entry at 1. rewrite Hint.
      destruct (IH st) as (st1 & Hrun & Htargets & Hhit & Hmiss).
      { intros e' He' Hint'. apply Hvalid; [by right | done]. }
      exists st1. split; [done |]. split; [| split].
      * intros x. rewrite Htargets, intersects_cons. split.
        -- intros [H1 H2]. split; [done |].
           intros [[H3 _] | H3]; [congruence | done].
        -- intros [H1 H2]. split; [done |].
           intros H3. apply H2. by right.
      * intros x [[Hx _] | Hx]%intersects_cons; [congruence | by apply Hhit].
      * intros x Hx. apply Hmiss. intros Hin. apply Hx.
        apply intersects_cons. by right.
Qed.

(** A callback that completes had valid tokens to add. *)
Lemma callback_ok_valid (entries : list entry) : ∀ st,
  (observer_callback entries st).2 = Ok tt →
  ∀ e, e ∈ entries → isIntersecting e = true →
    valid_token (animate_class (node_of st (target e))) = true.
Proof.
  induction entries as [|e entries IH]; intros st Hok e' He' Hint.
  - by apply elem_of_nil in He'.
  - simpl in Hok. destruct (on_entry st e) as [st0| |] eqn:Hentry; try done.
    apply elem_of_cons in He' as [-> | He'].
    + by apply (on_entry_ok st st0).
    + specialize (IH st0 Hok e' He' Hint).
      destruct (isIntersecting e) eqn:Hinte.
      * rewrite on_entry_valid in Hentry
          by (done || by apply (on_entry_ok st st0)).
        injection Hentry as <-. rewrite node_of_insert in IH.
        case_bool_decide as Hy; [|done]. by rewrite Hy.
      * unfold on_entry in Hentry. rewrite Hinte in Hentry.
        by injection Hentry as <-.
Qed.

(** Whatever way the callback ends, it leaves alone the elements no
    entry names, and it observes nothing new. *)
Lemma callback_untouched (entries : list entry) (x : nat) : ∀ st,
  (∀ e, e ∈ entries → target e ≠ x) →
  nodes (observer_callback entries st).1 !! x = nodes st !! x
  ∧ (x ∈ targets (observer_callback entries st).1 ↔ x ∈ targets st).
Proof.
  induction entries as [|e entries IH]; intros st Hx; [done |].
  simpl. destruct (on_entry st e) as [st0| |] eqn:Hentry; [|done..].
  destruct (IH st0) as [Hn Ht]; [intros e' He'; apply Hx; by right |].
  rewrite Hn, Ht. unfold on_entry in Hentry.
  assert (target e ≠ x) as Hne by (apply Hx; by left).
  destruct (isIntersecting e); [|by injection Hentry as <-].
  destruct (classList_add _ _) as [cl| |]; try done.
  injection Hentry as <-. simpl.
  rewrite lookup_insert_ne by done.
  rewrite elem_of_difference, elem_of_singleton.
  split; [done |]. split; [by intros [? _] |].
  intros H. split; [done |]. intros Heq. by apply Hne.
Qed.

Lemma deliver_batch_inv (st st' : observing) (entries : list entry) :
  deliver_batch st entries = Some st' →
  Forall (fun e => target e ∈ targets st) entries
  ∧ st' = (observer_callback entries st).1.
Proof.
  unfold deliver_batch. case_bool_decide; [|done]. by intros [= <-].
Qed.

(** An element that is no target is in no later batch and stays as it
    is. *)
Lemma unobserved_untouched (batches : list (list entry)) : ∀ st st' x,
  deliveries st batches = Some st' →
  x ∉ targets st →
  (∀ b e, b ∈ batches → e ∈ b → target e ≠ x)
  ∧ (x ∉ targets st')
  ∧ nodes st' !! x = nodes st !! x.
Proof.
  induction batches as [|b batches IH]; intros st st' x Hrun Hx.
  - injection Hrun as <-. split; [|done]. by intros b e ?%elem_of_nil.
  - simpl in Hrun. destruct (deliver_batch st b) as [st1|] eqn:Hb; [|done].
    simpl in Hrun. apply deliver_batch_inv in Hb as [Hall ->].
    assert (∀ e, e ∈ b → target e ≠ x) as Hfree.
    { intros e He <-. rewrite Forall_forall in Hall. by apply Hx, Hall. }
    destruct (callback_untouched b x st Hfree) as [Hn Ht].
    destruct (IH _ st' x Hrun) as (Hlater & Hgone & Hsame); [by rewrite Ht |].
    split; [| split; [done | by rewrite Hsame]].
    intros b' e [-> | Hb']%elem_of_cons He; [by apply Hfree | by eapply Hlater].
Qed.

End animation.

(** C5, amended.  Let the [data-animate] values of the observed elements
    be valid class tokens.  Then the callback completes on a batch; an
    element that comes with an intersecting entry is given the class its
    [data-animate] names and is observed no longer.  Hence, over the
    batches the observer delivers, no later batch holds an entry for the
    element, it is never a target again, and its class list ends as the
    one it had with the class put in once, however many entries the
    first batch held for it. *)
Theorem animation_class_added_once (st st' : observing)
    (entries : list entry) (batches : list (list entry)) (e : entry)
    (n : dom_node) :
  e ∈ entries →
  isIntersecting e = true →
  nodes st !! target e = Some n →
  (∀ x, x ∈ targets st →
     valid_token (animate_class (node_of st x)) = true) →
  deliveries st (entries :: batches) = Some st' →
  (observer_callback entries st).2 = Ok tt
  ∧ has_class (observer_callback entries st).1 (target e) (attrs n)
      (animate_class n)
  ∧ (target e ∉ targets (observer_callback entries st).1)
  ∧ (∀ b e', b ∈ batches → e' ∈ b → target e' ≠ target e)
  ∧ (target e ∉ targets st')
  ∧ nodes st' !! target e
    = Some {| attrs := attrs n;
              classList :=
                if bool_decide (animate_class n ∈ classList n)
                then classList n
                else classList n ++ [animate_class n] |}.
Proof.
  intros Hin Hint Hn Hvalid Hrun. simpl in Hrun.
  destruct (deliver_batch st entries) as [st1|] eqn:Hb; [|done].
  simpl in Hrun. apply deliver_batch_inv in Hb as [Hall ->].
  rewrite Forall_forall in Hall.
  destruct (callback_spec entries st) as (st1 & Hcb & Htargets & Hhit & _).
  { intros e' He' _. apply Hvalid. by apply Hall. }
  rewrite Hcb in *. simpl in *.
  assert (intersects (target e) entries) as Hx.
  { apply Exists_exists. by exists e. }
  assert (node_of st (target e) = n) as Hnode
    by (unfold node_of; by rewrite Hn).
  assert (nodes st1 !! target e = Some (add_animate_class n)) as Hn1
    by (by rewrite (Hhit _ Hx), Hnode).
  assert (target e ∉ targets st1) as Hgone
    by (rewrite Htargets; tauto).
  destruct (unobserved_untouched batches st1 st' (target e) Hrun Hgone)
    as (Hlater & Hgone' & Hsame).
  split; [done |]. split.
  { exists (add_animate_class n). split; [done |]. split; [done |].
    unfold add_animate_class. simpl. case_bool_decide as Hc; [done |].
    apply elem_of_app. right. by left. }
  split; [done |]. split; [done |]. split; [done |].
  by rewrite Hsame, Hn1.
Qed.

(** Two animated elements; the first scrolls into view, out and in again
    before the batch is delivered, then the second scrolls into view. *)
Lemma animation_class_added_once_witness :
  let fade := {| attrs := {[ "data-animate" := "fade-in" ]}; classList := [] |} in
  let st := {| nodes := {[ 1%nat := fade; 2%nat := fade ]};
               targets := {[ 1%nat; 2%nat ]} |} in
  let entries := [ {| isIntersecting := true; target := 1 |};
                   {| isIntersecting := false; target := 1 |};
                   {| isIntersecting := true; target := 1 |};
                   {| isIntersecting := false; target := 2 |} ] in
  let batches := [ [ {| isIntersecting := true; target := 2 |} ] ] in
  ∃ st', deliveries st (entries :: batches) = Some st'
         ∧ nodes st' !! 1%nat
           = Some {| attrs := attrs fade; classList := ["fade-in"] |}
         ∧ 1%nat ∉ targets st'.
Proof.
  intros fade st entries batches.
  assert (∃ st', deliveries st (entries :: batches) = Some st') as [st' Hrun]
    by (eexists; vm_compute; reflexivity).
  destruct (animation_class_added_once st st' entries batches
              {| isIntersecting := true; target := 1 |} fade)
    as (_ & _ & _ & _ & Hgone & Hfinal);
    [by left | done | done | | exact Hrun |].
  - intros x. subst st. simpl. rewrite elem_of_union, !elem_of_singleton.
    by intros [-> | ->].
  - exists st'. split; [exact Hrun |]. split; [exact Hfinal | exact Hgone].
Defined.

(** C5 as stated fails for a [data-animate] value that is no class
    token: [classList.add] throws, the class is not added and the element
    stays observed, as does the element whose entry comes next in the
    batch. *)
Lemma animation_invalid_class_throws :
  let spaced := {| attrs := {[ "data-animate" := "fade in" ]}; classList := [] |} in
  let fade := {| attrs := {[ "data-animate" := "fade-in" ]}; classList := [] |} in
  let page : gmap nat dom_node := {[ 1%nat := spaced; 2%nat := fade ]} in
  let st := {| nodes := page; targets := {[ 1%nat; 2%nat ]} |} in
  let entries := [ {| isIntersecting := true; target := 1 |};
                   {| isIntersecting := true; target := 2 |} ] in
  onLoad page = Some st
  ∧ observer_callback entries st = (st, Throw InvalidCharacterError)
  ∧ deliveries st [entries; entries] = Some st.
Proof.
  intros spaced fade page st entries.
  split; [| split].
  - vm_compute. reflexivity.
  - vm_compute. reflexivity.
  - vm_compute. reflexivity.
Qed.

(** * Further properties *)

(** ** Escaped text *)

Section escaped_text.
Import JsString.

Lemma escape_chars_cons (c : ascii) (s : string) :
  escape_chars (String c s) = escape_entity c +:+ escape_chars s.
Proof. done. Qed.

Lemma escape_entity_plain (c : ascii) :
  is_special c = false → escape_entity c = String c EmptyString.
Proof. by destruct c as [[] [] [] [] [] [] [] []]. Qed.

Lemma escape_chars_no_markup (s : string) :
  mem "<" (escape_chars s) = false ∧ mem ">" (escape_chars s) = false
  ∧ mem "034" (escape_chars s) = false ∧ mem "'" (escape_chars s) = false.
Proof.
  induction s as [|c s (H1 & H2 & H3 & H4)]; [done |].
  rewrite escape_chars_cons, !mem_app, H1, H2, H3, H4, !orb_false_r.
  by destruct c as [[] [] [] [] [] [] [] []].
Qed.

Lemma escape_chars_ampersands (s : string) :
  ampersands_start_entities (escape_chars s) = true.
Proof.
  induction s as [|c s IH]; [done |]. rewrite escape_chars_cons.
  destruct c as [[] [] [] [] [] [] [] []]; simpl; by rewrite IH.
Qed.

Lemma unescape_escape_chars (s : string) :
  unescape_from 0 (escape_chars s) = s.
Proof.
  induction s as [|c s IH]; [done |]. rewrite escape_chars_cons.
  destruct c as [[] [] [] [] [] [] [] []]; simpl; by rewrite IH.
Qed.

Lemma escape_chars_length (s : string) :
  (String.length s ≤ String.length (escape_chars s))%nat
  ∧ (has_special s = true →
     (String.length s < String.length (escape_chars s))%nat).
Proof.
  induction s as [|c s [IH1 IH2]]; [done |].
  rewrite escape_chars_cons, str_length_app. simpl String.length at 1 3.
  simpl has_special.
  destruct (is_special c) eqn:Hc.
  - assert (2 ≤ String.length (escape_entity c))%nat
      by (destruct c as [[] [] [] [] [] [] [] []]; simpl in *; (done || lia)).
    split; [lia |]. intros _. simpl. lia.
  - rewrite escape_entity_plain by done. simpl. split; [lia |].
    intros H. apply IH2 in H. lia.
Qed.

Lemma escape_chars_plain (s : string) :
  has_special s = false → escape_chars s = s.
Proof.
  induction s as [|c s IH]; [done |]. simpl has_special.
  intros [Hc Hs]%orb_false_elim.
  by rewrite escape_chars_cons, escape_entity_plain, IH.
Qed.

End escaped_text.

(** X1.  The text [escapeHtml] returns for a string holds no [<], [>],
    double quote or single quote, and each [&] in it starts one of the
    five entities. *)
Theorem escapeHtml_no_markup (h : heap) (s : string) :
  ∃ t, escapeHtml h (VStr s) = Ok (VStr t)
       ∧ JsString.mem "<" t = false ∧ JsString.mem ">" t = false
       ∧ JsString.mem "034" t = false ∧ JsString.mem "'" t = false
       ∧ ampersands_start_entities t = true.
Proof.
  exists (escape_chars s). unfold escapeHtml. simpl.
  rewrite escape_pipeline_chars.
  destruct (escape_chars_no_markup s) as (H1 & H2 & H3 & H4).
  by rewrite H1, H2, H3, H4, escape_chars_ampersands.
Qed.

(** X2.  [escapeHtml] loses nothing: reading the entities back gives the
    string it was given, so two strings with the same escaped text are
    equal. *)
Theorem escapeHtml_injective (h : heap) (s t : string) :
  (∃ e, escapeHtml h (VStr s) = Ok (VStr e) ∧ unescape_from 0 e = s)
  ∧ (escapeHtml h (VStr s) = escapeHtml h (VStr t) → s = t).
Proof.
  unfold escapeHtml. simpl. rewrite !escape_pipeline_chars. split.
  - exists (escape_chars s). split; [done | apply unescape_escape_chars].
  - intros [= H]. apply (f_equal (unescape_from 0)) in H.
    by rewrite !unescape_escape_chars in H.
Qed.

(** X3.  [escapeHtml] returns a string as it is exactly when the string
    holds none of the five characters; otherwise the result is longer. *)
Theorem escapeHtml_fixed_point (h : heap) (s : string) :
  (escapeHtml h (VStr s) = Ok (VStr s) ↔ has_special s = false)
  ∧ ∃ t, escapeHtml h (VStr s) = Ok (VStr t)
         ∧ (String.length s ≤ String.length t)%nat
         ∧ (has_special s = true → (String.length s < String.length t)%nat).
Proof.
  unfold escapeHtml. simpl. rewrite escape_pipeline_chars.
  destruct (escape_chars_length s) as [Hle Hlt]. split.
  - split.
    + intros [= H]. destruct (has_special s); [|done].
      specialize (Hlt eq_refl). rewrite H in Hlt. lia.
    + intros H. by rewrite escape_chars_plain.
  - by exists (escape_chars s).
Qed.

(** ** Rendered text *)

Section rendered_text.
Import JsString.

(** A decimal numeral holds digits and a leading minus sign only. *)
Lemma pretty_N_go_mem (c : ascii) (x : N) : ∀ s,
  (∀ d, pretty_N_char d ≠ c) → mem c s = false →
  mem c (pretty_N_go x s) = false.
Proof.
  induction (N.lt_wf_0 x) as [x _ IH]; intros s Hc Hs.
  destruct (decide (x = 0)%N) as [-> | Hx]; [by rewrite pretty_N_go_0 |].
  rewrite pretty_N_go_step by lia.
  apply IH; [apply N.div_lt; lia | done |].
  simpl. rewrite Hs, orb_false_r. apply Ascii.eqb_neq, Hc.
Qed.

Lemma pretty_N_mem (c : ascii) (x : N) :
  is_markup c = true → mem c (pretty x) = false.
Proof.
  intros Hc.
  assert (∀ d, pretty_N_char d ≠ c) as Hd.
  { intros d <-. unfold pretty_N_char in Hc. by repeat case_match. }
  unfold pretty, pretty_N.
  case_decide; [by destruct c as [[] [] [] [] [] [] [] []] |].
  by apply pretty_N_go_mem.
Qed.

Lemma pretty_Z_mem (c : ascii) (n : Z) :
  is_markup c = true → mem c (pretty n) = false.
Proof.
  intros Hc. destruct n as [|p|p].
  - by destruct c as [[] [] [] [] [] [] [] []].
  - change (pretty (Z.pos p)) with (pretty (N.pos p)).
    by apply pretty_N_mem.
  - change (pretty (Z.neg p)) with ("-" +:+ pretty (N.pos p)).
    rewrite mem_app, (pretty_N_mem c (N.pos p) Hc), orb_false_r.
    by destruct c as [[] [] [] [] [] [] [] []].
Qed.

Lemma mem_take (c : ascii) (s : string) : ∀ n,
  mem c s = false → mem c (take n s) = false.
Proof.
  induction s as [|a s IH]; intros [|n]; simpl; try done.
  intros [Ha Hs]%orb_false_elim. by rewrite Ha, IH.
Qed.

Lemma mem_drop (c : ascii) (s : string) : ∀ n,
  mem c s = false → mem c (drop n s) = false.
Proof.
  induction s as [|a s IH]; intros [|n]; simpl; try done.
  intros [Ha Hs]%orb_false_elim. by apply IH.
Qed.

Lemma mem_zeros (c : ascii) (n : nat) :
  is_markup c = true → mem c (zeros n) = false.
Proof.
  intros Hc. induction n as [|n IH]; simpl; [done |].
  rewrite IH, orb_false_r. by destruct c as [[] [] [] [] [] [] [] []].
Qed.

Lemma mem_cons (c a : ascii) (s : string) :
  mem c (String a s) = Ascii.eqb a c || mem c s.
Proof. done. Qed.

Lemma markup_not (a c : ascii) :
  is_markup a = false → is_markup c = true → Ascii.eqb a c = false.
Proof.
  intros Ha Hc. destruct (Ascii.eqb_spec a c) as [-> | Hne]; congruence.
Qed.

(** The text of a number holds no markup. *)
Lemma number_text_mem (c : ascii) (x : number) :
  is_markup c = true → mem c (number_text x) = false.
Proof.
  intros Hc.
  assert (∀ b, mem c (sign_text b) = false) as Hsign.
  { intros []; [|done]. unfold sign_text.
    by rewrite mem_cons, (markup_not "-" c). }
  destruct x as [|neg|neg|neg s n]; unfold number_text.
  - by destruct c as [[] [] [] [] [] [] [] []].
  - rewrite mem_app, Hsign. by destruct c as [[] [] [] [] [] [] [] []].
  - by destruct c as [[] [] [] [] [] [] [] []].
  - pose proof (pretty_N_mem c (N.pos s) Hc) as Hdigits.
    pose proof (pretty_Z_mem c (Z.abs (n - 1)) Hc) as Hexp.
    cbv zeta. rewrite mem_app, Hsign. simpl orb.
    set (digits := pretty (N.pos s)) in *.
    set (k := Z.of_nat (String.length digits)).
    pose proof (mem_take c digits 1 Hdigits) as Hfirst.
    pose proof (mem_drop c digits 1 Hdigits) as Hrest.
    simpl in Hfirst, Hrest.
    destruct ((k <=? n) && (n <=? 21));
      [| destruct ((0 <? n) && (n <=? 21));
         [| destruct ((-6 <? n) && (n <=? 0));
            [| destruct (n - 1 <? 0); destruct (k =? 1)]]];
      repeat (rewrite mem_app || rewrite mem_cons);
      rewrite ?mem_take, ?mem_drop, ?mem_zeros, ?Hdigits, ?Hexp by done;
      rewrite ?(markup_not _ c) by done;
      rewrite ?Hfirst, ?Hrest; done.
Qed.

Lemma escaped_text_mem (h : heap) (c : ascii) (v : val) (s : string) :
  is_markup c = true → escaped_text h v = Ok s → mem c s = false.
Proof.
  intros Hc. unfold escaped_text.
  assert (∀ t, mem c (escape_chars t) = false) as Hesc.
  { intros t. destruct (escape_chars_no_markup t) as (H1 & H2 & H3 & H4).
    destruct c as [[] [] [] [] [] [] [] []]; try done. }
  destruct v as [| |b|x|n|t|d|l];
    try (intros [= <-]; done);
    try (destruct (String_ h _) as [t'| |]; simpl; try done;
         intros [= <-]; apply Hesc).
  intros [= <-]. by apply number_text_mem.
Qed.

Lemma interleave_mem (h : heap) (c : ascii) (values : list val) :
  ∀ strings text,
    is_markup c = true →
    (∀ s, s ∈ strings → mem c s = false) →
    interleave h strings values = Ok text →
    mem c text = false.
Proof.
  induction values as [|v values IH]; intros strings text Hc Hs; simpl.
  - intros [= <-]. destruct strings as [|s strings]; [done |].
    apply Hs. by left.
  - destruct (escaped_text h v) as [s| |] eqn:Hv; simpl; try done.
    destruct (interleave h (tail strings) values) as [rest| |] eqn:Hrest;
      simpl; try done.
    intros [= <-].
    rewrite !mem_app, (escaped_text_mem h c v s Hc Hv),
      (IH (tail strings) rest Hc); [| | done].
    + rewrite !orb_false_r.
      destruct strings as [|s0 strings]; [done |]. apply Hs. by left.
    + intros s0 Hin. apply Hs. destruct strings; [done |]. by right.
Qed.

End rendered_text.

(** X4.  Markup in the text [render] returns comes from the literal parts
    only: when no literal part holds a given one of [<], [>], the double
    quote and the single quote, the result does not hold it either,
    whatever the values are. *)
Theorem render_keeps_markup_out (h : heap) (c : ascii)
    (strings : list string) (values : list val) (text : string) :
  is_markup c = true →
  (∀ s, s ∈ strings → JsString.mem c s = false) →
  render h strings values = Ok text →
  JsString.mem c text = false.
Proof.
  intros Hc Hs. rewrite render_interleave. by apply interleave_mem.
Qed.

Lemma render_keeps_markup_out_witness :
  render realm ["Hello "; "!"] [VStr "<script>"]
  = Ok "Hello &lt;script&gt;!"
  ∧ JsString.mem "<" "Hello &lt;script&gt;!" = false.
Proof.
  assert (render realm ["Hello "; "!"] [VStr "<script>"]
          = Ok "Hello &lt;script&gt;!") as Hrender by done.
  split; [exact Hrender |].
  apply (render_keeps_markup_out realm "<" ["Hello "; "!"] [VStr "<script>"]);
    [done | | exact Hrender].
  intros s. rewrite !elem_of_cons, elem_of_nil. by intros [-> | [-> | ?]].
Defined.

(** ** Binding: outcome, frame and new data *)

Section binding_more.
Variable valid_name : string -> bool.
Variable html : bool.
Variables (h : heap) (window : loc) (data : val).
Variables (fuel : nat) (attribute : string).

Local Abbreviation key := (attribute_key html).
Local Abbreviation saved := (saved_name attribute).
Local Abbreviation body :=
  (bind_attr valid_name html fuel h window data attribute).
Local Abbreviation template el a := (template_of html el attribute a).

(** When every value a key is bound to has a text, the loop returns. *)
Lemma parse_loop_returns (t : string) :
  (100 < fuel)%nat →
  (∀ k, ∃ text, concat_text h (getBindValue h window data k) = Ok text) →
  ∃ v n, parse_loop fuel h window data t 0 = Ok (v, n).
Proof.
  intros Hfuel Htext.
  destruct (parse_loop_run h window data fuel t 0)
    as (k & v & _ & _ & _ & [[Hrun _] | (e & _ & Hpair & Hthrow & _)]);
    [done | unfold maxLoop; lia | by eexists _, _ |].
  exfalso. apply has_pair_segment in Hpair as (pre & k' & post & -> & Hseg).
  rewrite substitute_first_segment in Hthrow by done.
  destruct (Htext k') as [text Hk]. by rewrite Hk in Hthrow.
Qed.

Lemma bind_attr_returns (el : element) (a : string) :
  (100 < fuel)%nat →
  (∀ k, ∃ text, concat_text h (getBindValue h window data k) = Ok text) →
  valid_name a = true → valid_name (saved a) = true →
  ∃ el', body el a = Ok el'.
Proof.
  intros Hfuel Htext Ha Hs. destruct (template el a) as [t|] eqn:Ht.
  - destruct (parse_loop_returns t Hfuel Htext) as (v & n & Hp).
    eexists. by eapply bind_attr_template.
  - eexists. by apply bind_attr_no_template.
Qed.

Lemma for_each_returns (attrs : list string) : ∀ el : element,
  (100 < fuel)%nat →
  (∀ k, ∃ text, concat_text h (getBindValue h window data k) = Ok text) →
  (∀ a, a ∈ attrs → valid_name a = true ∧ valid_name (saved a) = true) →
  ∃ el', for_each body attrs el = Ok el'.
Proof.
  induction attrs as [|a attrs IH]; intros el Hfuel Htext Hvalid; simpl;
    [by eexists |].
  destruct (Hvalid a) as [Ha Hs]; [by left |].
  destruct (bind_attr_returns el a Hfuel Htext Ha Hs) as [el1 ->]. simpl.
  apply IH; [done | done |]. intros b Hb. apply Hvalid. by right.
Qed.

(** A target without template has neither value nor saved template in
    the end. *)
Lemma for_each_no_template (attrs : list string) : ∀ (el el' : element) a,
  for_each body attrs el = Ok el' →
  (∀ b, b ∈ attrs → key b ≠ key (saved a) ∧ key (saved b) ≠ key a) →
  el !! key (saved a) = None → el !! key a = None →
  el' !! key (saved a) = None ∧ el' !! key a = None.
Proof.
  induction attrs as [|x xs IH]; intros el el' a Hrun Hfree Hs Ha;
    simpl in Hrun.
  - by injection Hrun as <-.
  - destruct (body el x) as [el1| |] eqn:Hx; try done. simpl in Hrun.
    destruct (Hfree x) as [Hx1 Hx2]; [by left |].
    assert (el1 !! key (saved a) = el !! key (saved a)
            ∧ el1 !! key a = el !! key a) as [Hs1 Ha1].
    { destruct (decide (key x = key a)) as [Hk | Hne].
      - rewrite bind_attr_no_template in Hx; [by injection Hx as <- |].
        unfold template_of, getAttribute.
        by rewrite Hk, (key_saved_eq html attribute x a Hk), Hs.
      - split.
        + apply (bind_attr_other valid_name html h window data fuel
                   attribute el el1 x); [done | done |].
          intros Heq. apply Hne. symmetry. by apply key_saved_inj in Heq.
        + apply (bind_attr_other valid_name html h window data fuel
                   attribute el el1 x); [done | | done].
          intros Heq. by apply Hne. }
    apply (IH el1 el' a Hrun); [intros b Hb; apply Hfree; by right | |];
      congruence.
Qed.

End binding_more.

Section binding_again.
Variable valid_name : string -> bool.
Variable html : bool.
Variables (h : heap) (window : loc) (data : val).
Variables (fuel : nat) (attribute : string).

Local Abbreviation key := (attribute_key html).
Local Abbreviation saved := (saved_name attribute).
Local Abbreviation body :=
  (bind_attr valid_name html fuel h window data attribute).
Local Abbreviation template el a := (template_of html el attribute a).

(** Two elements with the same templates, the second with every
    template saved: when the loop over the targets returns on the first,
    it returns on the second. *)
Lemma for_each_saved_returns (attrs : list string) : ∀ (e e1 e' : element),
  for_each body attrs e = Ok e' →
  (∀ a b, a ∈ attrs → b ∈ attrs → key (saved a) ≠ key b) →
  (∀ a, a ∈ attrs →
     template e a = template e1 a
     ∧ ∀ t, template e1 a = Some t → e1 !! key (saved a) = Some t) →
  ∃ e1', for_each body attrs e1 = Ok e1'.
Proof.
  induction attrs as [|x xs IH]; intros e e1 e' Hrun Hfree Hsame;
    [by eexists |].
  simpl in Hrun. destruct (body e x) as [e0| |] eqn:Hx; try done.
  simpl in Hrun. destruct (Hsame x) as [Htx Hsx]; [by left |].
  assert (∀ c d, c ∈ xs → d ∈ xs → key (saved c) ≠ key d) as Hfree'
    by (intros c d Hc Hd; apply Hfree; by right).
  apply bind_attr_inv in Hx
    as [[Hnone ->] | (t & v & n & Ht & Hp & Hv & ->)].
  - simpl. rewrite bind_attr_no_template by congruence. simpl.
    apply (IH e e1 e' Hrun Hfree').
    intros a Ha. apply Hsame. by right.
  - simpl. rewrite (bind_attr_template _ _ _ _ _ _ _ e1 x t v n);
      [| congruence | done | done |];
      [| intros Hno; rewrite (Hsx t) in Hno; [done | congruence]].
    simpl. apply (IH _ _ e' Hrun Hfree').
    intros a Ha. destruct (Hsame a) as [Hta Hsa]; [by right |].
    destruct (decide (key a = key x)) as [Hk | Hne].
    + assert (key (saved a) = key (saved x)) as Hks
        by (by apply key_saved_eq).
      assert (key x ≠ key (saved x)) as Hxs
        by (intros Heq; by apply (key_saved_ne_attr html attribute x)).
      unfold template_of, getAttribute. rewrite Hks.
      rewrite (lookup_insert_ne (<[key (saved x):=t]> e) (key x)),
        (lookup_insert_ne (<[key (saved x):=t]> e1) (key x)) by done.
      rewrite !lookup_insert_eq. split; [done |].
      intros t' [= <-]. done.
    + assert (key (saved a) ≠ key x) as H1
        by (apply Hfree; [by right | by left]).
      assert (key a ≠ key (saved x)) as H2.
      { intros Heq. apply (Hfree x a); [by left | by right | done]. }
      assert (key (saved a) ≠ key (saved x)) as H3
        by (intros Heq; by apply key_saved_inj in Heq).
      unfold template_of, getAttribute in *.
      rewrite !lookup_insert_ne by done. done.
Qed.

End binding_again.

(** X5.  With fuel above the cap of the loop [bindAttrTmpl] returns or
    throws.  It throws a [TypeError] when the element lacks the attribute
    that lists the targets.  It returns when the attribute is there, the
    names of the targets and of their saved templates are names
    [setAttribute] accepts, and every value a key is bound to has a
    text. *)
Theorem bindAttrTmpl_outcome (valid_name : string -> bool) (html : bool)
    (h : heap) (window : loc) (data : val)
    (fuel : nat) (attribute : string) (el : element) :
  (100 < fuel)%nat →
  bindAttrTmpl valid_name html fuel h window el attribute data ≠ OutOfFuel
  ∧ (getAttribute html el attribute = None →
     bindAttrTmpl valid_name html fuel h window el attribute data
     = Throw TypeError)
  ∧ (∀ targets,
       bind_targets html el attribute = Some targets →
       (∀ a, a ∈ targets →
          valid_name a = true
          ∧ valid_name (saved_name attribute a) = true) →
       (∀ k, ∃ text,
          concat_text h (getBindValue h window data k) = Ok text) →
       ∃ el', bindAttrTmpl valid_name html fuel h window el attribute data
              = Ok el').
Proof.
  intros Hfuel. unfold bindAttrTmpl, bind_targets.
  destruct (getAttribute html el attribute) as [names|]; [| by repeat split].
  split; [by apply for_each_fuel |]. split; [done |].
  intros targets [= <-] Hvalid Htext. by apply for_each_returns.
Qed.

(** A primitive value that is no Symbol has a text. *)
Lemma bindAttrTmpl_outcome_witness :
  bindAttrTmpl valid_attribute_local_name true 101 ∅ 1%positive
    ({[ "href" := "/[id]" ]} : element) "data-bind-attr" VNull
  = Throw TypeError
  ∧ ∃ el', bindAttrTmpl valid_attribute_local_name true 101 ∅ 1%positive
             ({[ "data-bind-attr" := "href"; "href" := "/[id]" ]} : element)
             "data-bind-attr" VNull = Ok el'.
Proof.
  destruct (bindAttrTmpl_outcome valid_attribute_local_name true ∅
              1%positive VNull 101 "data-bind-attr"
              ({[ "href" := "/[id]" ]} : element))
    as (_ & Hmissing & _); [lia |].
  destruct (bindAttrTmpl_outcome valid_attribute_local_name true ∅
              1%positive VNull 101 "data-bind-attr"
              ({[ "data-bind-attr" := "href"; "href" := "/[id]" ]} : element))
    as (_ & _ & Hreturns); [lia |].
  split; [by apply Hmissing |].
  apply (Hreturns ["href"]).
  - vm_compute; reflexivity.
  - intros a. rewrite elem_of_cons, elem_of_nil. by intros [-> | ?].
  - intros k. exists "null".
    assert (getBindValue ∅ 1%positive VNull k = VNull) as ->; [|done].
    rewrite getBindValue_path. unfold bind_root.
    destruct (split_cons "." k) as (w & ws & ->).
    destruct (_ && _); [|done]. simpl.
    replace (is_object ∅ (VObj 1%positive)) with true by done.
    replace (get_prop ∅ 1%positive w) with VUndefined by done.
    by destruct ws.
Defined.

(** An empty target whose saved template exists makes [setAttribute]
    throw where the empty name is refused. *)
Lemma bindAttrTmpl_empty_target_throws :
  bindAttrTmpl valid_attribute_local_name true 101 ∅ 1%positive
    ({[ "data-bind-attr" := EmptyString; "data-bind-attr-" := "x" ]} : element)
    "data-bind-attr" VNull
  = Throw InvalidCharacterError.
Proof. vm_compute. reflexivity. Qed.

(** X6.  [bindAttrTmpl] writes the targets and their saved names only,
    under the names the element stores them by: every other attribute
    keeps its value, and no attribute is removed. *)
Theorem bindAttrTmpl_frame (valid_name : string -> bool) (html : bool)
    (h : heap) (window : loc) (data : val)
    (fuel : nat) (attribute : string) (el el' : element)
    (attrs : list string) :
  bind_targets html el attribute = Some attrs →
  bindAttrTmpl valid_name html fuel h window el attribute data = Ok el' →
  (∀ k, (∀ a, a ∈ attrs →
           k ≠ attribute_key html a
           ∧ k ≠ attribute_key html (saved_name attribute a)) →
        el' !! k = el !! k)
  ∧ (∀ k, is_Some (el !! k) → is_Some (el' !! k)).
Proof.
  intros Htargets Hcall. unfold bindAttrTmpl in Hcall.
  rewrite Htargets in Hcall. split.
  - intros k Hk.
    by apply (for_each_other valid_name html h window data fuel attribute
                attrs).
  - intros k.
    by apply (for_each_keeps valid_name html h window data fuel attribute
                attrs).
Qed.

Lemma bindAttrTmpl_frame_witness :
  let h : heap :=
    <[ 10%positive :=
         object_literal [("id", VNum (Decimal false 7 1))] 1%positive ]>
      realm in
  let el : element :=
    {[ "data-bind-attr" := "HREF"; "href" := "/[id]"; "class" := "[id]" ]} in
  let el' : element :=
    <["href" := "/7"]> (<["data-bind-attr-href" := "/[id]"]> el) in
  el' !! "class" = el !! "class"
  ∧ is_Some (el' !! "data-bind-attr").
Proof.
  intros h el el'.
  destruct (bindAttrTmpl_frame valid_attribute_local_name true h 20%positive
              (VObj 10%positive) 101 "data-bind-attr" el el' ["HREF"])
    as [Hframe Hkeeps];
    [vm_compute; reflexivity | vm_compute; reflexivity |].
  split.
  - apply Hframe.
    intros a. rewrite elem_of_cons, elem_of_nil. by intros [-> | ?].
  - apply Hkeeps. by eexists.
Defined.

(** X7.  Binding again with other data starts from the saved templates.
    Names being compared as the element stores them: when the attribute
    that lists the targets is not a target and no target is the saved
    name of a target, and binding the original element with the new data
    returns an element, binding the element the first call left returns
    the same element. *)
Theorem bindAttrTmpl_new_data (valid_name : string -> bool) (html : bool)
    (h h' : heap) (window window' : loc)
    (data data' : val) (fuel : nat) (attribute : string)
    (el el1 el2 : element) (attrs : list string) :
  bind_targets html el attribute = Some attrs →
  (∀ a, a ∈ attrs → attribute_key html a ≠ attribute_key html attribute) →
  (∀ a b, a ∈ attrs → b ∈ attrs →
     attribute_key html (saved_name attribute a) ≠ attribute_key html b) →
  bindAttrTmpl valid_name html fuel h window el attribute data = Ok el1 →
  bindAttrTmpl valid_name html fuel h' window' el attribute data' = Ok el2 →
  bindAttrTmpl valid_name html fuel h' window' el1 attribute data' = Ok el2.
Proof.
  intros Htargets Hself Hfree Hcall Hrun2.
  unfold bindAttrTmpl in Hcall, Hrun2. rewrite Htargets in Hcall, Hrun2.
  assert (bind_targets html el1 attribute = Some attrs) as Htargets1.
  { unfold bind_targets, getAttribute in *.
    rewrite (for_each_other valid_name html h window data fuel attribute
               attrs el el1); [done | done |].
    intros a Ha. split.
    - intros Heq. by apply (Hself a).
    - intros Heq. by apply (key_saved_ne_attribute html attribute a). }
  unfold bindAttrTmpl. rewrite Htargets1.
  assert (∀ a, a ∈ attrs → ∀ b, b ∈ attrs →
            attribute_key html b ≠ attribute_key html (saved_name attribute a)
            ∧ attribute_key html (saved_name attribute b)
              ≠ attribute_key html a) as Hfree'.
  { intros a Ha b Hb. split; [|by apply Hfree].
    intros Heq. by apply (Hfree a b). }
  (* what the first call left of the template of a target *)
  assert (∀ a, a ∈ attrs →
            template_of html el attribute a = template_of html el1 attribute a
            ∧ ∀ t, template_of html el1 attribute a = Some t →
                   el1 !! attribute_key html (saved_name attribute a) = Some t) as Hsame.
  { intros a Ha. destruct (template_of html el attribute a) as [t|] eqn:Ht.
    - pose proof (for_each_saves valid_name html h window data fuel attribute
                    attrs el el1 a t Hcall Hfree Ha Ht) as Hs1.
      unfold template_of, getAttribute.
      rewrite Hs1. split; [done |]. by intros t' [= <-].
    - unfold template_of, getAttribute in Ht.
      destruct (el !! attribute_key html (saved_name attribute a)) eqn:Hs; [done |].
      destruct (for_each_no_template valid_name html h window data fuel
                  attribute attrs el el1 a Hcall (Hfree' a Ha) Hs Ht)
        as [Hs1 Ha1].
      unfold template_of, getAttribute.
      by rewrite Hs1, Ha1. }
  destruct (for_each_saved_returns valid_name html h' window' data' fuel
              attribute attrs el el1 el2 Hrun2 Hfree Hsame) as [el3 Hrun3].
  rewrite Hrun3. f_equal. apply map_eq. intros k.
  (* what the three runs did to a target [a] *)
  assert (∀ a, a ∈ attrs →
            el3 !! attribute_key html a = el2 !! attribute_key html a
            ∧ el3 !! attribute_key html (saved_name attribute a)
              = el2 !! attribute_key html (saved_name attribute a))
    as Htarget.
  { intros a Ha. destruct (Hsame a Ha) as [Heq Hs1].
    destruct (template_of html el attribute a) as [t|] eqn:Ht.
    - specialize (Hs1 t (eq_sym Heq)).
      pose proof (for_each_saves valid_name html h' window' data' fuel
                    attribute attrs el el2 a t Hrun2 Hfree Ha Ht) as Hs2.
      pose proof (for_each_saves valid_name html h' window' data' fuel
                    attribute attrs el1 el3 a t Hrun3 Hfree Ha (eq_sym Heq))
        as Hs3.
      split; [| by rewrite Hs2, Hs3].
      destruct (for_each_settles valid_name html h' window' data' fuel
                  attribute attrs el el2 Hrun2 Hfree a Ha)
        as [[Hn _] | (t2 & v2 & n2 & Ht2 & Hp2 & Hv2 & _)];
        [unfold getAttribute in Hn;
         congruence |].
      destruct (for_each_settles valid_name html h' window' data' fuel
                  attribute attrs el1 el3 Hrun3 Hfree a Ha)
        as [[Hn _] | (t3 & v3 & n3 & Ht3 & Hp3 & Hv3 & _)];
        [unfold getAttribute in Hn;
         congruence |].
      unfold getAttribute in *. 
      rewrite Hv2, Hv3. congruence.
    - unfold template_of, getAttribute in Ht, Heq.
      destruct (el !! attribute_key html (saved_name attribute a)) eqn:Hs; [done |].
      destruct (el1 !! attribute_key html (saved_name attribute a)) eqn:Hs1'; [done |].
      symmetry in Heq.
      destruct (for_each_no_template valid_name html h' window' data' fuel
                  attribute attrs el el2 a Hrun2 (Hfree' a Ha) Hs Ht)
        as [Hs2 Ha2].
      destruct (for_each_no_template valid_name html h' window' data' fuel
                  attribute attrs el1 el3 a Hrun3 (Hfree' a Ha) Hs1' Heq)
        as [Hs3 Ha3].
      by rewrite Hs2, Ha2, Hs3, Ha3. }
  destruct (decide (k ∈ attribute_key html <$> attrs)) as [Hk | Hk].
  { apply list_elem_of_fmap in Hk as (a & -> & Ha). by apply Htarget. }
  destruct (decide (k ∈ (fun a => attribute_key html (saved_name attribute a))
                          <$> attrs)) as [Hks | Hks].
  { apply list_elem_of_fmap in Hks as (a & -> & Ha). by apply Htarget. }
  assert (∀ a, a ∈ attrs →
            k ≠ attribute_key html a
            ∧ k ≠ attribute_key html (saved_name attribute a)) as Hother.
  { intros a Ha. split; intros ->.
    - apply Hk, list_elem_of_fmap. by exists a.
    - apply Hks, list_elem_of_fmap. by exists a. }
  rewrite (for_each_other valid_name html h' window' data' fuel attribute
             attrs el1 el3 k),
    (for_each_other valid_name html h' window' data' fuel attribute
       attrs el el2 k),
    (for_each_other valid_name html h window data fuel attribute
       attrs el el1 k); done.
Qed.

Lemma bindAttrTmpl_new_data_witness :
  let h : heap :=
    <[ 10%positive :=
         object_literal [("id", VNum (Decimal false 7 1))] 1%positive ]>
      realm in
  let h' : heap :=
    <[ 10%positive :=
         object_literal [("id", VNum (Decimal false 8 1))] 1%positive ]>
      realm in
  let el : element := {[ "data-bind-attr" := "href"; "href" := "/[id]" ]} in
  let el1 : element :=
    <["href" := "/7"]> (<["data-bind-attr-href" := "/[id]"]> el) in
  let el2 : element :=
    <["href" := "/8"]> (<["data-bind-attr-href" := "/[id]"]> el) in
  bindAttrTmpl valid_attribute_local_name true 101 h' 20%positive el1
    "data-bind-attr" (VObj 10%positive) = Ok el2.
Proof.
  intros h h' el el1 el2.
  apply (bindAttrTmpl_new_data valid_attribute_local_name true h h'
           20%positive 20%positive (VObj 10%positive) (VObj 10%positive)
           101 "data-bind-attr" el el1 el2 ["href"]).
  - vm_compute; reflexivity.
  - intros a. rewrite elem_of_cons, elem_of_nil. by intros [-> | ?].
  - intros a b. rewrite !elem_of_cons, !elem_of_nil.
    by intros [-> | ?] [-> | ?].
  - vm_compute; reflexivity.
  - vm_compute; reflexivity.
Defined.

(** ** Applying and registering polyfills *)

Section polyfills.

Lemma setup_calls_app (xs ys : list dom_op) :
  setup_calls (xs ++ ys) = setup_calls xs ++ setup_calls ys.
Proof. unfold setup_calls. apply bind_app. Qed.






Lemma probe_trace (p : page) :
  ∃ ops, trace (probe p) = trace p ++ ops
         ∧ setup_calls ops = [] ∧ setup_alerts ops = [].
Proof.
  unfold probe. destruct (customElements p !! probe_name); simpl;
    by eexists.
Qed.

End polyfills.



Section probe_answer.

Lemma first_call_answer (rootElement : string -> list nat) (p : page) :
  polyfillIsNeeded p = None →
  registry_fresh p →
  polyfillIsNeeded (polyfillCustomElements rootElement p)
  = Some (negb (upgrades_builtins p
                && bool_decide (customElements p !! probe_name = None)))
  ∧ is_Some (customElements (polyfillCustomElements rootElement p)
               !! probe_name).
Proof.
  intros Hnull Hfresh. unfold polyfillCustomElements. rewrite Hnull.
  destruct (apply_polyfills_keeps rootElement (probe p)) as (-> & -> & _).
  unfold probe.
  destruct (customElements p !! probe_name) as [cls|] eqn:Hreg; simpl.
  - split; [| by rewrite Hreg].
    destruct (upgrades_builtins p); simpl; [| done].
    rewrite Hreg.
    rewrite (bool_decide_eq_false_2 (Some cls = Some (next_class p))); [done |].
    intros [= ->]. apply Hfresh in Hreg. lia.
  - split; [| by rewrite lookup_insert_eq].
    destruct (upgrades_builtins p); simpl; [| done].
    by rewrite lookup_insert_eq, bool_decide_eq_true_2.
Qed.

Lemma call_not_needed (rootElement : string -> list nat) (p : page) :
  polyfillIsNeeded p = Some false →
  polyfillCustomElements rootElement p = p.
Proof.
  intros Hb. unfold polyfillCustomElements, apply_polyfills. rewrite Hb.
  cbv beta iota. by rewrite Hb.
Qed.

Lemma polyfill_calls_cons root roots (p : page) :
  polyfill_calls (root :: roots) p
  = polyfill_calls roots (polyfillCustomElements root p).
Proof. done. Qed.

Lemma calls_not_needed roots : ∀ p : page,
  polyfillIsNeeded p = Some false → polyfill_calls roots p = p.
Proof.
  induction roots as [|root roots IH]; intros p Hb; [done |].
  rewrite polyfill_calls_cons, call_not_needed by done. by apply IH.
Qed.

Lemma first_call_not_needed (rootElement : string -> list nat) (p : page) :
  polyfillIsNeeded p = None →
  polyfillIsNeeded (polyfillCustomElements rootElement p) = Some false →
  setup_calls (trace (polyfillCustomElements rootElement p))
  = setup_calls (trace p).
Proof.
  intros Hnull. unfold polyfillCustomElements. rewrite Hnull.
  destruct (apply_polyfills_keeps rootElement (probe p)) as (-> & _ & _).
  intros Hp. unfold apply_polyfills. rewrite Hp.
  destruct (probe_trace p) as (ops & -> & Hc & _).
  by rewrite setup_calls_app, Hc, app_nil_r.
Qed.

End probe_answer.

(** X9.  On a browser that creates [<div is="...">] as an instance of
    the registered class, with the probe name not registered before, no
    [setup] ever runs: the first call finds the polyfill not needed and
    every later call leaves the page as it is. *)
Theorem polyfill_never_applied (p : page)
    (roots : list (string -> list nat)) :
  polyfillIsNeeded p = None →
  registry_fresh p →
  upgrades_builtins p = true →
  customElements p !! probe_name = None →
  setup_calls (trace (polyfill_calls roots p)) = setup_calls (trace p)
  ∧ (roots ≠ [] → polyfillIsNeeded (polyfill_calls roots p) = Some false).
Proof.
  intros Hnull Hfresh Hup Hreg. destruct roots as [|root roots]; [done |].
  destruct (first_call_answer root p Hnull Hfresh) as [Hanswer _].
  rewrite Hup, Hreg in Hanswer. simpl in Hanswer.
  rewrite polyfill_calls_cons, calls_not_needed by done.
  split; [by apply first_call_not_needed | done].
Qed.

Lemma polyfill_never_applied_witness :
  let p := {| polyfillIsNeeded := None; customElements := ∅;
              next_class := 1; upgrades_builtins := true;
              webComponentPolyfills :=
                Some [ {| pf_element := "input-filter";
                          pf_extendsElement := "input";
                          pf_setup_throws := fun _ => false |} ];
              trace := [] |} in
  let root : string -> list nat := fun _ => [4%nat] in
  setup_calls (trace (polyfill_calls [root; root] p)) = []
  ∧ polyfillIsNeeded (polyfill_calls [root; root] p) = Some false.
Proof.
  intros p root.
  destruct (polyfill_never_applied p [root; root]) as [Hcalls Hneeded];
    [done | by intros name cls | done | done |].
  split; [exact Hcalls | by apply Hneeded].
Defined.

(** X10.  What the probe answers: the polyfill is found not needed
    exactly when the browser creates [<div is="...">] as an instance of
    the registered class and the probe name was not registered before;
    with the name already taken (a second copy of the module), the [div]
    is no instance of the new class and the polyfill is found needed. *)
Theorem polyfill_probe_answer (rootElement : string -> list nat) (p : page) :
  polyfillIsNeeded p = None →
  registry_fresh p →
  polyfillIsNeeded (polyfillCustomElements rootElement p)
  = Some (negb (upgrades_builtins p
                && bool_decide (customElements p !! probe_name = None)))
  ∧ is_Some (customElements (polyfillCustomElements rootElement p)
               !! probe_name).
Proof. apply first_call_answer. Qed.

Lemma polyfill_probe_answer_witness :
  let page0 upgrades registry :=
    {| polyfillIsNeeded := None; customElements := registry;
       next_class := 1; upgrades_builtins := upgrades;
       webComponentPolyfills := None; trace := [] |} in
  polyfillIsNeeded (polyfillCustomElements (fun _ => []) (page0 true ∅))
  = Some false
  ∧ polyfillIsNeeded (polyfillCustomElements (fun _ => []) (page0 false ∅))
    = Some true
  ∧ polyfillIsNeeded
      (polyfillCustomElements (fun _ => [])
         (page0 true {[ probe_name := 0%nat ]}))
    = Some true.
Proof.
  intros page0.
  assert (∀ upgrades, registry_fresh (page0 upgrades ∅)) as Hempty
    by (by intros upgrades name cls).
  assert (registry_fresh (page0 true {[ probe_name := 0%nat ]})) as Hone.
  { intros name cls Hreg. simpl in Hreg.
    apply lookup_singleton_Some in Hreg as [_ <-]. simpl. lia. }
  split; [| split].
  - by destruct (polyfill_probe_answer (fun _ => []) (page0 true ∅)
                   eq_refl (Hempty true)) as [-> _].
  - by destruct (polyfill_probe_answer (fun _ => []) (page0 false ∅)
                   eq_refl (Hempty false)) as [-> _].
  - by destruct (polyfill_probe_answer (fun _ => [])
                   (page0 true {[ probe_name := 0%nat ]}) eq_refl Hone)
      as [-> _].
Defined.

(** ** Registering *)

Section registering.

Lemma addEventListener_once (listener : string) (listeners : list string) :
  NoDup listeners →
  NoDup (addEventListener listener listeners)
  ∧ listener ∈ addEventListener listener listeners.
Proof.
  intros Hnd. unfold addEventListener. case_bool_decide as Hin; [done |].
  split; [| apply elem_of_app; right; by left].
  apply NoDup_app. split; [done |]. split; [| apply NoDup_singleton].
  intros x Hx ->%list_elem_of_singleton. done.
Qed.

(** A listener that occurs once runs once. *)
Lemma fire_once (document : string -> list nat) (listeners : list string) :
  ∀ p : page,
  NoDup listeners →
  foldl (fun p listener =>
           if bool_decide (listener = "runPolyfill")
           then runPolyfill document p else p) p listeners
  = if bool_decide ("runPolyfill" ∈ listeners)
    then polyfillCustomElements document p else p.
Proof.
  induction listeners as [|x xs IH]; intros p Hnd; [done |].
  apply NoDup_cons in Hnd as [Hx Hnd]. simpl. rewrite IH by done.
  destruct (decide (x = "runPolyfill")) as [-> | Hrun].
  - rewrite (bool_decide_eq_true_2 ("runPolyfill" = "runPolyfill")) by done.
    rewrite (bool_decide_eq_false_2 _ Hx).
    by rewrite bool_decide_eq_true_2 by (by left).
  - rewrite (bool_decide_eq_false_2 (x = "runPolyfill")) by done.
    destruct (decide ("runPolyfill" ∈ xs)) as [Hin | Hin].
    + rewrite !bool_decide_eq_true_2; [done | by right | done].
    + rewrite !bool_decide_eq_false_2; [done | | done].
      rewrite elem_of_cons. intros [? | ?]; done.
Qed.

Lemma define_step (pf : polyfill) (w : loading) (existing : list polyfill) :
  NoDup (ld_listeners w) →
  ld_slot w = SlotFalsy ∧ existing = [] ∨ ld_slot w = SlotArray existing →
  ∃ w', defineExtendsPolyfill pf w = Ok w'
        ∧ ld_slot w' = SlotArray (existing ++ [pf])
        ∧ NoDup (ld_listeners w')
        ∧ "runPolyfill" ∈ ld_listeners w'.
Proof.
  intros Hnd Hslot. unfold defineExtendsPolyfill.
  destruct (addEventListener_once "runPolyfill" _ Hnd) as [Hnd' Hin].
  destruct Hslot as [[-> ->] | ->]; eexists; by repeat split.
Qed.

End registering.

(** X11.  Polyfills defined one after the other, starting with no array
    or with an array, end up in [window._webComponentPolyfills] after the
    ones that were there, in the order of the calls; [runPolyfill] is a
    listener once however many calls were made, so that
    [DOMContentLoaded] runs [polyfillCustomElements(document)] once. *)
Theorem defineExtendsPolyfill_registers (pfs : list polyfill) (w : loading)
    (existing : list polyfill) (document : string -> list nat) (p : page) :
  NoDup (ld_listeners w) →
  ld_slot w = SlotFalsy ∧ existing = [] ∨ ld_slot w = SlotArray existing →
  pfs ≠ [] →
  ∃ w', for_each (fun w pf => defineExtendsPolyfill pf w) pfs w = Ok w'
        ∧ ld_slot w' = SlotArray (existing ++ pfs)
        ∧ fire_DOMContentLoaded w' document p
          = polyfillCustomElements document (page_of_window w' p).
Proof.
  intros Hnd Hslot Hne.
  assert (∃ w', for_each (fun w pf => defineExtendsPolyfill pf w) pfs w = Ok w'
                ∧ ld_slot w' = SlotArray (existing ++ pfs)
                ∧ NoDup (ld_listeners w')
                ∧ "runPolyfill" ∈ ld_listeners w') as (w' & Hrun & Hs & Hnd' & Hin).
  { destruct pfs as [|pf pfs]; [done |]. clear Hne. simpl.
    destruct (define_step pf w existing Hnd Hslot) as (w1 & -> & Hs1 & Hnd1 & Hin1).
    simpl. clear Hnd Hslot. revert w1 existing pf Hs1 Hnd1 Hin1.
    induction pfs as [|pf' pfs IH]; intros w1 existing pf Hs1 Hnd1 Hin1; simpl.
    - by exists w1.
    - destruct (define_step pf' w1 (existing ++ [pf]) Hnd1 (or_intror Hs1))
        as (w2 & -> & Hs2 & Hnd2 & Hin2). simpl.
      destruct (IH w2 (existing ++ [pf]) pf' Hs2 Hnd2 Hin2)
        as (w' & Hrun & Hs & Hnd' & Hin').
      exists w'. split; [done |]. split; [| done].
      by rewrite Hs, <- !app_assoc. }
  exists w'. split; [done |]. split; [done |].
  unfold fire_DOMContentLoaded. rewrite fire_once by done.
  by rewrite bool_decide_eq_true_2.
Qed.

Lemma defineExtendsPolyfill_registers_witness :
  let pf name :=
    {| pf_element := name; pf_extendsElement := "input";
       pf_setup_throws := fun _ => false |} in
  let w := {| ld_slot := SlotFalsy; ld_listeners := [] |} in
  ∃ w', for_each (fun w pf => defineExtendsPolyfill pf w)
          [pf "input-filter"; pf "sortable-table"] w = Ok w'
        ∧ ld_slot w' = SlotArray [pf "input-filter"; pf "sortable-table"].
Proof.
  intros pf w.
  destruct (defineExtendsPolyfill_registers
              [pf "input-filter"; pf "sortable-table"] w [] (fun _ => [])
              {| polyfillIsNeeded := None; customElements := ∅;
                 next_class := 0; upgrades_builtins := true;
                 webComponentPolyfills := None; trace := [] |})
    as (w' & Hrun & Hslot & _);
    [apply NoDup_nil_2 | by left | done |].
  by exists w'.
Defined.

(** ** Loading the animation service again *)

Section reloading.

Lemma onLoad_targets (page_nodes : gmap nat dom_node) (obs : observing)
    (x : nat) :
  onLoad page_nodes = Some obs →
  x ∈ targets obs ↔
  ∃ n, page_nodes !! x = Some n ∧ needs_animation n = true.
Proof.
  unfold onLoad. case_bool_decide; [done |]. intros [= <-]. simpl.
  rewrite elem_of_dom. unfold is_Some.
  setoid_rewrite map_lookup_filter_Some. simpl. naive_solver.
Qed.

Lemma add_animate_class_done (n : dom_node) :
  needs_animation (add_animate_class n) = false.
Proof.
  unfold needs_animation.
  change (animate_class (add_animate_class n)) with (animate_class n).
  rewrite (bool_decide_eq_true_2 (animate_class n ∈ _)), andb_false_r; [done |].
  unfold add_animate_class. simpl. case_bool_decide as Hc; [done |].
  apply elem_of_app. right. by left.
Qed.

End reloading.

(** X12.  An element the callback has given its class is not picked up
    when the service loads again: when the callback has completed,
    [onLoad] run on the page it left observes elements with
    [data-animate] that lack their class, and an element that came with
    an intersecting entry is not one of them. *)
Theorem onLoad_skips_animated (st : observing) (entries : list entry)
    (e : entry) (obs : observing) :
  e ∈ entries →
  isIntersecting e = true →
  (observer_callback entries st).2 = Ok tt →
  onLoad (nodes (observer_callback entries st).1) = Some obs →
  (target e ∉ targets obs)
  ∧ ∀ x, x ∈ targets obs →
      ∃ m, nodes (observer_callback entries st).1 !! x = Some m
           ∧ is_Some (attrs m !! "data-animate")
           ∧ animate_class m ∉ classList m.
Proof.
  intros Hin Hint Hok Hload. split.
  - intros (m & Hm & Hneeds)%(onLoad_targets _ _ _ Hload).
    destruct (callback_spec entries st) as (st1 & Hcb & _ & Hhit & _);
      [intros e' He' Hint'; by apply (callback_ok_valid entries st Hok) |].
    rewrite Hcb in Hm. simpl in Hm.
    rewrite (Hhit (target e)) in Hm by (apply Exists_exists; by exists e).
    injection Hm as <-. by rewrite add_animate_class_done in Hneeds.
  - intros x (m & Hm & Hneeds)%(onLoad_targets _ _ _ Hload).
    exists m. split; [done |]. unfold needs_animation in Hneeds.
    apply andb_true_iff in Hneeds as [H1 H2].
    apply bool_decide_eq_true in H1. apply negb_true_iff in H2.
    by apply bool_decide_eq_false in H2.
Qed.

Lemma onLoad_skips_animated_witness :
  let fade := {| attrs := {[ "data-animate" := "fade-in" ]}; classList := [] |} in
  let st := {| nodes := {[ 1%nat := fade; 2%nat := fade ]};
               targets := {[ 1%nat; 2%nat ]} |} in
  let entries := [ {| isIntersecting := true; target := 1 |} ] in
  ∃ obs, onLoad (nodes (observer_callback entries st).1) = Some obs
         ∧ 1%nat ∉ targets obs.
Proof.
  intros fade st entries.
  destruct (onLoad (nodes (observer_callback entries st).1)) as [obs|]
    eqn:Hload; [| by vm_compute in Hload].
  exists obs. split; [done |].
  by destruct (onLoad_skips_animated st entries
                 {| isIntersecting := true; target := 1 |} obs);
    [by left | done | done | done |].
Defined.

(** ** Errors on the page *)

Section errors.
Import JsText.

Lemma toLowerCase_app (s t : string) :
  toLowerCase (s +:+ t) = toLowerCase s +:+ toLowerCase t.
Proof. induction s as [|c s IH]; simpl; [done | by rewrite IH]. Qed.

(** A text in lower case is cut where the text it comes from is. *)
Lemma toLowerCase_split (a b : string) : ∀ s,
  toLowerCase s = a +:+ b →
  ∃ s1 s2, s = s1 +:+ s2 ∧ toLowerCase s1 = a ∧ toLowerCase s2 = b.
Proof.
  induction a as [|c a IH]; intros s Hs.
  - by exists EmptyString, s.
  - destruct s as [|c' s]; [done |]. simpl in Hs. injection Hs as Hc Hs.
    destruct (IH s Hs) as (s1 & s2 & -> & H1 & H2).
    exists (String c' s1), s2. simpl. by rewrite Hc, H1.
Qed.

Lemma starts_with_prefix (p s : string) :
  starts_with p s = true ↔ ∃ rest, s = p +:+ rest.
Proof.
  revert s. induction p as [|a p IH]; intros s; simpl.
  - split; [by exists s | done].
  - destruct s as [|b s]; [split; [done | by intros [? ?]] |].
    rewrite andb_true_iff, IH. split.
    + intros [->%Ascii.eqb_eq [rest ->]]. by exists rest.
    + intros [rest [= -> ->]]. split; [apply Ascii.eqb_refl | by exists rest].
Qed.

Lemma find_string_found (needle : string) : ∀ s n,
  find_string needle s = Some n →
  ∃ pre post, s = pre +:+ needle +:+ post.
Proof.
  induction s as [|c s IH]; intros n; simpl.
  - destruct (starts_with needle EmptyString) eqn:Hs; [|done].
    apply starts_with_prefix in Hs as [rest ->]. intros _.
    by exists EmptyString, rest.
  - destruct (starts_with needle (String c s)) eqn:Hs.
    + apply starts_with_prefix in Hs as [rest ->]. intros _.
      by exists EmptyString, rest.
    + destruct (find_string needle s) as [m|] eqn:Hm; [|done]. intros _.
      destruct (IH m eq_refl) as (pre & post & ->).
      by exists (String c pre), post.
Qed.

Lemma find_string_missing (needle : string) : ∀ s pre post,
  find_string needle s = None → s ≠ pre +:+ needle +:+ post.
Proof.
  induction s as [|c s IH]; intros pre post; simpl.
  - destruct (starts_with needle EmptyString) eqn:Hs; [done |]. intros _ H.
    destruct pre; [|done]. simpl in H.
    assert (starts_with needle EmptyString = true)
      by (apply starts_with_prefix; by exists post).
    congruence.
  - destruct (starts_with needle (String c s)) eqn:Hs; [done |].
    destruct (find_string needle s) eqn:Hm; [done |]. intros _ H.
    destruct pre as [|c' pre]; simpl in H.
    + assert (starts_with needle (String c s) = true)
        by (apply starts_with_prefix; by exists post).
      congruence.
    + injection H as _ H. by apply (IH pre post).
Qed.

(** The test of line 301 finds the word in any casing. *)
Lemma mentions_indexOf (needle text : string) :
  mentions needle text ↔ indexOf_string (toLowerCase text) needle ≠ -1.
Proof.
  unfold mentions, indexOf_string. split.
  - intros (pre & mid & post & -> & Hmid).
    destruct (find_string needle _) as [n|] eqn:Hfind; [lia |].
    exfalso. revert Hfind. rewrite !toLowerCase_app, Hmid.
    intros Hfind.
    by apply (find_string_missing needle _ (toLowerCase pre)
                (toLowerCase post) Hfind).
  - destruct (find_string needle (toLowerCase text)) as [n|] eqn:Hfind;
      [| done].
    intros _. apply find_string_found in Hfind as (pre & post & Hlow).
    apply toLowerCase_split in Hlow as (s1 & s23 & -> & H1 & H23).
    apply toLowerCase_split in H23 as (s2 & s3 & -> & H2 & H3).
    by exists s1, s2, s3.
Qed.

Lemma alert_text_string (errorText : string) :
  (mentions "error" errorText → alert_text (VStr errorText) = VStr errorText)
  ∧ (¬ mentions "error" errorText →
     alert_text (VStr errorText) = VStr ("Error: " +:+ errorText)).
Proof.
  unfold alert_text. rewrite mentions_indexOf.
  destruct (indexOf_string (toLowerCase errorText) "error" =? -1) eqn:Hfound.
  - apply Z.eqb_eq in Hfound. split; [done |]. done.
  - apply Z.eqb_neq in Hfound. split; [done |]. by intros [].
Qed.

Lemma alert_text_mentions (errorText : string) :
  ∃ t, alert_text (VStr errorText) = VStr t ∧ mentions "error" t.
Proof.
  destruct (decide (indexOf_string (toLowerCase errorText) "error" = -1))
    as [Hno | Hyes].
  - exists ("Error: " +:+ errorText). split.
    + apply (proj2 (alert_text_string errorText)).
      rewrite mentions_indexOf. intros H. by apply H.
    + exists EmptyString, "Error", (": " +:+ errorText). by split.
  - exists errorText. split; [|by apply mentions_indexOf].
    apply (proj1 (alert_text_string errorText)). by apply mentions_indexOf.
Qed.

Lemma log_unless_string_same (message : val) (d : error_page) :
  ep_ids (log_unless_string message d) = ep_ids d
  ∧ ep_head (log_unless_string message d) = ep_head d
  ∧ ep_body (log_unless_string message d) = ep_body d.
Proof. by destruct message. Qed.

Lemma loadCss_keeps (id css : string) (d : error_page) :
  ep_body (loadCss id css d) = ep_body d
  ∧ ep_console (loadCss id css d) = ep_console d.
Proof. unfold loadCss. by destruct (no_element_with_id id d). Qed.

Lemma loadCss_named (id css : string) (d : error_page) :
  id ≠ EmptyString →
  id ∈ ep_ids (loadCss id css d)
  ∧ (id ∈ ep_ids d → loadCss id css d = d)
  ∧ (id ∉ ep_ids d →
     ep_head (loadCss id css d) = ep_head d ++ [(id, css)]).
Proof.
  intros Hid. apply String.eqb_neq in Hid.
  unfold loadCss, no_element_with_id. rewrite Hid. simpl.
  split; [| split].
  - case_bool_decide as Hin; simpl; [done |].
    apply elem_of_union. left. by apply elem_of_singleton.
  - intros Hin. by rewrite bool_decide_eq_true_2.
  - intros Hin. by rewrite bool_decide_eq_false_2.
Qed.

End errors.

(** X13.  [loadCss] with an ID that is not empty adds a style element to
    [head] only when no element of the document has the ID: an element
    with the ID is left alone, a second call adds nothing, and after a
    call the ID is there.  With the empty ID, which no element has,
    every call adds a style element.  The body is left alone. *)
Theorem loadCss_once (id css css' : string) (d : error_page) :
  (id ≠ EmptyString →
   id ∈ ep_ids (loadCss id css d)
   ∧ loadCss id css' (loadCss id css d) = loadCss id css d
   ∧ (id ∈ ep_ids d → loadCss id css d = d)
   ∧ (id ∉ ep_ids d →
      ep_head (loadCss id css d) = ep_head d ++ [(id, css)]))
  ∧ ep_head (loadCss EmptyString css' (loadCss EmptyString css d))
    = ep_head d ++ [(EmptyString, css); (EmptyString, css')]
  ∧ ep_ids (loadCss EmptyString css d) = ep_ids d
  ∧ ep_body (loadCss id css d) = ep_body d.
Proof.
  split; [| split; [| split]].
  - intros Hid. destruct (loadCss_named id css d Hid) as (H1 & H2 & H3).
    split; [done |]. split; [| done].
    by apply (loadCss_named id css' (loadCss id css d) Hid).
  - unfold loadCss, no_element_with_id. simpl. by rewrite <- app_assoc.
  - done.
  - apply loadCss_keeps.
Qed.

(** X14.  On a page with a body, for a message that has a text,
    [showErrorAlert] completes and appends one alert to the body, after
    the children it had; the style sheet of the errors is in the document
    afterwards.  For a message that is a string the text of the alert is
    the message when it holds [error] in some casing and [Error: ]
    followed by the message when it does not, so that the text always
    holds [error] in some casing. *)
Theorem showErrorAlert_appends (h : heap) (message : val) (d : error_page)
    (children : list error_node) (text : string) :
  ep_body d = Some children →
  as_textContent h (alert_text message) = Ok text →
  (showErrorAlert h message d).2 = Ok tt
  ∧ ep_body (showErrorAlert h message d).1
    = Some (children
            ++ [{| en_tag := "div"; en_className := "dataformsjs-fatal-error";
                   en_text := text; en_closeButton := true |}])
  ∧ errorStyleId ∈ ep_ids (showErrorAlert h message d).1
  ∧ ∀ errorText, message = VStr errorText →
      (mentions "error" errorText → text = errorText)
      ∧ (¬ mentions "error" errorText → text = "Error: " +:+ errorText)
      ∧ mentions "error" text.
Proof.
  intros Hbody Htext. unfold showErrorAlert. rewrite Htext.
  destruct (loadCss_keeps errorStyleId errorCss d) as [Hb _].
  rewrite Hb, Hbody. simpl.
  split; [done |]. split; [| split].
  - by destruct message.
  - destruct (log_unless_string_same message
      {| ep_ids := ep_ids (loadCss errorStyleId errorCss d);
         ep_head := ep_head (loadCss errorStyleId errorCss d);
         ep_body := Some (children ++
           [{| en_tag := "div"; en_className := "dataformsjs-fatal-error";
               en_text := text; en_closeButton := true |}]);
         ep_console := ep_console (loadCss errorStyleId errorCss d) |})
      as (-> & _ & _). simpl.
    by apply loadCss_named.
  - intros errorText ->.
    destruct (alert_text_string errorText) as [Hyes Hno].
    destruct (alert_text_mentions errorText) as (t & Ht & Hmentions).
    rewrite Ht in Htext. simpl in Htext. injection Htext as <-.
    split; [| split; [| done]].
    + intros Hm. rewrite (Hyes Hm) in Ht. by injection Ht as <-.
    + intros Hm. rewrite (Hno Hm) in Ht. by injection Ht as <-.
Qed.

Lemma showErrorAlert_appends_witness :
  let d := {| ep_ids := ∅; ep_head := []; ep_body := Some [];
              ep_console := [] |} in
  (showErrorAlert realm (VStr "Not found") d).2 = Ok tt
  ∧ ep_body (showErrorAlert realm (VStr "Not found") d).1
    = Some [{| en_tag := "div"; en_className := "dataformsjs-fatal-error";
               en_text := "Error: Not found"; en_closeButton := true |}].
Proof.
  intros d.
  destruct (showErrorAlert_appends realm (VStr "Not found") d []
              "Error: Not found") as (Hok & Hbody & _); [done | done |].
  by split.
Defined.

(** Without a body, or for a message that has no text, the call throws
    once the style sheet is loaded. *)
Lemma showErrorAlert_throws :
  let d := {| ep_ids := ∅; ep_head := []; ep_body := None;
              ep_console := [] |} in
  let d' := {| ep_ids := ∅; ep_head := []; ep_body := Some [];
               ep_console := [] |} in
  showErrorAlert realm (VStr "Not found") d
  = (loadCss errorStyleId errorCss d, Throw TypeError)
  ∧ showErrorAlert realm (VSymbol "e") d'
    = (loadCss errorStyleId errorCss d', Throw TypeError).
Proof. intros d d'. split; reflexivity. Qed.

(** ** The polyfill script *)

(** X17.  [usingWebComponentsPolyfill] never throws; it returns [true]
    exactly when [window.app] and [window.app.settings] are objects and
    [usingWebComponentsPolyfill] is [true] there, and a falsy value in
    every other case. *)
Theorem usingWebComponentsPolyfill_true (h : heap) (window : loc) :
  (usingWebComponentsPolyfill h window = VBool true ↔
   ∃ app settings,
     get_prop h window "app" = VObj app
     ∧ get_prop h app "settings" = VObj settings
     ∧ get_prop h settings "usingWebComponentsPolyfill" = VBool true)
  ∧ (truthy (usingWebComponentsPolyfill h window) = true →
     usingWebComponentsPolyfill h window = VBool true).
Proof.
  unfold usingWebComponentsPolyfill, and_then, get_named.
  assert (∀ v : val, truthy v = false ∨ truthy v = true) as Hcases
    by (intros v; destruct (truthy v); auto).
  destruct (Hcases (get_prop h window "app")) as [Happ | Happ]; rewrite Happ.
  { split; [split |].
    - intros H. rewrite H in Happ. done.
    - intros (a & t & Ha & _). rewrite Ha in Happ. done.
    - intros H. congruence. }
  destruct (get_prop h window "app") as [| |b|x|n|s|d|app] eqn:Eapp;
    try (split; [split; [done | by intros (? & ? & ? & _)] | done]).
  destruct (Hcases (get_prop h app "settings")) as [Hset | Hset]; rewrite Hset.
  { split; [split |].
    - intros H. rewrite H in Hset. done.
    - intros (a & t & [= <-] & Ht & _). rewrite Ht in Hset. done.
    - intros H. congruence. }
  destruct (get_prop h app "settings") as [| |b|x|n|s|d|settings] eqn:Eset;
    try (split; [split; [done |] | done];
         intros (a & t & [= <-] & Ht & _); congruence).
  case_bool_decide as Hflag; simpl.
  - split; [| done]. split; [| done]. intros _. by exists app, settings.
  - split; [| done]. split; [done |].
    intros (a & t & [= <-] & Ht & Hf). simplify_eq. congruence.
Qed.

(** ** URLs *)

Section urls.
Import JsString JsText JsUrl.
Variables (h : heap) (window : loc).

Lemma replace_braces_plain (pre s : string) :
  mem "{" pre = false →
  replace_braces h window None (pre +:+ s)
  = pre +:+ replace_braces h window None s.
Proof.
  induction pre as [|c pre IH]; [done |]. simpl.
  intros [Hc Hpre]%orb_false_elim. by rewrite Hc, IH.
Qed.

Lemma replace_braces_none (s : string) :
  mem "{" s = false → replace_braces h window None s = s.
Proof.
  induction s as [|c s IH]; [done |]. simpl.
  intros [Hc Hs]%orb_false_elim. by rewrite Hc, IH.
Qed.

Lemma replace_braces_name (name : string) : ∀ acc post,
  all_chars is_word_char name = true →
  acc +:+ name ≠ EmptyString →
  replace_braces h window (Some acc) (name +:+ String "}" post)
  = window_string h window (acc +:+ name)
      +:+ replace_braces h window None post.
Proof.
  induction name as [|c name IH]; intros acc post Hword Hne; simpl.
  - rewrite str_app_nil_r in *.
    destruct (String.eqb acc EmptyString) eqn:Hacc; [| done].
    by apply String.eqb_eq in Hacc.
  - simpl in Hword. apply andb_true_iff in Hword as [Hc Hname].
    rewrite Hc, IH; [| done |].
    + by rewrite str_app_assoc.
    + rewrite str_app_assoc. by destruct acc.
Qed.

Lemma find_string_absent (c : ascii) (p s : string) :
  mem c s = false → find_string (String c p) s = None.
Proof.
  induction s as [|a s IH]; [done |]. simpl.
  intros [Ha Hs]%orb_false_elim.
  rewrite Ascii.eqb_sym, Ha. simpl. by rewrite IH.
Qed.

Lemma encode_char_chars (c : ascii) :
  all_chars (fun x => is_unreserved x || Ascii.eqb x "%") (encode_char c)
  = true.
Proof. by destruct c as [[] [] [] [] [] [] [] []]. Qed.

Lemma all_chars_app (P : ascii -> bool) (s t : string) :
  all_chars P (s +:+ t) = all_chars P s && all_chars P t.
Proof.
  induction s as [|c s IH]; [done |]. simpl. by rewrite IH, andb_assoc.
Qed.

Lemma all_chars_mem (P : ascii -> bool) (c : ascii) (s : string) :
  all_chars P s = true → P c = false → mem c s = false.
Proof.
  induction s as [|a s IH]; [done |]. simpl.
  intros [Ha Hs]%andb_true_iff Hc. rewrite IH by done.
  destruct (Ascii.eqb_spec a c) as [-> | Hne]; [congruence | done].
Qed.

Lemma encodeURIComponent_chars (s : string) :
  all_chars (fun x => is_unreserved x || Ascii.eqb x "%")
    (encodeURIComponent s) = true.
Proof.
  induction s as [|c s IH]; [done |]. simpl.
  by rewrite all_chars_app, encode_char_chars, IH.
Qed.

Lemma encodeURIComponent_plain (s : string) :
  all_chars is_unreserved s = true → encodeURIComponent s = s.
Proof.
  induction s as [|c s IH]; [done |]. simpl.
  intros [Hc Hs]%andb_true_iff. unfold encode_char. by rewrite Hc, IH.
Qed.

Lemma replace_text_absent (c : ascii) (p rep s : string) :
  mem c s = false → replace_text_from 0 (String c p) rep s = s.
Proof.
  induction s as [|a s IH]; [done |]. simpl.
  intros [Ha Hs]%orb_false_elim.
  rewrite Ascii.eqb_sym, Ha. simpl. by rewrite IH.
Qed.

Lemma starts_with_app (p s : string) : starts_with p (p +:+ s) = true.
Proof.
  induction p as [|c p IH]; [by destruct s |]. simpl.
  by rewrite Ascii.eqb_refl, IH.
Qed.

Lemma replace_text_skip (p pat rep s : string) :
  replace_text_from (String.length p) pat rep (p +:+ s)
  = replace_text_from 0 pat rep s.
Proof. induction p as [|c p IH]; [done |]. simpl. apply IH. Qed.

Lemma replace_text_once (c : ascii) (p rep pre post : string) :
  mem c pre = false → mem c post = false →
  replace_text_from 0 (String c p) rep (pre +:+ String c p +:+ post)
  = pre +:+ rep +:+ post.
Proof.
  intros Hpre Hpost. induction pre as [|a pre IH].
  - simpl. rewrite Ascii.eqb_refl, starts_with_app. simpl.
    rewrite Nat.sub_0_r, replace_text_skip.
    by rewrite (replace_text_absent c p rep post).
  - simpl in *. apply orb_false_elim in Hpre as [Ha Hpre].
    rewrite Ascii.eqb_sym, Ha. simpl. by rewrite IH.
Qed.

Lemma find_string_present (c : ascii) (p pre post : string) :
  is_Some (find_string (String c p) (pre +:+ String c p +:+ post)).
Proof.
  induction pre as [|a pre [n IH]].
  - simpl. rewrite Ascii.eqb_refl, starts_with_app. by eexists.
  - simpl in *. destruct (Ascii.eqb c a && _); [by eexists |].
    rewrite IH. by eexists.
Qed.

End urls.

(** X18.  [buildUrl] replaces [{name}], a name of word characters in
    braces, by the global of that name when the global is a string, and
    leaves it as it is otherwise; text without an opening brace is
    copied.  Parameters that are no object ([null], [undefined], a
    primitive value, a function) are not looked at. *)
Theorem buildUrl_window_variable
    (regexp_replace : string -> option (string -> string -> string))
    (h : heap) (window : loc) (pre name post : string) (params : val) :
  JsString.mem "{" pre = false →
  name ≠ EmptyString →
  JsUrl.all_chars JsUrl.is_word_char name = true →
  is_object h params = false →
  buildUrl regexp_replace h window
    (VStr (pre +:+ "{" +:+ name +:+ "}" +:+ post)) params
  = Ok (pre +:+ window_string h window name
          +:+ replace_braces h window None post)
  ∧ (∀ v, get_prop h window name = VStr v → window_string h window name = v)
  ∧ ((∀ v, get_prop h window name ≠ VStr v) →
     window_string h window name = "{" +:+ name +:+ "}").
Proof.
  intros Hpre Hne Hword Hparams. split; [| split].
  - unfold buildUrl. simpl. rewrite Hparams.
    rewrite replace_braces_plain by done.
    simpl. by rewrite replace_braces_name.
  - intros v Hv. unfold window_string. by rewrite Hv.
  - intros Hv. unfold window_string.
    destruct (get_prop h window name); try done. by destruct (Hv s).
Qed.

Lemma buildUrl_window_variable_witness :
  let h : heap :=
    <[ 20%positive :=
         object_literal [("rootApiUrl", VStr "https://example.com/api")]
           1%positive ]> realm in
  buildUrl (fun _ => None) h 20%positive (VStr "{rootApiUrl}/countries") VNull
  = Ok "https://example.com/api/countries"
  ∧ buildUrl (fun _ => None) h 20%positive (VStr "{other}/countries")
      VUndefined
    = Ok "{other}/countries".
Proof.
  intros h.
  destruct (buildUrl_window_variable (fun _ => None) h 20%positive
              EmptyString "rootApiUrl" "/countries" VNull)
    as (Hurl & Hstring & _); [done | done | done | done |].
  destruct (buildUrl_window_variable (fun _ => None) h 20%positive
              EmptyString "other" "/countries" VUndefined)
    as (Hurl' & _ & Hother); [done | done | done | done |].
  split.
  - rewrite (Hstring "https://example.com/api") in Hurl by done. exact Hurl.
  - rewrite Hother in Hurl' by (by intros v). exact Hurl'.
Defined.

(** X19.  A URL without an opening brace and without a colon comes back
    as it is, whatever the parameters and whatever regular expressions
    their names would make, provided the call of [hasOwnProperty] on the
    parameters returns for every name the loop visits: no parameter is
    looked for in the URL. *)
Theorem buildUrl_nothing_to_replace
    (regexp_replace : string -> option (string -> string -> string))
    (h : heap) (window : loc) (url : string) (params : val) :
  JsString.mem "{" url = false →
  JsString.mem ":" url = false →
  (∀ l prop, params = VObj l → prop ∈ for_in h l →
     ∃ b, hasOwnProperty_test h l prop = Ok b) →
  buildUrl regexp_replace h window (VStr url) params = Ok url.
Proof.
  intros Hbrace Hcolon Hown. unfold buildUrl. simpl.
  rewrite replace_braces_none by done.
  destruct (is_object h params); [| done].
  destruct params as [| | | | | | |l]; try done.
  specialize (Hown l). revert Hown.
  generalize (for_in h l). intros props Hown.
  induction props as [|prop props IH]; [done |].
  assert (replace_param regexp_replace h l url prop = Ok url) as Hstep.
  { unfold replace_param.
    destruct (Hown prop eq_refl) as [b ->]; [by left |].
    change (":" +:+ prop) with (String ":" prop).
    unfold JsText.indexOf_string.
    rewrite (find_string_absent ":" prop url Hcolon). by destruct b. }
  cbn [for_each]. rewrite Hstep. cbn [mbind result_bind].
  apply IH. intros p Hl Hp. apply Hown; [done | by right].
Qed.

Lemma buildUrl_nothing_to_replace_witness :
  let h : heap :=
    <[ 10%positive :=
         object_literal [("(", VNum (Decimal false 1 1))] 1%positive ]>
      realm in
  buildUrl (fun _ => None) h 20%positive (VStr "/orders") (VObj 10%positive)
  = Ok "/orders".
Proof.
  intros h.
  apply (buildUrl_nothing_to_replace (fun _ => None) h 20%positive "/orders"
           (VObj 10%positive)); [done | done |].
  intros l prop [= <-] _.
  assert (get_prop h 10%positive "hasOwnProperty" = VObj 2%positive) as Hget
    by (vm_compute; reflexivity).
  unfold hasOwnProperty_test. rewrite Hget.
  replace (h !! 2%positive ≫= callable) with (Some HasOwnProperty)
    by (vm_compute; reflexivity).
  by eexists.
Defined.

(** Where [hasOwnProperty] on the parameters is no function (an object
    with a property of that name, an object without prototype), the call
    throws a [TypeError] at the first name. *)
Lemma buildUrl_hasOwnProperty_throws :
  let h : heap :=
    <[ 10%positive :=
         object_literal [("hasOwnProperty", VNum (Decimal false 1 1))]
           1%positive ]>
      (<[ 11%positive := bare_object [("id", VNum (Decimal false 1 1))] ]>
         realm) in
  buildUrl (fun _ => None) h 20%positive (VStr "/orders") (VObj 10%positive)
  = Throw TypeError
  ∧ buildUrl (fun _ => None) h 20%positive (VStr "/orders") (VObj 11%positive)
    = Throw TypeError.
Proof. intros h. split; vm_compute; reflexivity. Qed.

(** X20.  The text [encodeURIComponent] returns holds unreserved
    characters and [%] only, so none of [/ ? # & = : $] and no brace or
    space; text made of unreserved characters comes back as it is. *)
Theorem encodeURIComponent_safe (s : string) (c : ascii) :
  JsUrl.all_chars (fun x => JsUrl.is_unreserved x || Ascii.eqb x "%")
    (JsUrl.encodeURIComponent s) = true
  ∧ (JsString.mem c "/?#&=:${} " = true →
     JsString.mem c (JsUrl.encodeURIComponent s) = false)
  ∧ (JsUrl.all_chars JsUrl.is_unreserved s = true →
     JsUrl.encodeURIComponent s = s).
Proof.
  split; [apply encodeURIComponent_chars |].
  split; [| apply encodeURIComponent_plain].
  intros Hc. apply (all_chars_mem _ c _ (encodeURIComponent_chars s)).
  clear -Hc.
  destruct c as [[] [] [] [] [] [] [] []]; vm_compute in Hc;
    first [discriminate Hc | reflexivity].
Qed.

(** X21.  For parameters with one enumerable property, which is their
    own, has a name made of word characters and a value that has a text:
    [buildUrl] puts the encoded text of the value in place of [:name] in
    a URL that has no opening brace and no other colon. *)
Theorem buildUrl_parameter
    (regexp_replace : string -> option (string -> string -> string))
    (h : heap) (window : loc) (pre prop post : string) (params : loc)
    (text : string) :
  replaces_text regexp_replace →
  JsUrl.all_chars JsUrl.is_word_char prop = true →
  JsString.mem "{" (pre +:+ ":" +:+ prop +:+ post) = false →
  JsString.mem ":" pre = false → JsString.mem ":" post = false →
  is_object h (VObj params) = true →
  for_in h params = [prop] →
  hasOwnProperty_test h params prop = Ok true →
  ToString h (get_prop h params prop) = Ok text →
  buildUrl regexp_replace h window (VStr (pre +:+ ":" +:+ prop +:+ post))
    (VObj params)
  = Ok (pre +:+ JsUrl.encodeURIComponent text +:+ post).
Proof.
  intros Hengine Hword Hbrace Hpre Hpost Hobj Hnames Hown Htext.
  unfold buildUrl. simpl String_. simpl mbind.
  rewrite replace_braces_none by done.
  rewrite Hobj, Hnames. simpl for_each. unfold replace_param.
  rewrite Hown. simpl.
  unfold JsText.indexOf_string.
  destruct (find_string_present ":" prop pre post) as [n Hn].
  change (pre +:+ String ":" (prop +:+ post))
    with (pre +:+ String ":" prop +:+ post).
  rewrite Hn. rewrite (proj2 (Z.gtb_lt _ _)) by lia.
  destruct (Hengine prop (JsUrl.encodeURIComponent text)
              (pre +:+ String ":" prop +:+ post))
    as (replace & Hre & Hrep); [done | |].
  { apply (all_chars_mem _ "$" _ (encodeURIComponent_chars _)). done. }
  change (String ":" prop) with (":" +:+ prop) at 1.
  rewrite Hre, Htext. cbn [mbind result_bind]. rewrite Hrep.
  change (":" +:+ prop) with (String ":" prop).
  by rewrite replace_text_once.
Qed.

Lemma buildUrl_parameter_witness :
  let h : heap :=
    <[ 10%positive := object_literal [("id", VStr "a/b c")] 1%positive ]>
      realm in
  buildUrl
    (fun source => Some (fun rep s => JsUrl.replace_text_from 0 source rep s))
    h 20%positive (VStr "/order/:id/items") (VObj 10%positive)
  = Ok "/order/a%2Fb%20c/items".
Proof.
  intros h.
  apply (buildUrl_parameter _ h 20%positive "/order/" "id" "/items"
           10%positive "a/b c");
    try done; try (vm_compute; reflexivity).
  intros prop rep s _ _. by eexists.
Defined.

(** A number is put in as the language prints it. *)
Lemma buildUrl_parameter_number :
  let h : heap :=
    <[ 10%positive :=
         object_literal [("id", VNum (Decimal false 1 22))] 1%positive ]>
      realm in
  buildUrl
    (fun source => Some (fun rep s => JsUrl.replace_text_from 0 source rep s))
    h 20%positive (VStr "/order/:id") (VObj 10%positive)
  = Ok "/order/1e%2B21".
Proof. intros h. vm_compute. reflexivity. Qed.
